(** * Patch synthesis and sanitisation pipeline of the bug-fixer agent

    A shallow embedding of [src/main.py]: the code extractor
    ([extract_code_from_output], [clean_code_output]), the docstring
    stripper ([remove_docstrings_from_patch]), the header rewriter
    ([modify_patch_file]), the packager ([save_patch_to_jsonl]) and the
    driver that chains them, together with the properties the specification
    states about them.  The front of the driver ([clone_repository],
    [save_original_file_path], the choice of the file to fix and of the
    input text, [run_agent]) and the code of the two agents (the callback
    [_remove_end_of_edit_mark] and the functions of the prompt modules) are
    embedded as well, with the laws they obey.

    Conventions.
    - A Python [str] is a [string]; a character stands for the code point of
      the same number (code points below 256).
    - A file holds text.  Reading goes through Python's universal-newline
      translation ([universal_newlines]); writing stores the text as it is
      (the POSIX case, where [os.linesep] is a single line feed).
    - Functions that touch files, print or raise live in the monad [M]
      (state of the world plus an exception), see [Module Py]. *)

From Stdlib Require Import String Ascii List Bool Arith Lia.
From Stdlib Require DecimalString DecimalNat.
From Stdlib Require Import Permutation.
Import ListNotations.
Open Scope list_scope.
Open Scope string_scope.

(* ===================================================================== *)
(** * Part I: the embedding                                                *)
(* ===================================================================== *)

(** ** Python string operations *)

Module PyStr.

Definition LF : ascii := "010"%char.
Definition CR : ascii := "013"%char.
Definition DQ : ascii := "034"%char.
Definition SQ : ascii := "039"%char.
Definition BQ : ascii := "096"%char.

Definition nl : string := String LF "".

(** [s.startswith(p)] *)
Definition startswith (s p : string) : bool := String.prefix p s.

(** [s[n:]] for [n >= 0] *)
Fixpoint drop (n : nat) (s : string) : string :=
  match n, s with
  | O, _ => s
  | S _, EmptyString => EmptyString
  | S n', String _ r => drop n' r
  end.

(** [s[:n]] for [n >= 0] *)
Fixpoint take (n : nat) (s : string) : string :=
  match n, s with
  | O, _ => EmptyString
  | S _, EmptyString => EmptyString
  | S n', String c r => String c (take n' r)
  end.

(** [s.endswith(p)] *)
Definition endswith (s p : string) : bool :=
  (String.length p <=? String.length s)%nat
  && String.eqb (drop (String.length s - String.length p) s) p.

(** [p in s] *)
Fixpoint contains (p s : string) : bool :=
  String.prefix p s
  || match s with
     | EmptyString => false
     | String _ r => contains p r
     end.

(** [c.isspace()] on the code points below 256: TAB, LF, VT, FF, CR,
    FS, GS, RS, US, SPACE, NEL and NBSP. *)
Definition isspace (c : ascii) : bool :=
  let n := nat_of_ascii c in
  (((9 <=? n) && (n <=? 13)) || ((28 <=? n) && (n <=? 32))
   || (n =? 133) || (n =? 160))%nat.

(** [s.lstrip()] *)
Fixpoint lstrip (s : string) : string :=
  match s with
  | EmptyString => EmptyString
  | String c r => if isspace c then lstrip r else s
  end.

(** [s.rstrip()] *)
Fixpoint rstrip (s : string) : string :=
  match s with
  | EmptyString => EmptyString
  | String c r =>
      match rstrip r with
      | EmptyString => if isspace c then EmptyString else String c EmptyString
      | r' => String c r'
      end
  end.

(** [s.strip()] *)
Definition strip (s : string) : string := lstrip (rstrip s).

(** Truth value of a string: [bool(s)] *)
Definition truthy (s : string) : bool :=
  match s with EmptyString => false | _ => true end.

(** [''.join(ls)], also the text that [f.writelines(ls)] produces *)
Definition join (ls : list string) : string :=
  fold_right String.append EmptyString ls.

(** Universal-newline translation done by a text-mode read:
    CR LF and a lone CR both become LF. *)
Fixpoint universal_newlines (s : string) : string :=
  match s with
  | EmptyString => EmptyString
  | String c r =>
      if Ascii.eqb c CR then
        match r with
        | String c2 r2 =>
            if Ascii.eqb c2 LF then String LF (universal_newlines r2)
            else String LF (universal_newlines r)
        | EmptyString => String LF EmptyString
        end
      else String c (universal_newlines r)
  end.

(** Cutting a text into lines, each keeping its line feed; only the last
    line can lack one.  This is what [f.readlines()] returns on the
    translated text. *)
Fixpoint splitlines (s : string) : list string :=
  match s with
  | EmptyString => []
  | String c r =>
      if Ascii.eqb c LF then String c EmptyString :: splitlines r
      else match splitlines r with
           | [] => [String c EmptyString]
           | l :: ls => String c l :: ls
           end
  end.

(** The lines Python sees when it reads a file whose content is [raw]. *)
Definition readlines (raw : string) : list string :=
  splitlines (universal_newlines raw).

End PyStr.

(** ** The docstring stripper: [remove_docstrings_from_patch], lines 206-255 *)

Module Stripper.
Import PyStr.

(** The two delimiters: three double quotes, three single quotes. *)
Definition TDQ : string := String DQ (String DQ (String DQ "")).
Definition TSQ : string := String SQ (String SQ (String SQ "")).

(** The two loop variables that survive an iteration. *)
Record scan_state : Type := Scan {
  in_multiline_docstring : bool;
  docstring_quotes : option string
}.

(** The values before the loop (lines 207-208). *)
Definition initial : scan_state := Scan false None.

Definition OUTSIDE : scan_state := Scan false None.
Definition INSIDE (d : string) : scan_state := Scan true (Some d).

(** [docstring_quotes and docstring_quotes in added_text] (line 220) *)
Definition quotes_in (q : option string) (added_text : string) : bool :=
  match q with
  | Some d => truthy d && contains d added_text
  | None => false
  end.

(** One iteration of the loop body (lines 211-255): the new values of the
    loop variables and [should_keep_line]. *)
Definition scan_line (st : scan_state) (line_content : string)
  : scan_state * bool :=
  if startswith line_content "+" then
    let added_text := drop 1 line_content in
    let stripped_added_text := lstrip added_text in
    if in_multiline_docstring st then
      if quotes_in (docstring_quotes st) added_text
      then (Scan false None, false)
      else (st, false)
    else if startswith stripped_added_text TDQ
            && endswith stripped_added_text TDQ
            && (6 <=? String.length stripped_added_text)%nat
    then (st, false)
    else if startswith stripped_added_text TSQ
            && endswith stripped_added_text TSQ
            && (6 <=? String.length stripped_added_text)%nat
    then (st, false)
    else if startswith stripped_added_text TDQ then
      if contains TDQ (drop (String.length TDQ) stripped_added_text)
      then (Scan false None, false)
      else (Scan true (Some TDQ), false)
    else if startswith stripped_added_text TSQ then
      if contains TSQ (drop (String.length TSQ) stripped_added_text)
      then (Scan false None, false)
      else (Scan true (Some TSQ), false)
    else (st, true)
  else (st, true).

(** The loop: [modified_lines] grows at its end, the state is threaded. *)
Definition loop_body (acc : list string * scan_state) (line_content : string)
  : list string * scan_state :=
  let '(modified_lines, st) := acc in
  let '(st', should_keep_line) := scan_line st line_content in
  (if should_keep_line then (modified_lines ++ [line_content])%list
   else modified_lines, st').

Definition scan_from (st : scan_state) (lines : list string)
  : list string * scan_state :=
  fold_left loop_body lines ([], st).

(** [modified_lines] after the loop. *)
Definition strip_lines (lines : list string) : list string :=
  fst (scan_from initial lines).

(** The state in which the line after [lines] is scanned. *)
Definition state_after (st : scan_state) (lines : list string) : scan_state :=
  snd (scan_from st lines).

(** The text written back for a patch file whose content is [raw]. *)
Definition strip_text (raw : string) : string :=
  join (strip_lines (readlines raw)).

(** A line is an addition line when it begins with [+]. *)
Definition is_addition (line : string) : bool := startswith line "+".

Definition non_addition (line : string) : bool := negb (is_addition line).

Definition delimiter (d : string) : Prop := d = TDQ \/ d = TSQ.

(** The states the loop can be in: the two variables agree, and the
    delimiter is one of the two. *)
Definition valid_state (st : scan_state) : Prop :=
  st = OUTSIDE \/ st = INSIDE TDQ \/ st = INSIDE TSQ.

(** An addition line that opens no docstring. *)
Definition ordinary_addition (line : string) : Prop :=
  is_addition line = true
  /\ startswith (lstrip (drop 1 line)) TDQ = false
  /\ startswith (lstrip (drop 1 line)) TSQ = false.

(** The lines of the specification's examples. *)
Definition single_line_docstring : string :=
  "+    " ++ TDQ ++ "This is a docstring." ++ TDQ.

Definition multi_line_docstring : list string :=
  [ "+    " ++ TDQ ++ nl; "+    Multi-line." ++ nl; "+    " ++ TDQ ++ nl ].

End Stripper.

(** ** [repr] of a string, as Python prints a file name in an error *)

Module PyRepr.
Import PyStr.

Definition BSLASH : ascii := "092"%char.

(** [c in s] *)
Fixpoint mem (c : ascii) (s : string) : bool :=
  match s with
  | EmptyString => false
  | String d r => Ascii.eqb d c || mem c r
  end.

(** [c.isprintable()] on the code points below 256 *)
Definition isprintable (c : ascii) : bool :=
  let n := nat_of_ascii c in
  (((32 <=? n) && (n <=? 126)) || ((161 <=? n) && (n <=? 172))
   || ((174 <=? n) && (n <=? 255)))%nat.

Definition hex_lower (n : nat) : ascii :=
  nth n (list_ascii_of_string "0123456789abcdef") "0"%char.

(** One character inside the quotes: the quote in use and the backslash
    get a backslash, tab, line feed and carriage return their letter,
    other characters that are not printable a [\x] escape. *)
Definition repr_char (quote c : ascii) : string :=
  let n := nat_of_ascii c in
  if Ascii.eqb c quote || Ascii.eqb c BSLASH then String BSLASH (String c "")
  else if (n =? 9)%nat then String BSLASH "t"
  else if (n =? 10)%nat then String BSLASH "n"
  else if (n =? 13)%nat then String BSLASH "r"
  else if isprintable c then String c ""
  else String BSLASH
         (String "x" (String (hex_lower (n / 16)) (String (hex_lower (n mod 16)) ""))).

Fixpoint repr_body (quote : ascii) (s : string) : string :=
  match s with
  | EmptyString => EmptyString
  | String c r => repr_char quote c ++ repr_body quote r
  end.

(** [repr(s)]: single quotes, unless the text holds a single quote and no
    double quote. *)
Definition repr (s : string) : string :=
  let quote := if mem SQ s && negb (mem DQ s) then DQ else SQ in
  String quote (repr_body quote s ++ String quote "").

End PyRepr.

(** ** Effects: files, standard output, exceptions *)

Module Py.
Import PyStr.

(** The exception classes the code tells apart: [FileNotFoundError],
    any other subclass of [Exception], and [SystemExit] (raised by
    [sys.exit], not a subclass of [Exception]).  The string is [str(e)]. *)
Inductive exn : Type :=
| FileNotFoundError (msg : string)
| OtherException (msg : string)
| SystemExit (code : nat).

Definition is_Exception (e : exn) : bool :=
  match e with SystemExit _ => false | _ => true end.

Definition is_FileNotFoundError (e : exn) : bool :=
  match e with FileNotFoundError _ => true | _ => false end.

Definition str_of_exn (e : exn) : string :=
  match e with
  | FileNotFoundError m => m
  | OtherException m => m
  | SystemExit _ => ""
  end.

(** What the operating system does to one [open] and the reads or writes
    that follow it: nothing special, a failure of [open] itself, or a
    failure after [written] characters have reached the file. *)
Inductive fault : Type :=
| NoFault
| OpenFault (e : exn)
| MidFault (written : nat) (e : exn).

(** The world: the content of each file (a path with no file maps to
    [None]), what was printed, and the faults still to come, one per
    [open], in order (none left: no fault). *)
Record world : Type := World {
  files : string -> option string;
  stdout : list string;
  faults : list fault
}.

Inductive result (A : Type) : Type :=
| Ret (a : A)
| Raise (e : exn).
Arguments Ret {A} a.
Arguments Raise {A} e.

Definition M (A : Type) : Type := world -> result A * world.

Definition ret {A} (a : A) : M A := fun w => (Ret a, w).

Definition raise {A} (e : exn) : M A := fun w => (Raise e, w).

Definition bind {A B} (m : M A) (k : A -> M B) : M B :=
  fun w =>
    match m w with
    | (Ret a, w') => k a w'
    | (Raise e, w') => (Raise e, w')
    end.

(** [try: body  except <class> as e: handler e] *)
Definition try_except {A} (body : M A) (class : exn -> bool)
           (handler : exn -> M A) : M A :=
  fun w =>
    match body w with
    | (Ret a, w') => (Ret a, w')
    | (Raise e, w') => if class e then handler e w' else (Raise e, w')
    end.

Definition print (s : string) : M unit :=
  fun w => (Ret tt, World (files w) (stdout w ++ [s])%list (faults w)).

Definition update (fs : string -> option string) (path content : string)
  : string -> option string :=
  fun p => if String.eqb p path then Some content else fs p.

(** No fault at the next [n] calls of [open]. *)
Definition calm (n : nat) (w : world) : Prop :=
  forall i, i < n -> nth i (faults w) NoFault = NoFault.

(** [m] changes no file but [path]. *)
Definition frame {A : Type} (path : string) (m : M A) : Prop :=
  forall (w : world) (p : string), p <> path -> files (snd (m w)) p = files w p.

(** A fault that makes a write fail with an exception the code catches. *)
Definition write_fails (f : fault) : Prop :=
  match f with
  | NoFault => False
  | OpenFault e => is_Exception e = true
  | MidFault _ e => is_Exception e = true
  end.

(** The content of a file that held [old] after [open(path, "w")] and the
    write of [new] under the fault [f]. *)
Definition left_by (f : fault) (old new : string) : string :=
  match f with
  | NoFault => new
  | OpenFault _ => old
  | MidFault written _ => take written new
  end.

(** The fault of the next [open], and the faults after it. *)
Definition next_fault (w : world) : fault * list fault :=
  match faults w with
  | [] => (NoFault, [])
  | f :: fs => (f, fs)
  end.

(** [with open(path, "r") as f: f.read()] *)
Definition read_text (path : string) : M string :=
  fun w =>
    let '(f, rest) := next_fault w in
    let w' := World (files w) (stdout w) rest in
    match f with
    | NoFault =>
        match files w path with
        | Some raw => (Ret (universal_newlines raw), w')
        | None =>
            (Raise (FileNotFoundError
                      ("[Errno 2] No such file or directory: " ++ PyRepr.repr path)),
             w')
        end
    | OpenFault e => (Raise e, w')
    | MidFault _ e => (Raise e, w')
    end.

(** [with open(path, "r") as f: f.readlines()] *)
Definition read_lines (path : string) : M (list string) :=
  bind (read_text path) (fun text => ret (splitlines text)).

(** [with open(path, "w") as f: f.write(text)].  Opening for writing
    empties the file; a fault after that leaves what was written so far. *)
Definition write_text (path text : string) : M unit :=
  fun w =>
    let '(f, rest) := next_fault w in
    match f with
    | NoFault => (Ret tt, World (update (files w) path text) (stdout w) rest)
    | OpenFault e => (Raise e, World (files w) (stdout w) rest)
    | MidFault written e =>
        (Raise e, World (update (files w) path (take written text)) (stdout w) rest)
    end.

(** [with open(path, "w") as f: f.writelines(lines)] *)
Definition write_lines (path : string) (lines : list string) : M unit :=
  write_text path (join lines).

Module Notations.
Notation "x <- m ;; k" := (bind m (fun x => k))
  (at level 61, m at next level, right associativity).
Notation "m ;;; k" := (bind m (fun _ => k))
  (at level 61, right associativity).
End Notations.

End Py.

(** ** The code extractor *)

Module Extractor.
Import PyStr Py Py.Notations.

Definition fence : string := "```".
Definition python_fence_open : string := "```python" ++ nl.
Definition plain_fence_open : string := "```" ++ nl.

(** The lazy group followed by the closing fence, matched at the start of
    [s]: the text before the first closing fence. *)
Fixpoint lazy_until (closer s : string) : option string :=
  if String.prefix closer s then Some EmptyString
  else match s with
       | EmptyString => None
       | String c r => option_map (String c) (lazy_until closer r)
       end.

(** The pattern matched at the start of [s]: the opener, then the group. *)
Definition match_here (opener s : string) : option string :=
  if String.prefix opener s
  then lazy_until fence (drop (String.length opener) s)
  else None.

(** [re.search(opener + "(.*?)```", s, re.DOTALL)]: the start positions are
    tried from left to right; the result is [group(1)] of the first one
    where the pattern matches. *)
Fixpoint re_search (opener s : string) : option string :=
  match match_here opener s with
  | Some g => Some g
  | None =>
      match s with
      | EmptyString => None
      | String _ r => re_search opener r
      end
  end.

Definition starts_like_code (output : string) : bool :=
  startswith (strip output) "class"
  || startswith (strip output) "def"
  || startswith (strip output) "import"
  || startswith (strip output) (String DQ (String DQ (String DQ ""))).

(** [output[:500] + "..." if len(output) > 500 else output] *)
Definition debug_excerpt (output : string) : string :=
  if (500 <? String.length output)%nat then take 500 output ++ "..." else output.

(** [extract_code_from_output], lines 154-175 *)
Definition extract_code_from_output (output : string) : M string :=
  match re_search python_fence_open output with
  | Some g => ret g
  | None =>
      match re_search plain_fence_open output with
      | Some g => ret g
      | None =>
          if starts_like_code output then ret output
          else
            print "DEBUG - Code generator output:" ;;;
            print (debug_excerpt output) ;;;
            ret output
      end
  end.

(** [clean_code_output], lines 178-189 *)
Definition clean_code_output (code : string) : string :=
  let code :=
    if startswith code "```python"
    then lstrip (drop (String.length "```python") code) else code in
  let code :=
    if startswith code "```"
    then lstrip (drop (String.length "```") code) else code in
  let code :=
    if endswith code "```"
    then rstrip (take (String.length code - String.length "```") code) else code in
  code.

End Extractor.

(** ** The header rewriter: [modify_patch_file] *)

Module Header.
Import PyStr Py Py.Notations.

(** [new_header], lines 308-312 *)
Definition new_header : list string :=
  [ "diff --git a/django/forms/widgets.py b/django/forms/widgets.py" ++ nl;
    "--- a/django/forms/widgets.py" ++ nl;
    "+++ b/django/forms/widgets.py" ++ nl ].

(** [new_header + lines[2:]], line 314 *)
Definition rewrite_header (lines : list string) : list string :=
  (new_header ++ skipn 2 lines)%list.

(** [modify_patch_file], lines 304-324 *)
Definition modify_patch_file (patch_file_path : string) : M bool :=
  try_except
    (lines <- read_lines patch_file_path ;;
     write_lines patch_file_path (rewrite_header lines) ;;;
     print ("Successfully modified patch file: " ++ patch_file_path) ;;;
     ret true)
    is_Exception
    (fun e =>
       print ("Error modifying patch file " ++ patch_file_path ++ ": "
              ++ str_of_exn e) ;;;
       ret false).

(** The text left in the file for a patch whose content was [raw]. *)
Definition rewrite_text (raw : string) : string :=
  join (rewrite_header (readlines raw)).

(** The header the specification asks for, for a target path [p]:
    this definition follows the specification's words, not the code. *)
Definition spec_canonical_header (p : string) : list string :=
  [ "diff --git a/" ++ p ++ " b/" ++ p ++ nl;
    "--- a/" ++ p ++ nl;
    "+++ b/" ++ p ++ nl ].

End Header.

(** ** Python's [difflib]: [SequenceMatcher] and [unified_diff]

    Modelled from the spec: the specification asks for the standard
    unified-diff algorithm with a context of 3 lines; [generate_diff_patch]
    calls [difflib.unified_diff] for it, which is no part of the
    repository.  The definitions below follow [difflib.py] of the CPython
    standard library (3.11), for [isjunk=None] and [autojunk=True], the way
    [unified_diff] builds its matcher. *)

Module Difflib.
Import PyStr.

(** *** Small dictionaries, as association lists in insertion order *)

Fixpoint dict_get {V : Type} (m : list (nat * V)) (k : nat) : option V :=
  match m with
  | [] => None
  | (k', v) :: m' => if Nat.eqb k' k then Some v else dict_get m' k
  end.

Definition b2j_t : Type := list (string * list nat).

Fixpoint b2j_get (m : b2j_t) (x : string) : list nat :=
  match m with
  | [] => []
  | (y, js) :: m' => if String.eqb y x then js else b2j_get m' x
  end.

(** [indices = b2j.setdefault(elt, []); indices.append(i)] *)
Fixpoint setdefault_append (m : b2j_t) (elt : string) (i : nat) : b2j_t :=
  match m with
  | [] => [(elt, [i])]
  | (y, js) :: m' =>
      if String.eqb y elt then (y, (js ++ [i])%list) :: m'
      else (y, js) :: setdefault_append m' elt i
  end.

Definition enumerate {A : Type} (l : list A) : list (nat * A) :=
  combine (seq 0 (List.length l)) l.

(** [__chain_b]: with [isjunk=None] no element is junk; with
    [autojunk=True] and at least 200 elements, the popular ones (more than
    [n // 100 + 1] occurrences) are deleted from [b2j]. *)
Definition chain_b (b : list string) : b2j_t :=
  let b2j :=
    fold_left (fun m ie => setdefault_append m (snd ie) (fst ie))
              (enumerate b) [] in
  let n := List.length b in
  if (200 <=? n)%nat then
    let ntest := (n / 100 + 1)%nat in
    filter (fun kv => negb (ntest <? List.length (snd kv))%nat) b2j
  else b2j.

(** [bjunk] is the empty set. *)
Definition isbjunk (x : string) : bool := false.

Section Matcher.
Variables a b : list string.

(** [a[i]] and [b[j]], used at indexes inside the sequences only. *)
Definition a_at (i : nat) : string := nth i a EmptyString.
Definition b_at (j : nat) : string := nth j b EmptyString.

Definition b2j : b2j_t := chain_b b.

(** A match [(i, j, k)]: [a[i:i+k] == b[j:j+k]]. *)
Definition Match : Type := (nat * nat * nat)%type.

(** [j2lenget(j-1, 0)]: the key [-1] is never present. *)
Definition j2len_prev (j2len : list (nat * nat)) (j : nat) : nat :=
  match j with
  | O => O
  | S j' => match dict_get j2len j' with Some k => k | None => O end
  end.

(** The inner loop of [find_longest_match] over [b2j.get(a[i], nothing)],
    with its [continue] and [break].  [i-k+1] and [j-k+1] are written
    [i+1-k] and [j+1-k]: on natural numbers the subtraction comes last. *)
Fixpoint flm_inner (blo bhi i : nat) (j2len : list (nat * nat))
         (js : list nat) (newj2len : list (nat * nat)) (best : Match)
  : list (nat * nat) * Match :=
  match js with
  | [] => (newj2len, best)
  | j :: js' =>
      if (j <? blo)%nat then flm_inner blo bhi i j2len js' newj2len best
      else if (bhi <=? j)%nat then (newj2len, best)
      else
        let k := (j2len_prev j2len j + 1)%nat in
        let newj2len' := (j, k) :: newj2len in
        let '(besti, bestj, bestsize) := best in
        let best' :=
          if (bestsize <? k)%nat then ((i + 1 - k)%nat, (j + 1 - k)%nat, k)
          else best in
        flm_inner blo bhi i j2len js' newj2len' best'
  end.

(** One iteration of the outer loop, [for i in range(alo, ahi)]. *)
Definition flm_outer (blo bhi : nat) (st : list (nat * nat) * Match) (i : nat)
  : list (nat * nat) * Match :=
  let '(j2len, best) := st in
  flm_inner blo bhi i j2len (b2j_get b2j (a_at i)) [] best.

(** The loops that extend the match towards lower indexes; [junk] tells
    which of the two it is: the first extends over elements that are not
    junk, the second over junk. *)
Fixpoint extend_down (junk : bool) (alo blo besti bestj bestsize : nat) : Match :=
  match besti with
  | O => (besti, bestj, bestsize)
  | S besti' =>
      if (alo <? besti)%nat && (blo <? bestj)%nat
         && Bool.eqb (isbjunk (b_at (bestj - 1))) junk
         && String.eqb (a_at besti') (b_at (bestj - 1))
      then extend_down junk alo blo besti' (bestj - 1)%nat (bestsize + 1)%nat
      else (besti, bestj, bestsize)
  end.

(** The loops that extend the match towards higher indexes; [fuel] bounds
    the number of turns, [ahi - (besti + bestsize)] is enough. *)
Fixpoint extend_up (fuel : nat) (junk : bool) (ahi bhi besti bestj bestsize : nat)
  : Match :=
  match fuel with
  | O => (besti, bestj, bestsize)
  | S fuel' =>
      if (besti + bestsize <? ahi)%nat && (bestj + bestsize <? bhi)%nat
         && Bool.eqb (isbjunk (b_at (bestj + bestsize))) junk
         && String.eqb (a_at (besti + bestsize)) (b_at (bestj + bestsize))
      then extend_up fuel' junk ahi bhi besti bestj (bestsize + 1)%nat
      else (besti, bestj, bestsize)
  end.

(** [find_longest_match(alo, ahi, blo, bhi)] *)
Definition find_longest_match (alo ahi blo bhi : nat) : Match :=
  let '(_, best) :=
    fold_left (flm_outer blo bhi) (seq alo (ahi - alo)) ([], (alo, blo, O)) in
  let '(besti, bestj, bestsize) := best in
  let '(besti, bestj, bestsize) := extend_down false alo blo besti bestj bestsize in
  let '(besti, bestj, bestsize) :=
    extend_up (ahi - (besti + bestsize)) false ahi bhi besti bestj bestsize in
  let '(besti, bestj, bestsize) := extend_down true alo blo besti bestj bestsize in
  extend_up (ahi - (besti + bestsize)) true ahi bhi besti bestj bestsize.

(** The [while queue:] loop of [get_matching_blocks].  [queue] holds the
    Python list last element first, so that [queue.pop()] takes the head
    and [queue.append] conses.  [None]: out of fuel. *)
Fixpoint mb_loop (fuel : nat) (queue : list (nat * nat * nat * nat))
         (matching_blocks : list Match) : option (list Match) :=
  match fuel with
  | O => None
  | S fuel' =>
      match queue with
      | [] => Some matching_blocks
      | (alo, ahi, blo, bhi) :: queue =>
          let '(i, j, k) := find_longest_match alo ahi blo bhi in
          if (k =? 0)%nat then mb_loop fuel' queue matching_blocks
          else
            let queue :=
              if (alo <? i)%nat && (blo <? j)%nat
              then (alo, i, blo, j) :: queue else queue in
            let queue :=
              if (i + k <? ahi)%nat && (j + k <? bhi)%nat
              then ((i + k)%nat, ahi, (j + k)%nat, bhi) :: queue else queue in
            mb_loop fuel' queue (matching_blocks ++ [(i, j, k)])%list
      end
  end.

(** [list.sort()] on tuples of integers: the lexicographic order. *)
Definition match_leb (x y : Match) : bool :=
  let '(i1, j1, k1) := x in
  let '(i2, j2, k2) := y in
  (i1 <? i2)%nat
  || ((i1 =? i2)%nat && ((j1 <? j2)%nat || ((j1 =? j2)%nat && (k1 <=? k2)%nat))).

Fixpoint sort_insert (x : Match) (l : list Match) : list Match :=
  match l with
  | [] => [x]
  | y :: l' => if match_leb x y then x :: l else y :: sort_insert x l'
  end.

(** The sorted list; any sorting algorithm returns this list. *)
Definition sorted (l : list Match) : list Match :=
  fold_right sort_insert [] l.

(** The loop that collapses adjacent blocks: [(i1, j1, k1)] and
    [non_adjacent] after each [(i2, j2, k2)]. *)
Definition collapse_step (st : Match * list Match) (x : Match)
  : Match * list Match :=
  let '((i1, j1, k1), non_adjacent) := st in
  let '(i2, j2, k2) := x in
  if (i1 + k1 =? i2)%nat && (j1 + k1 =? j2)%nat
  then ((i1, j1, (k1 + k2)%nat), non_adjacent)
  else ((i2, j2, k2),
        if (k1 =? 0)%nat then non_adjacent
        else (non_adjacent ++ [(i1, j1, k1)])%list).

Definition collapse (matching_blocks : list Match) : list Match :=
  let '((i1, j1, k1), non_adjacent) :=
    fold_left collapse_step matching_blocks ((O, O, O), []) in
  if (k1 =? 0)%nat then non_adjacent
  else (non_adjacent ++ [(i1, j1, k1)])%list.

(** [get_matching_blocks()].  The fuel is enough for the loop to end
    (lemma [mb_loop_terminates]); the empty list stands for the case that
    cannot occur. *)
Definition get_matching_blocks : list Match :=
  let la := List.length a in
  let lb := List.length b in
  match mb_loop (2 * la + 2) [(O, la, O, lb)] [] with
  | Some matching_blocks =>
      (collapse (sorted matching_blocks) ++ [(la, lb, O)])%list
  | None => []
  end.

Inductive tag : Type := Replace | Delete | Insert | Equal.

Definition tag_eqb (t u : tag) : bool :=
  match t, u with
  | Replace, Replace | Delete, Delete | Insert, Insert | Equal, Equal => true
  | _, _ => false
  end.

(** An opcode [(tag, i1, i2, j1, j2)]. *)
Definition opcode : Type := (tag * nat * nat * nat * nat)%type.

Definition opcodes_step (st : nat * nat * list opcode) (m : Match)
  : nat * nat * list opcode :=
  let '(i, j, answer) := st in
  let '(ai, bj, size) := m in
  let tag :=
    if (i <? ai)%nat && (j <? bj)%nat then Some Replace
    else if (i <? ai)%nat then Some Delete
    else if (j <? bj)%nat then Some Insert
    else None in
  let answer :=
    match tag with
    | Some t => (answer ++ [(t, i, ai, j, bj)])%list
    | None => answer
    end in
  let i := (ai + size)%nat in
  let j := (bj + size)%nat in
  let answer :=
    if (size =? 0)%nat then answer
    else (answer ++ [(Equal, ai, i, bj, j)])%list in
  (i, j, answer).

(** [get_opcodes()] *)
Definition get_opcodes : list opcode :=
  let '(_, _, answer) := fold_left opcodes_step get_matching_blocks (O, O, []) in
  answer.

(** [codes[0] = f(codes[0])] and [codes[-1] = f(codes[-1])] *)
Definition update_first {A : Type} (f : A -> A) (l : list A) : list A :=
  match l with
  | [] => []
  | x :: l' => f x :: l'
  end.

Fixpoint update_last {A : Type} (f : A -> A) (l : list A) : list A :=
  match l with
  | [] => []
  | [x] => [f x]
  | x :: l' => x :: update_last f l'
  end.

Definition fix_leading (n : nat) (c : opcode) : opcode :=
  let '(t, i1, i2, j1, j2) := c in
  if tag_eqb t Equal then (t, Nat.max i1 (i2 - n), i2, Nat.max j1 (j2 - n), j2)
  else c.

Definition fix_trailing (n : nat) (c : opcode) : opcode :=
  let '(t, i1, i2, j1, j2) := c in
  if tag_eqb t Equal then (t, i1, Nat.min i2 (i1 + n), j1, Nat.min j2 (j1 + n))
  else c.

(** The body of the grouping loop: the current [group] and the groups
    yielded so far. *)
Definition group_step (n : nat) (st : list opcode * list (list opcode)) (c : opcode)
  : list opcode * list (list opcode) :=
  let '(group, yielded) := st in
  let '(t, i1, i2, j1, j2) := c in
  if tag_eqb t Equal && (n + n <? i2 - i1)%nat then
    let group := (group ++ [(t, i1, Nat.min i2 (i1 + n), j1, Nat.min j2 (j1 + n))])%list in
    ([(t, Nat.max i1 (i2 - n), i2, Nat.max j1 (j2 - n), j2)],
     (yielded ++ [group])%list)
  else ((group ++ [c])%list, yielded).

Definition is_single_equal (group : list opcode) : bool :=
  match group with
  | [(t, _, _, _, _)] => tag_eqb t Equal
  | _ => false
  end.

(** [get_grouped_opcodes(n)], the groups in the order they are yielded. *)
Definition get_grouped_opcodes (n : nat) : list (list opcode) :=
  let codes := get_opcodes in
  let codes :=
    match codes with
    | [] => [(Equal, 0, 1, 0, 1)%nat]
    | _ => codes
    end in
  let codes := update_first (fix_leading n) codes in
  let codes := update_last (fix_trailing n) codes in
  let '(group, yielded) := fold_left (group_step n) codes ([], []) in
  match group with
  | [] => yielded
  | _ => if is_single_equal group then yielded else (yielded ++ [group])%list
  end.

(** [a[i1:i2]] for [i1 <= i2] *)
Definition slice {A : Type} (l : list A) (i1 i2 : nat) : list A :=
  firstn (i2 - i1) (skipn i1 l).

(** The lines that [unified_diff] yields for one opcode. *)
Definition opcode_lines (c : opcode) : list string :=
  let '(t, i1, i2, j1, j2) := c in
  match t with
  | Equal => map (String.append " ") (slice a i1 i2)
  | Replace =>
      (map (String.append "-") (slice a i1 i2)
       ++ map (String.append "+") (slice b j1 j2))%list
  | Delete => map (String.append "-") (slice a i1 i2)
  | Insert => map (String.append "+") (slice b j1 j2)
  end.

End Matcher.

(** ['{}'.format(n)] for an integer [n >= 0] *)
Definition str_of_nat (n : nat) : string :=
  DecimalString.NilEmpty.string_of_uint (Nat.to_uint n).

(** [_format_range_unified(start, stop)] *)
Definition format_range_unified (start stop : nat) : string :=
  let beginning := (start + 1)%nat in
  let length := (stop - start)%nat in
  if (length =? 1)%nat then str_of_nat beginning
  else
    let beginning := if (length =? 0)%nat then (beginning - 1)%nat else beginning in
    str_of_nat beginning ++ "," ++ str_of_nat length.

Definition group_first (group : list opcode) : opcode :=
  hd (Equal, O, O, O, O) group.
Definition group_last (group : list opcode) : opcode :=
  last group (Equal, O, O, O, O).

(** The range line of a group and the lines of its opcodes. *)
Definition hunk_lines (a b : list string) (lineterm : string) (group : list opcode)
  : list string :=
  let '(_, f1, _, f3, _) := group_first group in
  let '(_, _, l2, _, l4) := group_last group in
  let file1_range := format_range_unified f1 l2 in
  let file2_range := format_range_unified f3 l4 in
  ("@@ -" ++ file1_range ++ " +" ++ file2_range ++ " @@" ++ lineterm)
    :: flat_map (opcode_lines a b) group.

(** [unified_diff(a, b, fromfile, tofile, n=n)] with the default
    [fromfiledate], [tofiledate] (empty) and [lineterm] (a line feed):
    all the lines the generator yields. *)
Definition unified_diff (a b : list string) (fromfile tofile : string) (n : nat)
  : list string :=
  let lineterm := nl in
  match get_grouped_opcodes a b n with
  | [] => []
  | groups =>
      ("--- " ++ fromfile ++ lineterm)
        :: ("+++ " ++ tofile ++ lineterm)
        :: flat_map (hunk_lines a b lineterm) groups
  end.

End Difflib.

(** ** [json.dump] of the patch record *)

Module Json.
Import PyStr.

Definition BS : ascii := "092"%char.

Definition hex_digit (n : nat) : ascii :=
  nth n (list_ascii_of_string "0123456789abcdef") "0"%char.

(** ["\\u{0:04x}".format(n)] for [n < 256] *)
Definition u_escape (n : nat) : string :=
  String BS ("u00" ++ String (hex_digit (n / 16)) (String (hex_digit (n mod 16)) "")).

(** The replacement of one character by [py_encode_basestring_ascii]
    (the default [ensure_ascii=True]): printable ASCII stays, the double
    quote, the backslash and the usual control characters get their short
    escape, everything else a [\u] escape. *)
Definition escape_char (c : ascii) : string :=
  let n := nat_of_ascii c in
  if Ascii.eqb c DQ then String BS (String DQ "")
  else if Ascii.eqb c BS then String BS (String BS "")
  else if (n =? 8)%nat then String BS "b"
  else if (n =? 12)%nat then String BS "f"
  else if (n =? 10)%nat then String BS "n"
  else if (n =? 13)%nat then String BS "r"
  else if (n =? 9)%nat then String BS "t"
  else if ((32 <=? n) && (n <=? 126))%nat then String c ""
  else u_escape n.

Fixpoint escape (s : string) : string :=
  match s with
  | EmptyString => EmptyString
  | String c r => escape_char c ++ escape r
  end.

Definition dumps_str (s : string) : string :=
  String DQ (escape s ++ String DQ "").

(** [json.dumps] of the dictionary built by [save_patch_to_jsonl]. *)
Definition dumps_patch_data (instance_id model_name patch_content : string) : string :=
  "{" ++ dumps_str "instance_id" ++ ": " ++ dumps_str instance_id ++ ", "
      ++ dumps_str "model_name_or_path" ++ ": " ++ dumps_str model_name ++ ", "
      ++ dumps_str "model_patch" ++ ": " ++ dumps_str patch_content ++ "}".

End Json.

(** ** The functions on files and the driver *)

Module Pipeline.
Import PyStr Py Py.Notations.

(** [remove_docstrings_from_patch], lines 192-264.  The first [try] ends
    with the lines read, or with [None] where the code returns [False]. *)
Definition remove_docstrings_from_patch (patch_file_path : string) : M bool :=
  r <- try_except
         (lines <- read_lines patch_file_path ;; ret (Some lines))
         is_FileNotFoundError
         (fun _ =>
            print ("Error: Patch file " ++ patch_file_path
                   ++ " not found for docstring removal.") ;;;
            ret None) ;;
  match r with
  | None => ret false
  | Some lines =>
      let modified_lines := Stripper.strip_lines lines in
      try_except
        (write_lines patch_file_path modified_lines ;;;
         print ("Docstrings removed from " ++ patch_file_path) ;;;
         ret true)
        is_Exception
        (fun e =>
           print ("Error writing modified patch file " ++ patch_file_path
                  ++ ": " ++ str_of_exn e) ;;;
           ret false)
  end.

(** [save_patch_to_jsonl], lines 267-290 *)
Definition save_patch_to_jsonl
           (patch_file_path instance_id model_name output_jsonl_file : string)
  : M unit :=
  r <- try_except
         (patch_content <- read_text patch_file_path ;; ret (Some patch_content))
         is_FileNotFoundError
         (fun _ =>
            print ("Error: Patch file " ++ patch_file_path
                   ++ " not found for JSONL conversion.") ;;;
            ret None) ;;
  match r with
  | None => ret tt
  | Some patch_content =>
      try_except
        (write_text output_jsonl_file
           (Json.dumps_patch_data instance_id model_name patch_content ++ nl) ;;;
         print ("Patch data saved to " ++ output_jsonl_file))
        is_Exception
        (fun e =>
           print ("Error writing to JSONL file " ++ output_jsonl_file
                  ++ ": " ++ str_of_exn e))
  end.

(** [generate_diff_patch], lines 448-467 *)
Definition generate_diff_patch (original_file fixed_file patch_file : string)
  : M unit :=
  original_lines <- read_lines original_file ;;
  fixed_lines <- read_lines fixed_file ;;
  let diff :=
    Difflib.unified_diff original_lines fixed_lines original_file fixed_file 3 in
  write_lines patch_file diff.

(** [response.split(sep, 1)[1]]: the text after the first [sep], if any. *)
Fixpoint after_first (sep s : string) : option string :=
  if String.prefix sep s then Some (drop (String.length sep) s)
  else match s with
       | EmptyString => None
       | String _ r => after_first sep r
       end.

(** [extract_code_generator_output], lines 144-151; the index [1] of a
    split that found no separator raises [IndexError]. *)
Fixpoint extract_code_generator_output (responses : list string) : M string :=
  match responses with
  | [] => ret ""
  | response :: rest =>
      if contains "[code_generator_agent]:" response then
        match after_first "[code_generator_agent]: " response with
        | Some tail => ret (strip tail)
        | None => raise (OtherException "list index out of range")
        end
      else extract_code_generator_output rest
  end.

Definition results_dir : string := "results".
Definition output_py_path : string := "results/output.py".
Definition patch_diff_path : string := "results/patch.diff".
Definition output_jsonl_path : string := "results/generated.jsonl".
Definition debug_file : string := "results/debug_responses.txt".

Fixpoint repeat_string (s : string) (n : nat) : string :=
  match n with
  | O => EmptyString
  | S n' => s ++ repeat_string s n'
  end.

(** What [encoding="ascii", errors="replace"] writes for a text. *)
Fixpoint ascii_replace (s : string) : string :=
  match s with
  | EmptyString => EmptyString
  | String c r =>
      String (if (nat_of_ascii c <? 128)%nat then c else "?"%char) (ascii_replace r)
  end.

(** Two files for the examples: an original of one line without a line
    feed at its end, and a fixed file of one line. *)
Definition one_line_files : string -> option string :=
  fun p => if String.eqb p "widgets.py" then Some "a"
           else if String.eqb p "results/output.py" then Some ("b" ++ nl)
                else None.

(** Two files for the examples: an original and a fixed file of two
    lines each. *)
Definition two_line_files : string -> option string :=
  fun p => if String.eqb p "widgets.py"
           then Some ("def f():" ++ nl ++ "    return 1" ++ nl)
           else if String.eqb p "results/output.py"
                then Some ("def f():" ++ nl ++ "    return 2" ++ nl)
                else None.

(** The last block of [main], lines 427-445: diff, strip, rewrite, package. *)
Definition make_patch (instance_id : option string) (original_file_path : string)
  : M unit :=
  try_except
    (generate_diff_patch original_file_path output_py_path patch_diff_path ;;;
     stripped <- remove_docstrings_from_patch patch_diff_path ;;
     (if stripped then
        modified <- Header.modify_patch_file patch_diff_path ;;
        if modified then
          let instance_id :=
            match instance_id with Some i => i | None => "unknown_instance" end in
          let model_name := "gemini-2.5-pro" in
          save_patch_to_jsonl patch_diff_path instance_id model_name output_jsonl_path
        else
          print "Skipping JSONL saving due to an error in patch file modification."
      else
        print "Skipping JSONL saving due to an error in docstring removal.") ;;;
     print ("Diff patch has been saved to " ++ patch_diff_path))
    is_Exception
    (fun e => print ("Error generating diff patch: " ++ str_of_exn e)).

(** [main] from line 392 on, once the agent has answered with [responses];
    [instance_id] is [data.get("instance_id")]. *)
Definition main_after_agent (instance_id : option string)
           (original_file_path : string) (responses : list string) : M unit :=
  code_generator_output <- extract_code_generator_output responses ;;
  code_block <- Extractor.extract_code_from_output code_generator_output ;;
  if negb (truthy code_block) then
    print "Error: Could not extract code from code_generator_agent's output" ;;;
    write_text debug_file
      (join (map (fun response =>
                    response ++ nl ++ nl ++ repeat_string "=" 80 ++ nl ++ nl)
                 responses)) ;;;
    print ("Saved raw responses to " ++ debug_file ++ " for debugging") ;;;
    raise (SystemExit 1)
  else
    let cleaned_code := Extractor.clean_code_output code_block in
    try_except
      (write_text output_py_path cleaned_code ;;;
       print ("Output has been saved to " ++ output_py_path))
      is_Exception
      (fun e =>
         print ("Error writing to " ++ output_py_path ++ ": " ++ str_of_exn e) ;;;
         try_except
           (write_text output_py_path (ascii_replace cleaned_code) ;;;
            print ("Output has been saved to " ++ output_py_path
                   ++ " (with some characters replaced)"))
           is_Exception
           (fun e2 =>
              print ("Failed to write output file: " ++ str_of_exn e2) ;;;
              raise (SystemExit 1))) ;;;
    make_patch instance_id original_file_path.

(** The end-to-end scenario of the specification: the original file, and
    an answer of the generator with a fenced block. *)
Definition scenario_files : string -> option string :=
  fun p => if String.eqb p "widgets.py"
           then Some ("def f():" ++ nl ++ "    return 1" ++ nl)
           else None.

Definition scenario_responses : list string :=
  [ "[code_analyser_agent]: The function returns the wrong value.";
    "[code_generator_agent]: Here is the corrected code:" ++ nl
    ++ "```python" ++ nl
    ++ "def f():" ++ nl
    ++ "    " ++ Stripper.TDQ ++ "doc" ++ Stripper.TDQ ++ nl
    ++ "    return 2" ++ nl
    ++ "```" ++ nl ].

End Pipeline.

(** ** Applying a unified diff *)

Module Patch.
Import PyStr.

Definition is_digit (c : ascii) : bool :=
  let n := nat_of_ascii c in ((48 <=? n) && (n <=? 57))%nat.

Fixpoint parse_digits (s : string) (acc : nat) : nat * string :=
  match s with
  | EmptyString => (acc, EmptyString)
  | String c r =>
      if is_digit c then parse_digits r (10 * acc + (nat_of_ascii c - 48))%nat
      else (acc, s)
  end.

(** [s] does not go on with a digit. *)
Definition no_digit_head (s : string) : Prop :=
  match s with
  | EmptyString => True
  | String c _ => is_digit c = false
  end.

(** A decimal number at the start of [s], and the text after it. *)
Definition parse_nat (s : string) : option (nat * string) :=
  match s with
  | EmptyString => None
  | String c _ => if is_digit c then Some (parse_digits s 0) else None
  end.

(** The index in the old file at which the hunk of a range line
    [@@ -start,length +... @@] begins, counted from 0: [start - 1], or
    [start] for an empty range; a range without a length has length 1. *)
Definition parse_hunk_start (line : string) : option nat :=
  if String.prefix "@@ -" line then
    match parse_nat (drop 4 line) with
    | Some (start, String "," r) =>
        match parse_nat r with
        | Some (O, _) => Some start
        | Some (S _, _) => Some (start - 1)%nat
        | None => None
        end
    | Some (start, _) => Some (start - 1)%nat
    | None => None
    end
  else None.

(** The hunks [diff] applied to the lines [orig] that remain of the old
    file, of which [pos] lines are already behind: a range line copies the
    old lines up to the start of its hunk, a line with a space copies one
    old line, a line with [-] skips one, a line with [+] adds its text; the
    old lines copied or skipped have to be the ones the diff shows.  At the
    end the remaining old lines are copied.  [None]: the diff does not
    apply. *)
Fixpoint apply_hunks (orig : list string) (pos : nat) (diff : list string)
  : option (list string) :=
  match diff with
  | [] => Some orig
  | EmptyString :: _ => None
  | String c text :: diff' =>
      if Ascii.eqb c " " then
        match orig with
        | l :: orig' =>
            if String.eqb l text
            then option_map (cons l) (apply_hunks orig' (S pos) diff')
            else None
        | [] => None
        end
      else if Ascii.eqb c "-" then
        match orig with
        | l :: orig' =>
            if String.eqb l text then apply_hunks orig' (S pos) diff' else None
        | [] => None
        end
      else if Ascii.eqb c "+" then
        option_map (cons text) (apply_hunks orig pos diff')
      else if Ascii.eqb c "@" then
        match parse_hunk_start (String c text) with
        | Some target =>
            if ((pos <=? target) && (target - pos <=? List.length orig))%nat
            then option_map (List.app (firstn (target - pos) orig))
                            (apply_hunks (skipn (target - pos) orig) target diff')
            else None
        | None => None
        end
      else None
  end.

(** Modelled from the spec: the specification's round trip speaks of
    applying the synthesized diff to the original line sequence, and the
    repository has no function that applies a diff.  This is the usual
    reading of a unified diff of one file: two header lines, then hunks; an
    empty diff changes nothing. *)
Definition apply_patch (orig : list string) (diff : list string)
  : option (list string) :=
  match diff with
  | [] => Some orig
  | h1 :: h2 :: hunks =>
      if startswith h1 "--- " && startswith h2 "+++ "
      then apply_hunks orig 0 hunks
      else None
  | _ => None
  end.

End Patch.

(** ** Predicates used in the statements *)

Module Shape.
Import PyStr.

(** [c in s] for a character [c] *)
Fixpoint has_char (c : ascii) (s : string) : bool :=
  match s with
  | EmptyString => false
  | String d r => Ascii.eqb d c || has_char c r
  end.

(** A complete line ends with its only line feed; a partial line is not
    empty and has none. *)
Definition complete_line (l : string) : Prop :=
  exists body, l = body ++ nl /\ has_char LF body = false.

Definition partial_line (l : string) : Prop :=
  l <> EmptyString /\ has_char LF l = false.

(** The shape of what [readlines] returns: complete lines, the last one
    possibly partial. *)
Fixpoint lines_ok (ls : list string) : Prop :=
  match ls with
  | [] => True
  | l :: ls' => (complete_line l \/ (partial_line l /\ ls' = [])) /\ lines_ok ls'
  end.

(** [p] occurs in [s] at an index below [n]. *)
Fixpoint occurs_before (p s : string) (n : nat) : bool :=
  match n with
  | O => false
  | S n' =>
      String.prefix p s
      || match s with
         | EmptyString => false
         | String _ r => occurs_before p r n'
         end
  end.

(** Every character of [s] is white space. *)
Fixpoint all_space (s : string) : bool :=
  match s with
  | EmptyString => true
  | String c r => isspace c && all_space r
  end.

(** [t] is [s] less one leading [marker] and all the white space after it;
    when [s] does not begin with [marker], [t] is [s]. *)
Definition cut_front (marker s t : string) : Prop :=
  (exists ws, s = marker ++ ws ++ t /\ all_space ws = true /\ lstrip t = t)
  \/ (startswith s marker = false /\ t = s).

(** [t] is [s] less one trailing [marker] and all the white space before
    it; when [s] does not end with [marker], [t] is [s]. *)
Definition cut_back (marker s t : string) : Prop :=
  (exists ws, s = t ++ ws ++ marker /\ all_space ws = true /\ rstrip t = t)
  \/ (endswith s marker = false /\ t = s).

(** [ks] is [ls] with some elements left out. *)
Inductive subseq {A : Type} : list A -> list A -> Prop :=
| subseq_nil : subseq [] []
| subseq_skip x ks ls : subseq ks ls -> subseq ks (x :: ls)
| subseq_keep x ks ls : subseq ks ls -> subseq (x :: ks) (x :: ls).

End Shape.

(** ** Predicates on matches, blocks and opcodes *)

Module DiffShape.
Import PyStr Difflib.

Section Shape.
Variables a b : list string.

(** Every index stored in [b2j] under a key is an index of that key in [b]. *)
Definition b2j_ok (m : b2j_t) : Prop :=
  Forall (fun kv =>
            Forall (fun j => j < List.length b /\ nth j b EmptyString = fst kv) (snd kv))
         m.

(** [(i, j, k)] is a match inside [a[alo:ahi]] and [b[blo:bhi]]. *)
Definition valid_match (alo ahi blo bhi : nat) (m : Match) : Prop :=
  let '(i, j, k) := m in
  alo <= i /\ i + k <= ahi /\ blo <= j /\ j + k <= bhi
  /\ forall t, t < k -> a_at a (i + t) = b_at b (j + t).

(** Every entry [j -> k] of [j2len] is a match of length [k] that ends
    before [a[i]] and with [b[j]], inside the rectangle. *)
Definition j2len_ok (alo ahi blo bhi i : nat) (d : list (nat * nat)) : Prop :=
  forall j k, dict_get d j = Some k ->
    1 <= k /\ alo + k <= i /\ blo + k <= j + 1 /\ i <= ahi /\ j < bhi
    /\ forall t, t < k -> a_at a (i - k + t) = b_at b (j + 1 - k + t).

(** A rectangle [(alo, ahi, blo, bhi)] of the two sequences. *)
Definition rect : Type := (nat * nat * nat * nat)%type.

Definition rect_of_block (m : Match) : rect :=
  let '(i, j, k) := m in (i, i + k, j, j + k).

Definition rect_ok (r : rect) : Prop :=
  let '(alo, ahi, blo, bhi) := r in
  alo <= ahi /\ ahi <= List.length a /\ blo <= bhi /\ bhi <= List.length b.

(** [x] lies below and to the left of [y]. *)
Definition before (x y : rect) : Prop :=
  let '(_, xhi, _, yhi) := x in
  let '(xlo, _, ylo, _) := y in
  xhi <= xlo /\ yhi <= ylo.

Definition apart (x y : rect) : Prop := before x y \/ before y x.

Definition inside (r x : rect) : Prop :=
  let '(alo, ahi, blo, bhi) := r in
  let '(xlo, xhi, ylo, yhi) := x in
  alo <= xlo /\ xhi <= ahi /\ blo <= ylo /\ yhi <= bhi.

(** A block of equal elements, possibly empty. *)
Definition block_ok0 (m : Match) : Prop :=
  let '(i, j, k) := m in
  i + k <= List.length a /\ j + k <= List.length b
  /\ forall t, t < k -> a_at a (i + t) = b_at b (j + t).

(** A block of at least one element. *)
Definition block_ok (m : Match) : Prop :=
  1 <= snd m /\ block_ok0 m.

(** The work left in the queue of [get_matching_blocks]. *)
Definition queue_measure (queue : list rect) : nat :=
  fold_right (fun r acc => let '(alo, ahi, _, _) := r in 2 * (ahi - alo) + 1 + acc)
             0 queue.

(** [x] ends before [y] begins, in both sequences. *)
Definition block_before (x y : Match) : Prop :=
  let '(i1, j1, k1) := x in
  let '(i2, j2, _) := y in
  i1 + k1 <= i2 /\ j1 + k1 <= j2.

Definition first_le (x y : Match) : Prop := fst (fst x) <= fst (fst y).

(** [a[i1:i2]] and [b[j1:j2]] are inside the sequences, of the same length,
    with the same elements. *)
Definition same_range (i1 i2 j1 j2 : nat) : Prop :=
  i1 <= i2 /\ i2 <= List.length a /\ j1 <= j2 /\ j2 <= List.length b
  /\ i2 - i1 = j2 - j1
  /\ forall t, t < i2 - i1 -> a_at a (i1 + t) = b_at b (j1 + t).

(** An opcode says the truth about the two sequences. *)
Definition op_ok (c : opcode) : Prop :=
  let '(t, i1, i2, j1, j2) := c in
  i1 <= i2 /\ i2 <= List.length a /\ j1 <= j2 /\ j2 <= List.length b
  /\ match t with
     | Equal => same_range i1 i2 j1 j2
     | Delete => j1 = j2
     | Insert => i1 = i2
     | Replace => True
     end.

(** The opcodes lead from [(i, j)] to [(i', j')] without a gap. *)
Fixpoint covers (i j : nat) (ops : list opcode) (i' j' : nat) : Prop :=
  match ops with
  | [] => i = i' /\ j = j'
  | c :: r =>
      let '(t, i1, i2, j1, j2) := c in
      i1 = i /\ j1 = j /\ op_ok c /\ covers i2 j2 r i' j'
  end.

(** From [(i, j)] on, the groups are hunks with equal lines between them,
    and [P] holds where the last one ends. *)
Fixpoint hunks_then (P : nat -> nat -> Prop) (i j : nat)
         (groups : list (list opcode)) : Prop :=
  match groups with
  | [] => P i j
  | g :: gs =>
      exists gi gj ge gje,
        g <> [] /\ same_range i gi j gj /\ covers gi gj g ge gje
        /\ hunks_then P ge gje gs
  end.

(** What the grouping loop has done when it stands at [(ci, cj)]: the
    groups yielded are hunks, equal lines follow, then the current group. *)
Definition group_inv (group : list opcode) (yielded : list (list opcode))
           (ci cj : nat) : Prop :=
  hunks_then (fun yi yj => exists gi gj,
                  same_range yi gi yj gj /\ covers gi gj group ci cj)
             0 0 yielded.

(** The groups are the hunks of a diff from [a] to [b]. *)
Definition hunks_ok (groups : list (list opcode)) : Prop :=
  hunks_then (fun i j => same_range i (List.length a) j (List.length b)) 0 0 groups.

End Shape.

Definition tag_of (c : opcode) : tag := fst (fst (fst (fst c))).

(** After an opcode that is not [Equal] comes an [Equal] opcode. *)
Fixpoint alternate (tags : list tag) : Prop :=
  match tags with
  | [] => True
  | t :: r =>
      (tag_eqb t Equal = false ->
       match r with [] => True | t' :: _ => t' = Equal end)
      /\ alternate r
  end.

(** An [Equal] opcode is not empty. *)
Definition equal_strict (c : opcode) : Prop :=
  let '(t, i1, i2, _, _) := c in t = Equal -> i1 < i2.

Definition tidy (ops : list opcode) : Prop :=
  alternate (map tag_of ops) /\ Forall equal_strict ops.

Definition starts_equal (ops : list opcode) : Prop :=
  match ops with
  | [] => False
  | c :: _ => tag_of c = Equal
  end.

(** Every group is tidy, and every group but the first starts with an
    [Equal] opcode. *)
Fixpoint groups_tidy (first : bool) (groups : list (list opcode)) : Prop :=
  match groups with
  | [] => True
  | g :: gs =>
      tidy g /\ (first = false -> starts_equal g) /\ groups_tidy false gs
  end.

(** [R] holds from every element to every later one. *)
Fixpoint pairwise {A : Type} (R : A -> A -> Prop) (l : list A) : Prop :=
  match l with
  | [] => True
  | x :: l' => Forall (R x) l' /\ pairwise R l'
  end.

End DiffShape.

(** ** Character classes and the reading of escaped characters *)

Module Charset.
Import PyStr.

(** The printable ASCII characters, space to tilde. *)
Definition printable (c : ascii) : bool :=
  let n := nat_of_ascii c in ((32 <=? n) && (n <=? 126))%nat.

(** Every character of [s] satisfies [P]. *)
Fixpoint all_chars (P : ascii -> bool) (s : string) : bool :=
  match s with
  | EmptyString => true
  | String c r => P c && all_chars P r
  end.

Definition hex_value (c : ascii) : option nat :=
  let n := nat_of_ascii c in
  if ((48 <=? n) && (n <=? 57))%nat then Some (n - 48)
  else if ((97 <=? n) && (n <=? 102))%nat then Some (n - 87)
  else None.

(** The character that stands first in a JSON string body, and the rest:
    the inverse reading of [Json.escape_char].  A bare double quote ends
    the body and gives [None].  It serves to show that the escaping loses
    nothing. *)
Definition unescape_head (s : string) : option (ascii * string) :=
  match s with
  | EmptyString => None
  | String c r =>
      if Ascii.eqb c DQ then None
      else if Ascii.eqb c Json.BS then
        match r with
        | String e r' =>
            if Ascii.eqb e DQ then Some (DQ, r')
            else if Ascii.eqb e Json.BS then Some (Json.BS, r')
            else if Ascii.eqb e "b" then Some (ascii_of_nat 8, r')
            else if Ascii.eqb e "f" then Some (ascii_of_nat 12, r')
            else if Ascii.eqb e "n" then Some (ascii_of_nat 10, r')
            else if Ascii.eqb e "r" then Some (ascii_of_nat 13, r')
            else if Ascii.eqb e "t" then Some (ascii_of_nat 9, r')
            else if Ascii.eqb e "u" then
              match r' with
              | String _ (String _ (String h (String l r''))) =>
                  match hex_value h, hex_value l with
                  | Some x, Some y => Some (ascii_of_nat (16 * x + y), r'')
                  | _, _ => None
                  end
              | _ => None
              end
            else None
        | EmptyString => None
        end
      else Some (c, r)
  end.

End Charset.

(** ** Paths and splitting: [os.path] on POSIX, [str.split] *)

Module PyPath.
Import PyStr.

Definition SLASH : ascii := "/"%char.
Definition BACKSLASH : ascii := "092"%char.

(** [os.path.isabs(s)] *)
Definition isabs (s : string) : bool := startswith s "/".

(** [os.path.join(a, b)]: an absolute [b] replaces [a]; otherwise the two
    are put together with one separator between them. *)
Definition path_join (a b : string) : string :=
  if startswith b "/" then b
  else if negb (truthy a) || endswith a "/" then a ++ b
  else a ++ "/" ++ b.

(** [s.split(sep)] for a separator of one character *)
Fixpoint split_on (sep : ascii) (s : string) : list string :=
  match s with
  | EmptyString => [EmptyString]
  | String c r =>
      if Ascii.eqb c sep then EmptyString :: split_on sep r
      else match split_on sep r with
           | [] => [String c EmptyString]
           | h :: t => String c h :: t
           end
  end.

(** [os.path.exists(path)]; the world holds files only. *)
Definition path_exists (path : string) : Py.M bool :=
  fun w => (Py.Ret (match Py.files w path with Some _ => true | None => false end), w).

End PyPath.

(** ** The front of [main]: the file to fix and the input text *)

Module Main.
Import PyStr Py Py.Notations PyPath.

(** The path built in [save_original_file_path], lines 107-110. *)
Definition config_file : string :=
  path_join (path_join "bug_fixer_agent" "config") "original_file_path.txt".

(** [save_original_file_path], lines 105-114.  Directories are no part of
    the world: [os.makedirs(config_dir, exist_ok=True)] changes nothing
    here. *)
Definition save_original_file_path (file_path : string) : M unit :=
  write_text config_file file_path ;;;
  print ("Original file path saved to " ++ config_file).

(** [repo.split("/")[-1]], lines 64 and 350 *)
Definition repo_name_of (repo : string) : string :=
  last (split_on SLASH repo) EmptyString.

(** [main], lines 347-356: the path of the file to fix for a non-empty
    [--original_file]. *)
Definition resolve_original_file_path (repo repo_dir original_file_path : string)
  : string :=
  if isabs original_file_path then original_file_path
  else
    let repo_name := repo_name_of repo in
    let original_file_path :=
      if startswith original_file_path (repo_name ++ String BACKSLASH "")
         || startswith original_file_path (repo_name ++ "/")
      then drop (String.length repo_name + 1) original_file_path
      else original_file_path in
    path_join repo_dir original_file_path.

(** [main], lines 345-367: the file to fix; [original_file] is
    [args.original_file]. *)
Definition choose_original_file (repo repo_dir : string)
           (original_file : option string) : M string :=
  match original_file with
  | Some ((String _ _) as given) =>
      let original_file_path := resolve_original_file_path repo repo_dir given in
      found <- path_exists original_file_path ;;
      if negb found then
        print ("Error: Original file " ++ original_file_path ++ " does not exist") ;;;
        raise (SystemExit 1)
      else
        print ("Using original file: " ++ original_file_path) ;;;
        ret original_file_path
  | _ =>
      print "No original file specified. Using default file from bug_fixer_agent/qdp.py" ;;;
      ret "bug_fixer_agent/widgets.py"
  end.

(** [main], lines 371-388: the input text.  [input] and [input_file] are
    [args.input] and [args.input_file], [problem_statement] is what
    [data.json] holds under that key, if anything. *)
Definition select_input (input input_file : option string)
           (use_problem_statement : bool) (problem_statement : option string)
  : M string :=
  match input with
  | Some ((String _ _) as input_text) => ret input_text
  | _ =>
      match input_file with
      | Some ((String _ _) as path) =>
          try_except
            (read_text path)
            is_Exception
            (fun e =>
               print ("Error reading input file: " ++ str_of_exn e) ;;;
               raise (SystemExit 1))
      | _ =>
          if use_problem_statement then
            let input_text :=
              match problem_statement with Some t => t | None => "" end in
            if negb (truthy input_text) then
              print "Error: No problem_statement found in data.json" ;;;
              raise (SystemExit 1)
            else
              print "Using problem_statement from data.json as input" ;;;
              ret input_text
          else
            print "Error: No input provided" ;;;
            raise (SystemExit 1)
      end
  end.

End Main.

(** ** [clone_repository]: the commands it runs

    The commands run outside the program.  What they answer is given by the
    host: whether a path exists when the function starts, and the outcome
    of each command, in the order of the calls (none left: the command
    completes with an empty output).  Every command is logged with its
    outcome. *)

Module Git.
Import PyStr PyPath.

Inductive error : Type :=
| CalledProcessError          (* a command ended with a non-zero status *)
| OSError (msg : string).     (* any other failure to run it *)

Inductive outcome : Type :=
| Completed (output : string)
| Failed (e : error).

Inductive command : Type :=
| RevParseHead (dir : string)           (* git -C dir rev-parse HEAD *)
| Checkout (dir commit : string)        (* git -C dir checkout commit *)
| Clone (url dir : string)              (* git clone url dir *)
| Rmtree (dir : string).                (* shutil.rmtree(dir) *)

Record host : Type := Host {
  present : string -> bool;
  outcomes : list outcome;
  log : list (command * outcome);
  printed : list string
}.

Definition G (A : Type) : Type := host -> (A + error) * host.

Definition gret {A} (a : A) : G A := fun h => (inl a, h).

Definition gbind {A B} (m : G A) (k : A -> G B) : G B :=
  fun h => match m h with
           | (inl a, h') => k a h'
           | (inr e, h') => (inr e, h')
           end.

Definition gprint (s : string) : G unit :=
  fun h => (inl tt, Host (present h) (outcomes h) (log h) (printed h ++ [s])%list).

Definition exists_ (path : string) : G bool :=
  fun h => (inl (present h path), h).

(** One command: its outcome is the next one of the host. *)
Definition run (c : command) : G string :=
  fun h =>
    let o := hd (Completed "") (outcomes h) in
    let h' := Host (present h) (tl (outcomes h)) (log h ++ [(c, o)])%list (printed h) in
    match o with
    | Completed out => (inl out, h')
    | Failed e => (inr e, h')
    end.

(** [try: body  except subprocess.CalledProcessError: handler] *)
Definition try_called_process_error {A} (body : G A) (handler : G A) : G A :=
  fun h =>
    match body h with
    | (inr CalledProcessError, h') => handler h'
    | r => r
    end.

Local Notation "x <- m ;; k" := (gbind m (fun x => k))
  (at level 61, m at next level, right associativity).
Local Notation "m ;;; k" := (gbind m (fun _ => k))
  (at level 61, right associativity).

(** The last four statements, lines 95-102. *)
Definition fresh_clone (repo base_commit repo_dir : string) : G string :=
  gprint ("Cloning repository " ++ repo ++ " at commit " ++ base_commit
          ++ " to " ++ repo_dir) ;;;
  let repo_url := "https://github.com/" ++ repo ++ ".git" in
  run (Clone repo_url repo_dir) ;;;
  run (Checkout repo_dir base_commit) ;;;
  gret repo_dir.

(** [clone_repository], lines 60-102; [current_dir] is the directory of
    [main.py].  The [try] block ends with [Some repo_dir] where the code
    returns from inside it, and the handler with [None], after which the
    code goes on to clone. *)
Definition clone_repository (current_dir repo base_commit : string) : G string :=
  let repo_name := Main.repo_name_of repo in
  let repo_dir := path_join current_dir repo_name in
  there <- exists_ repo_dir ;;
  returned <-
    (if there then
       is_git <- exists_ (path_join repo_dir ".git") ;;
       if is_git then
         gprint ("Repository already exists at " ++ repo_dir) ;;;
         try_called_process_error
           (out <- run (RevParseHead repo_dir) ;;
            let current_commit := strip out in
            if String.eqb current_commit base_commit then
              gprint ("Repository is already at the correct commit: "
                      ++ base_commit) ;;;
              gret (Some repo_dir)
            else
              gprint ("Checking out commit " ++ base_commit) ;;;
              run (Checkout repo_dir base_commit) ;;;
              gret (Some repo_dir))
           (gprint "Error checking repository state. Re-cloning repository." ;;;
            run (Rmtree repo_dir) ;;;
            gret None)
       else
         gprint ("Directory " ++ repo_dir
                 ++ " exists but is not a git repository. Removing and re-cloning.") ;;;
         run (Rmtree repo_dir) ;;;
         gret None
     else gret None) ;;
  match returned with
  | Some dir => gret dir
  | None => fresh_clone repo base_commit repo_dir
  end.

End Git.

(** ** [run_agent]: the message sent and the responses kept *)

Module Agent.
Import PyStr Py Py.Notations.

(** What [run_agent] reads of an event: its author, the texts of the parts
    of its content (no content, no list of parts, or a part without text
    are [None]) and whether it is partial (an unset flag counts as
    [False]). *)
Record event : Type := Event {
  author : string;
  content : option (option (list (option string)));
  partial : bool
}.

(** Lines 125-127 *)
Definition message_text (input_text : string) (original_file_path : option string)
  : string :=
  match original_file_path with
  | Some ((String _ _) as path) =>
      input_text ++ nl ++ nl ++ "Original file path: " ++ path
  | _ => input_text
  end.

(** [part.text or ""] *)
Definition text_or_empty (text : option string) : string :=
  match text with Some t => t | None => "" end.

(** Lines 135-138: the response an event adds, if it adds one. *)
Definition response_of (e : event) : option string :=
  match content e with
  | Some (Some ((_ :: _) as parts)) =>
      let response_text := join (map text_or_empty parts) in
      if truthy response_text && negb (partial e)
      then Some ("[" ++ author e ++ "]: " ++ response_text)
      else None
  | _ => None
  end.

(** The loop of lines 131-139 over the events the runner yields. *)
Fixpoint collect (events : list event) (responses : list string)
  : M (list string) :=
  match events with
  | [] => ret responses
  | e :: rest =>
      match response_of e with
      | Some response =>
          print response ;;;
          collect rest (responses ++ [response])%list
      | None => collect rest responses
      end
  end.

(** [run_agent], lines 117-141; [runner] gives the events that
    [runner.run_async] yields for a message. *)
Definition run_agent (runner : string -> list event)
           (input_text : string) (original_file_path : option string)
  : M (list string) :=
  collect (runner (message_text input_text original_file_path)) [].

End Agent.

(** ** The callback of the two agents: [_remove_end_of_edit_mark] *)

Module Callback.
Import PyStr Py.

Definition _END_OF_EDIT_MARK : string := "---END-OF-EDIT---".

(** What the callback reads of a response: [None] for no content, then
    [None] for no list of parts, then the text of each part ([None] for a
    part without text). *)
Definition llm_response : Type := option (option (list (option string))).

(** [s.split(sep, 1)[0]]: the text before the first [sep]. *)
Fixpoint before_first (sep s : string) : string :=
  if String.prefix sep s then EmptyString
  else match s with
       | EmptyString => EmptyString
       | String c r => String c (before_first sep r)
       end.

(** [parts[idx].text = text] *)
Fixpoint set_text (idx : nat) (text : string) (parts : list (option string))
  : list (option string) :=
  match parts, idx with
  | [], _ => []
  | _ :: ps, O => Some text :: ps
  | p :: ps, S i => p :: set_text i text ps
  end.

(** The [for] loop of lines 20-23.  The list is changed while it is
    walked: the iterator holds an index and stops when the index is no
    longer inside the list.  [fuel] bounds the number of steps. *)
Fixpoint loop (fuel idx : nat) (parts : list (option string))
  : result (list (option string)) :=
  match fuel with
  | O => Ret parts
  | S fuel' =>
      match nth_error parts idx with
      | None => Ret parts
      | Some None =>
          Raise (OtherException "argument of type 'NoneType' is not iterable")
      | Some (Some text) =>
          if contains _END_OF_EDIT_MARK text then
            loop fuel' (S idx)
                 (set_text idx (before_first _END_OF_EDIT_MARK text)
                           (firstn (S idx) parts))
          else loop fuel' (S idx) parts
      end
  end.

(** [_remove_end_of_edit_mark], lines 13-24 of the generator's [agent.py]
    and, with the same text, lines 14-25 of the analyser's.  The
    index grows at each step and the list never does, so as many steps as
    the list is long, and one more for the test that ends the loop, are
    enough. *)
Definition _remove_end_of_edit_mark (response : llm_response)
  : result llm_response :=
  match response with
  | Some (Some ((_ :: _) as parts)) =>
      match loop (S (length parts)) 0 parts with
      | Ret parts' => Ret (Some (Some parts'))
      | Raise e => Raise e
      end
  | _ => Ret response
  end.

(** A part with a text that does not hold the mark. *)
Definition unmarked (part : option string) : Prop :=
  exists text, part = Some text /\ contains _END_OF_EDIT_MARK text = false.

End Callback.

(** ** The prompt modules: [prompt.py] of the two agents *)

Module Prompt.
Import PyStr Py Py.Notations PyPath.

(** [s.replace(old, new)] for a non-empty [old]: the occurrences are taken
    from left to right and do not overlap; [skip] counts the characters of
    an occurrence still to pass. *)
Fixpoint replace_from (old new : string) (skip : nat) (s : string) : string :=
  match s with
  | EmptyString => EmptyString
  | String c r =>
      match skip with
      | S k => replace_from old new k r
      | O =>
          if String.prefix old s
          then new ++ replace_from old new (String.length old - 1) r
          else String c (replace_from old new 0 r)
      end
  end.

Definition replace (old new s : string) : string := replace_from old new 0 s.

(** [process_hints_text] *)
Definition process_hints_text (text : string) : string :=
  replace "id_)" "id_param)" text.

(** [escape_template_placeholders] *)
Definition escape_template_placeholders (text : string) : string :=
  replace "{id_}" "[id_]" text.

(** [get_file_content] *)
Definition get_file_content (file_path : string) : M string :=
  try_except
    (read_text file_path)
    is_Exception
    (fun e => ret ("Error reading file: " ++ str_of_exn e)).

(** [get_original_file_path]; [base_dir] is the directory
    [bug_fixer_agent], and [default_name] the file it falls back on:
    [widgets.py] in the analyser's module, [qdp.py] in the generator's. *)
Definition get_original_file_path_or (default_name base_dir : string) : M string :=
  let config_file :=
    path_join (path_join base_dir "config") "original_file_path.txt" in
  try_except
    (found <- path_exists config_file ;;
     if found then
       content <- read_text config_file ;;
       ret (strip content)
     else ret (path_join base_dir default_name))
    is_Exception
    (fun e =>
       print ("Error reading original file path: " ++ str_of_exn e) ;;;
       ret (path_join base_dir default_name)).

Module Analyser.
Definition get_original_file_path : string -> M string :=
  get_original_file_path_or "widgets.py".
(** [CODE_TO_ANALYZE], computed when the module is imported. *)
Definition CODE_TO_ANALYZE (base_dir : string) : M string :=
  original_file_path <- get_original_file_path base_dir ;;
  get_file_content original_file_path.
End Analyser.

Module Generator.
Definition get_original_file_path : string -> M string :=
  get_original_file_path_or "qdp.py".
(** [CODE_TO_FIX], computed when the module is imported. *)
Definition CODE_TO_FIX (base_dir : string) : M string :=
  original_file_path <- get_original_file_path base_dir ;;
  get_file_content original_file_path.
End Generator.

(** [old] matches at no place that begins inside [u], whatever follows
    [u]. *)
Fixpoint never_inside (old u : string) : Prop :=
  match u with
  | EmptyString => True
  | String _ u' =>
      (forall t, String.prefix old (u ++ t) = false) /\ never_inside old u'
  end.

(** Every fault still to come raises a subclass of [Exception]. *)
Definition ordinary_faults (w : world) : Prop :=
  Forall (fun f => match f with
                   | NoFault => True
                   | OpenFault e => is_Exception e = true
                   | MidFault _ e => is_Exception e = true
                   end) (faults w).

End Prompt.

(** ** A sequence matched against itself *)

Module SelfMatch.
Import PyStr Difflib.

Section Self.
Variable a : list string.

(** [x] is a key of [b2j]: it occurs in the sequence and was not purged
    as popular. *)
Definition anchored (x : string) : bool :=
  match b2j_get (chain_b a) x with
  | [] => false
  | _ :: _ => true
  end.

(** The number of places, counted back from [a[i]] and [a[j]], at which
    the two hold the same anchored element: what [j2len[j]] is after the
    turn [i] of the outer loop of [find_longest_match]. *)
Fixpoint run_length (i j : nat) : nat :=
  if String.eqb (a_at a i) (a_at a j) && anchored (a_at a i)
  then S (match i, j with
          | S i', S j' => run_length i' j'
          | _, _ => O
          end)
  else O.

(** [j2len.get(j, 0)] *)
Definition dict_value (d : list (nat * nat)) (j : nat) : nat :=
  match dict_get d j with Some k => k | None => O end.

(** What the row before [i] gives for [j2len.get(j-1, 0)]. *)
Definition prev_ok (i : nat) (j2len : list (nat * nat)) : Prop :=
  forall j, (j < List.length a)%nat ->
            j2len_prev j2len j
            = match i, j with S i', S j' => run_length i' j' | _, _ => O end.

End Self.
End SelfMatch.

(* ===================================================================== *)
(** * Part II: properties                                                  *)
(* ===================================================================== *)

(** ** Facts about the string operations *)

Module PyStrFacts.
Import PyStr Shape.

Lemma append_nil_r (s : string) : s ++ "" = s.
Proof. induction s as [|c s IH]; simpl; [reflexivity | now rewrite IH]. Qed.

Lemma append_assoc (s t u : string) : (s ++ t) ++ u = s ++ (t ++ u).
Proof. induction s as [|c s IH]; simpl; [reflexivity | now rewrite IH]. Qed.

Lemma length_append (s t : string) :
  String.length (s ++ t) = String.length s + String.length t.
Proof. induction s as [|c s IH]; simpl; [reflexivity | now rewrite IH]. Qed.

Lemma prefix_append (p s : string) : String.prefix p (p ++ s) = true.
Proof.
  induction p as [|c p IH]; simpl.
  - now destruct s.
  - destruct (ascii_dec c c); [exact IH | congruence].
Qed.

Lemma prefix_split (p s : string) :
  String.prefix p s = true -> s = p ++ drop (String.length p) s.
Proof.
  revert s; induction p as [|c p IH]; intros s H; simpl.
  - reflexivity.
  - destruct s as [|d s]; simpl in H; [discriminate|].
    destruct (ascii_dec c d); [subst; f_equal; now apply IH | discriminate].
Qed.

Lemma prefix_trans (p q s : string) :
  String.prefix p q = true -> String.prefix q s = true -> String.prefix p s = true.
Proof.
  revert q s; induction p as [|c p IH]; intros q s Hpq Hqs.
  - now destruct s.
  - destruct q as [|d q]; simpl in Hpq; [discriminate|].
    destruct (ascii_dec c d); [subst|discriminate].
    destruct s as [|e s]; simpl in Hqs; [discriminate|].
    simpl. destruct (ascii_dec d e); [now apply (IH q)|discriminate].
Qed.

Lemma length_drop (n : nat) (s : string) :
  String.length (drop n s) = String.length s - n.
Proof.
  revert s; induction n as [|n IH]; intros s; simpl.
  - lia.
  - destruct s; simpl; [reflexivity | apply IH].
Qed.

Lemma length_take (n : nat) (s : string) :
  String.length (take n s) = Nat.min n (String.length s).
Proof.
  revert s; induction n as [|n IH]; intros s; simpl.
  - reflexivity.
  - destruct s; simpl; [reflexivity | now rewrite IH].
Qed.

Lemma length_lstrip (s : string) : String.length (lstrip s) <= String.length s.
Proof.
  induction s as [|c s IH]; simpl; [lia|].
  destruct (isspace c); simpl; lia.
Qed.

Lemma length_rstrip (s : string) : String.length (rstrip s) <= String.length s.
Proof.
  induction s as [|c s IH]; simpl; [lia|].
  destruct (rstrip s); [destruct (isspace c)|]; simpl in *; lia.
Qed.

Lemma drop_append_length (p s : string) : drop (String.length p) (p ++ s) = s.
Proof. induction p as [|c p IH]; simpl; [reflexivity | exact IH]. Qed.

Lemma join_app (l1 l2 : list string) : join (l1 ++ l2)%list = join l1 ++ join l2.
Proof.
  induction l1 as [|l l1 IH]; simpl; [reflexivity|].
  now rewrite IH, append_assoc.
Qed.

(** *** Occurrences of one character *)

Lemma has_char_append (c : ascii) (s t : string) :
  has_char c (s ++ t) = has_char c s || has_char c t.
Proof.
  induction s as [|d s IH]; simpl; [reflexivity|].
  now rewrite IH, orb_assoc.
Qed.

Lemma has_char_join (c : ascii) (ls : list string) :
  Forall (fun l => has_char c l = false) ls -> has_char c (join ls) = false.
Proof.
  induction 1 as [|l ls Hl _ IH]; simpl; [reflexivity|].
  now rewrite has_char_append, Hl, IH.
Qed.

Lemma has_char_splitlines (c : ascii) (s : string) :
  has_char c s = false -> Forall (fun l => has_char c l = false) (splitlines s).
Proof.
  induction s as [|d s IH]; simpl; intros H; [constructor|].
  apply orb_false_iff in H as [Hd Hs]. specialize (IH Hs).
  destruct (Ascii.eqb d LF).
  - constructor; [simpl; now rewrite Hd | exact IH].
  - destruct (splitlines s) as [|l ls].
    + constructor; [simpl; now rewrite Hd | constructor].
    + inversion IH; subst. constructor; [simpl|assumption].
      now rewrite Hd.
Qed.

(** *** Universal newlines *)

Lemma universal_newlines_no_cr (s : string) :
  has_char CR (universal_newlines s) = false.
Proof.
  induction s as [|c s IH]; [reflexivity|].
  cbn [universal_newlines].
  destruct (Ascii.eqb c CR) eqn:Hc.
  - destruct s as [|c2 s2]; [reflexivity|].
    destruct (Ascii.eqb c2 LF) eqn:Hc2.
    + apply Ascii.eqb_eq in Hc2; subst c2.
      cbn [universal_newlines] in IH.
      replace (Ascii.eqb LF CR) with false in IH by reflexivity.
      exact IH.
    + cbn [has_char]. now rewrite IH.
  - cbn [has_char]. now rewrite Hc, IH.
Qed.

Lemma universal_newlines_id (s : string) :
  has_char CR s = false -> universal_newlines s = s.
Proof.
  induction s as [|c s IH]; [reflexivity|].
  cbn [has_char universal_newlines]. intros H.
  apply orb_false_iff in H as [Hc Hs].
  rewrite Hc. now rewrite IH.
Qed.

(** *** Lines *)

Lemma complete_line_cons (c : ascii) (l : string) :
  Ascii.eqb c LF = false -> complete_line l -> complete_line (String c l).
Proof.
  intros Hc [body [-> Hb]]. exists (String c body). split; [reflexivity|].
  simpl. now rewrite Hc, Hb.
Qed.

Lemma partial_line_cons (c : ascii) (l : string) :
  Ascii.eqb c LF = false -> has_char LF l = false -> partial_line (String c l).
Proof.
  intros Hc Hl. split; [discriminate|]. simpl. now rewrite Hc, Hl.
Qed.

Lemma splitlines_lines_ok (s : string) : lines_ok (splitlines s).
Proof.
  induction s as [|c s IH]; simpl; [exact I|].
  destruct (Ascii.eqb c LF) eqn:Hc.
  - apply Ascii.eqb_eq in Hc; subst c. split; [|exact IH].
    left. now exists EmptyString.
  - destruct (splitlines s) as [|l ls].
    + split; [|exact I]. right. split; [|reflexivity].
      now apply partial_line_cons.
    + destruct IH as [[Hl | [[_ Hl] ->]] Hls]; (split; [|exact Hls]).
      * left. now apply complete_line_cons.
      * right. split; [|reflexivity]. now apply partial_line_cons.
Qed.

Lemma splitlines_complete (body rest : string) :
  has_char LF body = false ->
  splitlines ((body ++ nl) ++ rest) = (body ++ nl) :: splitlines rest.
Proof.
  induction body as [|c body IH]; intros H; [reflexivity|].
  simpl in H. apply orb_false_iff in H as [Hc Hb].
  cbn [append splitlines]. rewrite Hc, (IH Hb). reflexivity.
Qed.

Lemma splitlines_partial (l : string) :
  partial_line l -> splitlines l = [l].
Proof.
  intros [Hne H]. induction l as [|c l IH]; [congruence|].
  simpl in H. apply orb_false_iff in H as [Hc Hl].
  cbn [splitlines]. rewrite Hc. destruct l as [|d l]; [reflexivity|].
  rewrite IH; [reflexivity | discriminate | exact Hl].
Qed.

Lemma splitlines_join (ls : list string) :
  lines_ok ls -> splitlines (join ls) = ls.
Proof.
  induction ls as [|l ls IH]; [reflexivity|].
  intros [[[body [-> Hb]] | [Hp ->]] Hls].
  - cbn [join fold_right]. rewrite splitlines_complete by exact Hb.
    f_equal. now apply IH.
  - cbn [join fold_right]. rewrite append_nil_r. now apply splitlines_partial.
Qed.

Lemma join_splitlines (s : string) : join (splitlines s) = s.
Proof.
  induction s as [|c s IH]; [reflexivity|].
  cbn [splitlines]. destruct (Ascii.eqb c LF).
  - cbn [join fold_right]. simpl. f_equal. exact IH.
  - destruct (splitlines s) as [|l ls].
    + simpl in IH. subst s. reflexivity.
    + cbn [join fold_right] in *. simpl. f_equal. exact IH.
Qed.

(** Reading back what [writelines] wrote gives the same lines, for lines
    of the shape [readlines] produces. *)
Lemma readlines_join (ls : list string) :
  lines_ok ls -> Forall (fun l => has_char CR l = false) ls ->
  readlines (join ls) = ls.
Proof.
  intros Hok Hcr. unfold readlines.
  rewrite universal_newlines_id by now apply has_char_join.
  now apply splitlines_join.
Qed.

Lemma readlines_lines_ok (raw : string) : lines_ok (readlines raw).
Proof. apply splitlines_lines_ok. Qed.

Lemma readlines_no_cr (raw : string) :
  Forall (fun l => has_char CR l = false) (readlines raw).
Proof. apply has_char_splitlines, universal_newlines_no_cr. Qed.

Lemma prefix_append_r (p s t : string) :
  String.length p <= String.length s ->
  String.prefix p (s ++ t) = String.prefix p s.
Proof.
  revert s. induction p as [|c p IH]; intros s H.
  - now destruct s; destruct t.
  - destruct s as [|d s]; simpl in H; [lia|].
    simpl. destruct (ascii_dec c d); [apply IH; lia | reflexivity].
Qed.

Lemma prefix_length (p s : string) :
  String.prefix p s = true -> String.length p <= String.length s.
Proof.
  intros H. apply prefix_split in H. rewrite H, length_append. lia.
Qed.

Lemma lines_ok_skipn (n : nat) (ls : list string) :
  lines_ok ls -> lines_ok (skipn n ls).
Proof.
  revert ls. induction n as [|n IH]; intros ls H; [exact H|].
  destruct ls as [|l ls]; [exact I|]. apply IH, H.
Qed.

Lemma lines_ok_app (h ls : list string) :
  Forall complete_line h -> lines_ok ls -> lines_ok (h ++ ls)%list.
Proof.
  induction 1 as [|l h Hl _ IH]; intros H; [exact H|].
  split; [now left | now apply IH].
Qed.

Lemma Forall_skipn {A : Type} (P : A -> Prop) (n : nat) (ls : list A) :
  Forall P ls -> Forall P (skipn n ls).
Proof.
  revert ls. induction n as [|n IH]; intros ls H; [exact H|].
  destruct ls as [|l ls]; [constructor|]. inversion H; subst. now apply IH.
Qed.

(** *** Subsequences *)

Lemma subseq_refl {A : Type} (l : list A) : subseq l l.
Proof. induction l; constructor; assumption. Qed.

Lemma subseq_nil_r {A : Type} (ks : list A) : subseq ks [] -> ks = [].
Proof. now inversion 1. Qed.

Lemma subseq_Forall {A : Type} (P : A -> Prop) (ks ls : list A) :
  subseq ks ls -> Forall P ls -> Forall P ks.
Proof.
  induction 1 as [|x ks ls _ IH|x ks ls _ IH]; intros H.
  - constructor.
  - inversion H; subst. auto.
  - inversion H; subst. constructor; auto.
Qed.

Lemma subseq_lines_ok (ks ls : list string) :
  subseq ks ls -> lines_ok ls -> lines_ok ks.
Proof.
  induction 1 as [|x ks ls Hs IH|x ks ls Hs IH]; intros H.
  - exact I.
  - destruct H as [_ H]. auto.
  - destruct H as [[Hc | [Hp ->]] H].
    + split; [now left | auto].
    + apply subseq_nil_r in Hs. subst ks. split; [now right | exact I].
Qed.

Lemma readlines_join_subseq (raw : string) (ks : list string) :
  subseq ks (readlines raw) -> readlines (join ks) = ks.
Proof.
  intros H. apply readlines_join.
  - eapply subseq_lines_ok; [exact H | apply readlines_lines_ok].
  - eapply subseq_Forall; [exact H | apply readlines_no_cr].
Qed.

End PyStrFacts.

(** ** The docstring stripper *)

Module StripperFacts.
Import PyStr Shape PyStrFacts Stripper.

Lemma fold_loop_body (ls : list string) (acc : list string) (st : scan_state) :
  fold_left loop_body ls (acc, st)
  = ((acc ++ fst (scan_from st ls))%list, snd (scan_from st ls)).
Proof.
  revert acc st. induction ls as [|l ls IH]; intros acc st.
  - simpl. now rewrite app_nil_r.
  - unfold scan_from. cbn [fold_left loop_body].
    destruct (scan_line st l) as [st' keep].
    rewrite (IH _ st'), (IH (if keep then _ else _) st'). cbn [fst snd].
    destruct keep; cbn [app]; [now rewrite <- app_assoc | reflexivity].
Qed.

Lemma scan_from_nil (st : scan_state) : scan_from st [] = ([], st).
Proof. reflexivity. Qed.

Lemma scan_from_cons (st : scan_state) (l : string) (ls : list string) :
  scan_from st (l :: ls)
  = ((if snd (scan_line st l) then [l] else []) ++ fst (scan_from (fst (scan_line st l)) ls),
     snd (scan_from (fst (scan_line st l)) ls))%list.
Proof.
  unfold scan_from at 1. cbn [fold_left loop_body].
  destruct (scan_line st l) as [st' keep]. rewrite fold_loop_body. cbn [fst snd].
  destruct keep; reflexivity.
Qed.

Lemma scan_from_app (st : scan_state) (pre post : list string) :
  scan_from st (pre ++ post)
  = ((fst (scan_from st pre) ++ fst (scan_from (state_after st pre) post))%list,
     state_after (state_after st pre) post).
Proof.
  revert st. induction pre as [|l pre IH]; intros st.
  - unfold state_after. rewrite scan_from_nil. simpl.
    now destruct (scan_from st post).
  - rewrite <- app_comm_cons, !scan_from_cons, IH. unfold state_after.
    rewrite scan_from_cons. cbn [fst snd]. now rewrite app_assoc.
Qed.

Lemma scan_line_non_addition (st : scan_state) (l : string) :
  is_addition l = false -> scan_line st l = (st, true).
Proof. unfold is_addition, scan_line. now intros ->. Qed.

Lemma scan_line_dropped (st : scan_state) (l : string) :
  snd (scan_line st l) = false -> is_addition l = true.
Proof.
  unfold is_addition, scan_line.
  destruct (startswith l "+"); [reflexivity | discriminate].
Qed.

Lemma scan_subseq (st : scan_state) (ls : list string) :
  subseq (fst (scan_from st ls)) ls.
Proof.
  revert st. induction ls as [|l ls IH]; intros st.
  - constructor.
  - rewrite scan_from_cons. cbn [fst].
    destruct (snd (scan_line st l)); cbn [app]; constructor; apply IH.
Qed.

Lemma scan_filter (st : scan_state) (ls : list string) :
  filter non_addition (fst (scan_from st ls)) = filter non_addition ls.
Proof.
  revert st. induction ls as [|l ls IH]; intros st; [reflexivity|].
  rewrite scan_from_cons. cbn [fst].
  destruct (snd (scan_line st l)) eqn:Hk; simpl; rewrite IH.
  - reflexivity.
  - unfold non_addition. now rewrite (scan_line_dropped _ _ Hk).
Qed.

Lemma scan_line_valid (st : scan_state) (l : string) :
  valid_state st -> valid_state (fst (scan_line st l)).
Proof.
  intros H. unfold scan_line.
  repeat match goal with
         | |- context [if ?c then _ else _] => destruct c
         end; cbn [fst]; try exact H; unfold valid_state, OUTSIDE, INSIDE; auto.
Qed.

Lemma state_after_valid (st : scan_state) (ls : list string) :
  valid_state st -> valid_state (state_after st ls).
Proof.
  revert st. induction ls as [|l ls IH]; intros st H; [exact H|].
  unfold state_after. rewrite scan_from_cons. cbn [snd].
  apply IH, scan_line_valid, H.
Qed.

Lemma strip_text_lines (raw : string) :
  readlines (strip_text raw) = strip_lines (readlines raw).
Proof.
  unfold strip_text. apply (readlines_join_subseq raw), scan_subseq.
Qed.

(** C1. For every diff text, the lines of the stripper's output that do not
    begin with [+] are the lines of its input that do not begin with [+],
    the same lines in the same order. *)
Theorem C1_non_addition_lines_preserved (raw : string) :
  filter non_addition (readlines (strip_text raw))
  = filter non_addition (readlines raw).
Proof.
  rewrite strip_text_lines. apply scan_filter.
Qed.

Lemma startswith_TSQ_not_TDQ (s : string) :
  startswith s TSQ = true -> startswith s TDQ = false.
Proof.
  unfold startswith. intros H. apply prefix_split in H. rewrite H. reflexivity.
Qed.

Lemma scan_line_inside (d line : string) :
  delimiter d -> is_addition line = true ->
  scan_line (INSIDE d) line
  = (if contains d (drop 1 line) then OUTSIDE else INSIDE d, false).
Proof.
  intros Hd Hl. unfold scan_line. unfold is_addition in Hl. rewrite Hl.
  cbn [in_multiline_docstring docstring_quotes INSIDE quotes_in].
  replace (truthy d) with true by (destruct Hd; subst; reflexivity).
  cbn [andb]. now destruct (contains d (drop 1 line)).
Qed.


(** The output around a line that is kept. *)
Lemma strip_lines_kept (pre post : list string) (line : string) :
  scan_line (state_after initial pre) line = (state_after initial pre, true) ->
  strip_lines (pre ++ line :: post)
  = (strip_lines pre ++ line :: fst (scan_from (state_after initial pre) post))%list.
Proof.
  intros H. unfold strip_lines. rewrite scan_from_app. cbn [fst].
  rewrite scan_from_cons, H. reflexivity.
Qed.

(** C2. Inside a multi-line docstring opened with the delimiter [d], an
    addition line is always dropped, and the scan leaves the docstring
    exactly when the text after the [+] contains [d]; this holds at any
    place of a diff.  The three lines of the multi-line example, scanned
    from OUTSIDE, are all dropped and the state after them is OUTSIDE. *)
Theorem C2_inside_drops_until_delimiter (d line : string) :
  delimiter d -> is_addition line = true ->
  scan_line (INSIDE d) line
  = (if contains d (drop 1 line) then OUTSIDE else INSIDE d, false)
  /\ (forall pre post : list string,
         state_after initial pre = INSIDE d ->
         strip_lines (pre ++ line :: post)
         = (strip_lines pre
            ++ fst (scan_from (if contains d (drop 1 line) then OUTSIDE else INSIDE d)
                              post))%list)
  /\ scan_from OUTSIDE multi_line_docstring = ([], OUTSIDE)
  /\ map (fun k => state_after OUTSIDE (firstn k multi_line_docstring)) [1; 2; 3]
     = [INSIDE TDQ; INSIDE TDQ; OUTSIDE]
  /\ strip_text (join multi_line_docstring) = "".
Proof.
  intros Hd Hl. split; [now apply scan_line_inside|].
  split; [|repeat split; reflexivity].
  intros pre post Hpre. unfold strip_lines.
  rewrite scan_from_app. cbn [fst]. rewrite Hpre, scan_from_cons.
  rewrite (scan_line_inside d line Hd Hl). reflexivity.
Qed.

Lemma C2_witness :
  delimiter TDQ /\ is_addition ("+    Multi-line." ++ nl) = true
  /\ scan_line (INSIDE TDQ) ("+    Multi-line." ++ nl) = (INSIDE TDQ, false).
Proof.
  split; [now left|]. split; [reflexivity|].
  apply (C2_inside_drops_until_delimiter TDQ ("+    Multi-line." ++ nl));
    [now left | reflexivity].
Defined.

(** C3. From OUTSIDE, the single-line docstring of the example is dropped
    and the state stays OUTSIDE, with or without the line feed that
    [readlines] leaves at its end, and an ordinary addition line right
    after it is kept.  More generally an addition line whose trimmed text
    starts and ends with the same delimiter and has at least 6 characters
    is dropped and leaves the state OUTSIDE. *)
Theorem C3_single_line_docstring_dropped (term next : string) (rest : list string) :
  term = "" \/ term = nl -> ordinary_addition next ->
  scan_line OUTSIDE (single_line_docstring ++ term) = (OUTSIDE, false)
  /\ scan_line OUTSIDE next = (OUTSIDE, true)
  /\ strip_lines ((single_line_docstring ++ term) :: next :: rest)
     = next :: strip_lines rest
  /\ (forall d line : string,
         delimiter d -> is_addition line = true ->
         startswith (lstrip (drop 1 line)) d = true ->
         endswith (lstrip (drop 1 line)) d = true ->
         6 <= String.length (lstrip (drop 1 line)) ->
         scan_line OUTSIDE line = (OUTSIDE, false)).
Proof.
  intros Hterm (Ha & Hdq & Hsq).
  assert (Hdoc : scan_line OUTSIDE (single_line_docstring ++ term) = (OUTSIDE, false))
    by (destruct Hterm; subst; reflexivity).
  assert (Hnext : scan_line OUTSIDE next = (OUTSIDE, true)).
  { unfold scan_line. unfold is_addition in Ha. rewrite Ha, Hdq, Hsq. reflexivity. }
  repeat split; try assumption.
  - unfold strip_lines, initial. fold OUTSIDE.
    rewrite scan_from_cons, Hdoc. cbn [fst snd app].
    rewrite scan_from_cons, Hnext. reflexivity.
  - intros d line Hd Hl Hs He Hlen. unfold scan_line.
    unfold is_addition in Hl. rewrite Hl. cbn [in_multiline_docstring OUTSIDE].
    apply Nat.leb_le in Hlen.
    destruct Hd; subst d.
    + now rewrite Hs, He, Hlen.
    + rewrite (startswith_TSQ_not_TDQ _ Hs), Hs, He, Hlen. reflexivity.
Qed.

Lemma C3_witness :
  strip_lines [single_line_docstring ++ nl; "+    return 2" ++ nl]
  = ["+    return 2" ++ nl].
Proof.
  apply (C3_single_line_docstring_dropped nl ("+    return 2" ++ nl) []).
  - now right.
  - repeat split; reflexivity.
Defined.





End StripperFacts.

(** ** The code extractor *)

Module ExtractorFacts.
Import PyStr Shape PyStrFacts Py Extractor.

Lemma lazy_until_here (closer s : string) :
  String.prefix closer s = true -> lazy_until closer s = Some EmptyString.
Proof. intros H. destruct s; cbn [lazy_until]; now rewrite H. Qed.

(** The lazy group stops at the first closing fence. *)
Lemma lazy_until_first (closer body rest : string) :
  occurs_before closer (body ++ closer) (String.length body) = false ->
  lazy_until closer (body ++ closer ++ rest) = Some body.
Proof.
  induction body as [|c body IH]; intros H.
  - cbn [append]. apply lazy_until_here, prefix_append.
  - cbn [append String.length occurs_before] in H.
    apply orb_false_iff in H as [Hp Hb].
    cbn [append lazy_until].
    replace (String c (body ++ closer ++ rest))
      with (String c (body ++ closer) ++ rest)
      by (simpl; now rewrite append_assoc).
    destruct (String.prefix closer (String c (body ++ closer) ++ rest)) eqn:Hq.
    + pose proof (prefix_length _ _ Hq) as Hlen.
      rewrite prefix_append_r in Hq; [congruence|].
      simpl. rewrite length_append. lia.
    + rewrite (IH Hb). reflexivity.
Qed.

Lemma lazy_until_sound (closer s g : string) :
  lazy_until closer s = Some g -> exists rest, s = g ++ closer ++ rest.
Proof.
  revert g. induction s as [|c s IH]; intros g; cbn [lazy_until].
  - destruct (String.prefix closer "") eqn:Hp; [|discriminate].
    intros [= <-]. apply prefix_split in Hp. now exists (drop (String.length closer) "").
  - destruct (String.prefix closer (String c s)) eqn:Hp.
    + intros [= <-]. apply prefix_split in Hp.
      now exists (drop (String.length closer) (String c s)).
    + destruct (lazy_until closer s) as [g'|]; [|discriminate].
      intros [= <-]. destruct (IH g' eq_refl) as [rest ->].
      now exists rest.
Qed.

(** The search passes over the positions where the opener does not occur. *)
Lemma re_search_skip (opener pre t : string) :
  occurs_before opener (pre ++ t) (String.length pre) = false ->
  re_search opener (pre ++ t) = re_search opener t.
Proof.
  induction pre as [|c pre IH]; intros H; [reflexivity|].
  cbn [append String.length occurs_before] in H.
  apply orb_false_iff in H as [Hp Hb].
  cbn [append re_search]. unfold match_here at 1.
  cbn [append] in Hp. rewrite Hp. now apply IH.
Qed.

Lemma re_search_first (opener pre body rest : string) :
  occurs_before opener (pre ++ opener ++ body ++ fence ++ rest) (String.length pre) = false ->
  occurs_before fence (body ++ fence) (String.length body) = false ->
  re_search opener (pre ++ opener ++ body ++ fence ++ rest) = Some body.
Proof.
  intros H1 H2. rewrite re_search_skip by exact H1.
  assert (Hm : match_here opener (opener ++ body ++ fence ++ rest) = Some body).
  { unfold match_here. rewrite prefix_append, drop_append_length.
    now apply lazy_until_first. }
  destruct (opener ++ body ++ fence ++ rest); cbn [re_search]; now rewrite Hm.
Qed.

Lemma re_search_sound (opener s g : string) :
  re_search opener s = Some g ->
  exists pre rest, s = pre ++ opener ++ g ++ fence ++ rest.
Proof.
  assert (Hhere : forall t, match_here opener t = Some g ->
                       exists rest, t = opener ++ g ++ fence ++ rest).
  { intros t. unfold match_here.
    destruct (String.prefix opener t) eqn:Hp; [|discriminate].
    intros Hl. apply lazy_until_sound in Hl as [rest Hl].
    apply prefix_split in Hp. exists rest. now rewrite Hp at 1; rewrite Hl. }
  induction s as [|c s IH]; cbn [re_search].
  - destruct (match_here opener "") eqn:Hm; [|discriminate].
    intros [= ->]. destruct (Hhere _ Hm) as [rest Hr].
    now exists "", rest.
  - destruct (match_here opener (String c s)) eqn:Hm.
    + intros [= ->]. destruct (Hhere _ Hm) as [rest Hr]. now exists "", rest.
    + intros H. destruct (IH H) as (pre & rest & ->).
      now exists (String c pre), rest.
Qed.

(** C10. Let [body] hold no closing fence before the one that follows it.
    When the first python-tagged opening fence (the tag followed at once by
    a line feed) is followed by [body] and that closing fence, the extractor
    returns [body], whatever comes after the closing fence, later blocks
    included.  When the text has no python-tagged block and its first
    untagged opening fence is followed by [body] and the closing fence, the
    extractor returns [body] as well.  The search of either kind of fence
    gives the group of the first opener.  A tagged match always begins with
    the tag and a line feed: a tag followed by a space matches nothing. *)
Theorem C10_first_fenced_block (pre body rest : string) (w : world) :
  occurs_before fence (body ++ fence) (String.length body) = false ->
  (occurs_before python_fence_open
     (pre ++ python_fence_open ++ body ++ fence ++ rest) (String.length pre) = false ->
   extract_code_from_output (pre ++ python_fence_open ++ body ++ fence ++ rest) w
   = (Ret body, w))
  /\ (occurs_before plain_fence_open
        (pre ++ plain_fence_open ++ body ++ fence ++ rest) (String.length pre) = false ->
      re_search python_fence_open (pre ++ plain_fence_open ++ body ++ fence ++ rest)
      = None ->
      extract_code_from_output (pre ++ plain_fence_open ++ body ++ fence ++ rest) w
      = (Ret body, w))
  /\ (forall opener : string,
         occurs_before opener (pre ++ opener ++ body ++ fence ++ rest)
           (String.length pre) = false ->
         re_search opener (pre ++ opener ++ body ++ fence ++ rest) = Some body)
  /\ (forall output g : string,
         re_search python_fence_open output = Some g ->
         exists pre' rest',
           output = pre' ++ ("```python" ++ nl) ++ g ++ fence ++ rest')
  /\ re_search python_fence_open ("```python x = 1" ++ nl ++ "```") = None.
Proof.
  intros H2. split; [|split; [|split; [|split]]].
  - intros H1. unfold extract_code_from_output.
    now rewrite (re_search_first _ _ _ _ H1 H2).
  - intros H1 Hnone. unfold extract_code_from_output.
    now rewrite Hnone, (re_search_first _ _ _ _ H1 H2).
  - intros opener H. now apply re_search_first.
  - intros output g H. now apply re_search_sound.
  - reflexivity.
Qed.

Lemma C10_witness :
  extract_code_from_output
    ("Here is the fix:" ++ nl ++ python_fence_open ++ ("x = 1" ++ nl) ++ fence
     ++ (nl ++ "or else" ++ nl ++ python_fence_open ++ "x = 2" ++ nl ++ fence))
    (World (fun _ => None) [] [])
  = (Ret ("x = 1" ++ nl), World (fun _ => None) [] [])
  /\ extract_code_from_output
       ("" ++ plain_fence_open ++ ("A" ++ nl) ++ fence
        ++ (nl ++ plain_fence_open ++ "B" ++ nl ++ fence))
       (World (fun _ => None) [] [])
     = (Ret ("A" ++ nl), World (fun _ => None) [] []).
Proof.
  split.
  - apply (C10_first_fenced_block ("Here is the fix:" ++ nl) ("x = 1" ++ nl)
             (nl ++ "or else" ++ nl ++ python_fence_open ++ "x = 2" ++ nl ++ fence)
             (World (fun _ => None) [] []) eq_refl);
      reflexivity.
  - apply (C10_first_fenced_block "" ("A" ++ nl)
             (nl ++ plain_fence_open ++ "B" ++ nl ++ fence)
             (World (fun _ => None) [] []) eq_refl);
      reflexivity.
Defined.

(** C6, as stated, fails: a blob with no fence and no start token is
    returned, nothing is raised. *)
Lemma C6_counterexample :
  ~ (forall (output : string) (w : world),
        re_search python_fence_open output = None ->
        re_search plain_fence_open output = None ->
        starts_like_code output = false ->
        exists e w', extract_code_from_output output w = (Raise e, w')).
Proof.
  intros H.
  destruct (H "I could not find the bug." (World (fun _ => None) [] [])
              eq_refl eq_refl eq_refl) as (e & w' & Hr).
  discriminate Hr.
Qed.

(** C6, amended. For a blob with no fenced block and no start token the
    extractor prints a debug excerpt and returns the blob unchanged. *)
Theorem C6_no_code_returns_blob (output : string) (w : world) :
  re_search python_fence_open output = None ->
  re_search plain_fence_open output = None ->
  starts_like_code output = false ->
  extract_code_from_output output w
  = (Ret output,
     World (files w)
           (stdout w ++ ["DEBUG - Code generator output:"; debug_excerpt output])%list
           (faults w)).
Proof.
  intros H1 H2 H3. unfold extract_code_from_output. rewrite H1, H2, H3.
  unfold bind, print, ret. cbn. now rewrite <- app_assoc.
Qed.

Lemma C6_witness :
  fst (extract_code_from_output "I could not find the bug."
         (World (fun _ => None) [] []))
  = Ret "I could not find the bug.".
Proof.
  rewrite (C6_no_code_returns_blob "I could not find the bug."
             (World (fun _ => None) [] []) eq_refl eq_refl eq_refl).
  reflexivity.
Defined.

(** The extractor never raises. *)
Lemma extract_code_from_output_returns (output : string) (w : world) :
  exists v w', extract_code_from_output output w = (Ret v, w').
Proof.
  unfold extract_code_from_output.
  destruct (re_search python_fence_open output); [now eexists; eexists|].
  destruct (re_search plain_fence_open output); [now eexists; eexists|].
  destruct (starts_like_code output); now eexists; eexists.
Qed.

End ExtractorFacts.

(** ** The cleanup of the extracted code *)

Module CleanFacts.
Import PyStr Shape PyStrFacts Extractor.

Lemma startswith_python_fence (y : string) :
  startswith y "```python" = true -> startswith y "```" = true.
Proof. unfold startswith. now apply prefix_trans. Qed.

Lemma endswith_length (y p : string) :
  endswith y p = true -> String.length p <= String.length y.
Proof.
  unfold endswith. intros H. apply andb_true_iff in H as [H _].
  now apply Nat.leb_le.
Qed.

(** Text with no marker at either end is left as it is. *)
Lemma clean_code_output_id (y : string) :
  startswith y "```" = false -> endswith y "```" = false ->
  clean_code_output y = y.
Proof.
  intros Hs He. unfold clean_code_output.
  destruct (startswith y "```python") eqn:Hp.
  - apply startswith_python_fence in Hp. congruence.
  - now rewrite Hs, He.
Qed.

(** A marker at either end makes the text shorter. *)
Lemma clean_code_output_shrinks (y : string) :
  startswith y "```" = true \/ endswith y "```" = true ->
  String.length (clean_code_output y) < String.length y.
Proof.
  intros H. unfold clean_code_output.
  set (c1 := if startswith y "```python" then _ else y).
  set (c2 := if startswith c1 "```" then _ else c1).
  set (c3 := if endswith c2 "```" then _ else c2).
  assert (H1 : String.length c1 <= String.length y).
  { subst c1. destruct (startswith y "```python"); [|lia].
    etransitivity; [apply length_lstrip|]. rewrite length_drop. lia. }
  assert (H2 : String.length c2 <= String.length c1).
  { subst c2. destruct (startswith c1 "```"); [|lia].
    etransitivity; [apply length_lstrip|]. rewrite length_drop. lia. }
  assert (H3 : String.length c3 <= String.length c2).
  { subst c3. destruct (endswith c2 "```"); [|lia].
    etransitivity; [apply length_rstrip|]. rewrite length_take. lia. }
  destruct (startswith y "```") eqn:Hs.
  - destruct (startswith y "```python") eqn:Hp.
    + assert (String.length c1 < String.length y); [|lia].
      subst c1. apply prefix_length in Hp.
      eapply Nat.le_lt_trans; [apply length_lstrip|].
      rewrite length_drop. simpl in *. lia.
    + assert (Hc1 : c1 = y) by reflexivity.
      assert (String.length c2 < String.length c1); [|lia].
      subst c2. rewrite Hc1, Hs. apply prefix_length in Hs.
      eapply Nat.le_lt_trans; [apply length_lstrip|].
      rewrite length_drop. simpl in *. lia.
  - destruct H as [H|He]; [discriminate|].
    assert (Hp : startswith y "```python" = false).
    { destruct (startswith y "```python") eqn:Hp; [|reflexivity].
      apply startswith_python_fence in Hp. congruence. }
    assert (Hc1 : c1 = y) by (subst c1; now rewrite Hp).
    assert (Hc2 : c2 = y) by (subst c2; now rewrite Hc1, Hs).
    subst c3. rewrite Hc2, He. apply endswith_length in He.
    eapply Nat.le_lt_trans; [apply length_rstrip|].
    rewrite length_take. simpl in *. lia.
Qed.

(** C8, as stated, fails: of two opening fences one pass removes one. *)
Lemma C8_counterexample :
  ~ (forall x : string,
        clean_code_output (clean_code_output x) = clean_code_output x).
Proof.
  intros H. specialize (H "``````a"). vm_compute in H. discriminate H.
Qed.

Lemma take_drop (n : nat) (s : string) : s = take n s ++ drop n s.
Proof.
  revert s. induction n as [|n IH]; intros s; [reflexivity|].
  destruct s as [|c s]; [reflexivity|]. cbn [take drop append]. now rewrite <- IH.
Qed.

Lemma lstrip_split (s : string) :
  exists ws, s = ws ++ lstrip s /\ all_space ws = true.
Proof.
  induction s as [|c s (ws & IH & Hws)]; [now exists ""|]. cbn [lstrip].
  destruct (isspace c) eqn:Hc.
  - exists (String c ws). cbn [append all_space]. rewrite Hc, Hws, <- IH. now split.
  - now exists "".
Qed.

Lemma lstrip_lstrip (s : string) : lstrip (lstrip s) = lstrip s.
Proof.
  induction s as [|c s IH]; [reflexivity|]. cbn [lstrip].
  destruct (isspace c) eqn:Hc; [exact IH|]. cbn [lstrip]. now rewrite Hc.
Qed.

Lemma rstrip_split (s : string) :
  exists ws, s = rstrip s ++ ws /\ all_space ws = true.
Proof.
  induction s as [|c s (ws & IH & Hws)]; [now exists ""|]. cbn [rstrip].
  destruct (rstrip s) as [|d r] eqn:Hr.
  - destruct (isspace c) eqn:Hc.
    + exists (String c s). cbn [append all_space]. rewrite Hc.
      cbn [append] in IH. rewrite IH. now split.
    + exists ws. cbn [append] in *. split; [now rewrite <- IH | exact Hws].
  - exists ws. cbn [append] in *. split; [now rewrite <- IH | exact Hws].
Qed.

Lemma rstrip_rstrip (s : string) : rstrip (rstrip s) = rstrip s.
Proof.
  induction s as [|c s IH]; [reflexivity|]. cbn [rstrip].
  destruct (rstrip s) as [|d r] eqn:Hr.
  - destruct (isspace c) eqn:Hc; [reflexivity|]. cbn [rstrip]. now rewrite Hc.
  - change (rstrip (String c (String d r)))
      with (match rstrip (String d r) with
            | EmptyString => if isspace c then EmptyString else String c EmptyString
            | String e r' => String c (String e r')
            end).
    now rewrite IH.
Qed.

(** What each of the two tests at the front does. *)
Lemma cut_front_step (marker s : string) :
  cut_front marker s
    (if startswith s marker then lstrip (drop (String.length marker) s) else s).
Proof.
  destruct (startswith s marker) eqn:Hs; [left | now right].
  destruct (lstrip_split (drop (String.length marker) s)) as (ws & Hd & Hws).
  exists ws. split; [|split; [exact Hws | apply lstrip_lstrip]].
  rewrite <- Hd. now apply prefix_split.
Qed.

(** What the test at the end does. *)
Lemma cut_back_step (marker s : string) :
  cut_back marker s
    (if endswith s marker
     then rstrip (take (String.length s - String.length marker) s) else s).
Proof.
  destruct (endswith s marker) eqn:He; [left | now right].
  unfold endswith in He. apply andb_true_iff in He as [_ He].
  apply String.eqb_eq in He.
  destruct (rstrip_split (take (String.length s - String.length marker) s))
    as (ws & Ht & Hws).
  exists ws. split; [|split; [exact Hws | apply rstrip_rstrip]].
  rewrite <- append_assoc, <- Ht.
  pose proof (take_drop (String.length s - String.length marker) s) as Htd.
  now rewrite He in Htd.
Qed.

Lemma append_inv_l (p a b : string) : p ++ a = p ++ b -> a = b.
Proof. induction p as [|c p IH]; cbn [append]; [auto|]. intros [= H]. auto. Qed.

Lemma append_inv_r (a b m : string) : a ++ m = b ++ m -> a = b.
Proof.
  revert b. induction a as [|c a IH]; intros [|d b]; cbn [append]; intros H.
  - reflexivity.
  - apply (f_equal String.length) in H. cbn in H. rewrite length_append in H. lia.
  - apply (f_equal String.length) in H. cbn in H. rewrite length_append in H. lia.
  - injection H as -> H. f_equal. auto.
Qed.

Lemma lstrip_space_app (ws t : string) :
  all_space ws = true -> lstrip (ws ++ t) = lstrip t.
Proof.
  induction ws as [|c ws IH]; [reflexivity|]. cbn [all_space append lstrip].
  intros H. apply andb_true_iff in H as [Hc H]. rewrite Hc. auto.
Qed.

Lemma rstrip_space (ws : string) : all_space ws = true -> rstrip ws = "".
Proof.
  induction ws as [|c ws IH]; [reflexivity|]. cbn [all_space rstrip].
  intros H. apply andb_true_iff in H as [Hc H]. now rewrite (IH H), Hc.
Qed.

Lemma rstrip_app_space (t ws : string) :
  all_space ws = true -> rstrip (t ++ ws) = rstrip t.
Proof.
  intros H. induction t as [|c t IH]; [now apply rstrip_space|].
  cbn [append rstrip]. now rewrite IH.
Qed.

Lemma endswith_append (a m : string) : endswith (a ++ m) m = true.
Proof.
  unfold endswith. rewrite length_append.
  replace (String.length a + String.length m - String.length m)
    with (String.length a) by lia.
  rewrite drop_append_length, String.eqb_refl.
  apply andb_true_iff. split; [apply Nat.leb_le; lia | reflexivity].
Qed.

(** The two cuts leave one result only. *)
Lemma cut_front_functional (m s t t' : string) :
  cut_front m s t -> cut_front m s t' -> t = t'.
Proof.
  intros [(ws & Hs & Hws & Ht)|[Hn ->]] [(ws' & Hs' & Hws' & Ht')|[Hn' ->]].
  - rewrite Hs in Hs'. apply append_inv_l in Hs'.
    rewrite <- Ht, <- Ht', <- (lstrip_space_app ws t Hws), Hs'.
    now apply lstrip_space_app.
  - rewrite Hs in Hn'. unfold startswith in Hn'. now rewrite prefix_append in Hn'.
  - rewrite Hs' in Hn. unfold startswith in Hn. now rewrite prefix_append in Hn.
  - reflexivity.
Qed.

Lemma cut_back_functional (m s t t' : string) :
  cut_back m s t -> cut_back m s t' -> t = t'.
Proof.
  intros [(ws & Hs & Hws & Ht)|[Hn ->]] [(ws' & Hs' & Hws' & Ht')|[Hn' ->]].
  - rewrite Hs, <- !append_assoc in Hs'. apply append_inv_r in Hs'.
    rewrite <- Ht, <- Ht', <- (rstrip_app_space t ws Hws), Hs'.
    now apply rstrip_app_space.
  - rewrite Hs, <- append_assoc, endswith_append in Hn'. discriminate.
  - rewrite Hs', <- append_assoc, endswith_append in Hn. discriminate.
  - reflexivity.
Qed.

Lemma clean_code_output_cuts (x : string) :
  exists c1 c2 : string,
    cut_front "```python" x c1
    /\ cut_front "```" c1 c2
    /\ cut_back "```" c2 (clean_code_output x).
Proof.
  unfold clean_code_output.
  eexists _, _. split; [apply cut_front_step|].
  split; [apply cut_front_step | apply cut_back_step].
Qed.

(** C8, amended. One application removes at most one leading python-tagged
    marker, then at most one leading bare marker, then at most one trailing
    marker, each with the white space next to it, and nothing else: the
    result is the one text that these three cuts leave.  A second pass
    changes nothing exactly when the first pass left no fence marker at
    either end of the text. *)
Theorem C8_clean_idempotent_iff (x : string) :
  (exists c1 c2 : string,
      cut_front "```python" x c1
      /\ cut_front "```" c1 c2
      /\ cut_back "```" c2 (clean_code_output x))
  /\ (forall c1 c2 c3 : string,
         cut_front "```python" x c1 -> cut_front "```" c1 c2 ->
         cut_back "```" c2 c3 -> c3 = clean_code_output x)
  /\ (clean_code_output (clean_code_output x) = clean_code_output x
      <-> startswith (clean_code_output x) "```" = false
          /\ endswith (clean_code_output x) "```" = false).
Proof.
  split; [apply clean_code_output_cuts|]. split.
  - intros c1 c2 c3 H1 H2 H3.
    destruct (clean_code_output_cuts x) as (d1 & d2 & G1 & G2 & G3).
    rewrite (cut_front_functional _ _ _ _ G1 H1) in G2.
    rewrite (cut_front_functional _ _ _ _ G2 H2) in G3.
    exact (cut_back_functional _ _ _ _ H3 G3).
  - split.
    + intros H.
      destruct (startswith (clean_code_output x) "```") eqn:Hs;
        [|destruct (endswith (clean_code_output x) "```") eqn:He; [|now split]].
      * pose proof (clean_code_output_shrinks (clean_code_output x) (or_introl Hs)).
        rewrite H in *. lia.
      * pose proof (clean_code_output_shrinks (clean_code_output x) (or_intror He)).
        rewrite H in *. lia.
    + intros [Hs He]. now apply clean_code_output_id.
Qed.

Lemma C8_witness :
  clean_code_output (clean_code_output ("```python" ++ nl ++ "x = 1" ++ nl ++ "```"))
  = clean_code_output ("```python" ++ nl ++ "x = 1" ++ nl ++ "```").
Proof.
  destruct (C8_clean_idempotent_iff ("```python" ++ nl ++ "x = 1" ++ nl ++ "```"))
    as (_ & _ & H).
  apply H. split; reflexivity.
Defined.

End CleanFacts.

(** ** Files *)

Module PyFacts.
Import PyStr Shape PyStrFacts Py.

Lemma update_same (fs : string -> option string) (path content : string) :
  update fs path content path = Some content.
Proof. unfold update. now rewrite String.eqb_refl. Qed.

Lemma update_other (fs : string -> option string) (path content p : string) :
  p <> path -> update fs path content p = fs p.
Proof.
  intros H. unfold update. destruct (String.eqb_spec p path); congruence.
Qed.

Lemma next_fault_calm (n : nat) (w : world) :
  calm (S n) w -> next_fault w = (NoFault, tl (faults w)).
Proof.
  intros H. unfold next_fault. specialize (H 0 (Nat.lt_0_succ n)).
  destruct (faults w) as [|f fs]; [reflexivity|]. simpl in H. now subst f.
Qed.

Lemma calm_tl (n : nat) (w w' : world) :
  calm (S n) w -> faults w' = tl (faults w) -> calm n w'.
Proof.
  intros H Hw i Hi. rewrite Hw. specialize (H (S i) (proj1 (Nat.succ_lt_mono _ _) Hi)).
  destruct (faults w) as [|f fs]; [now destruct i | exact H].
Qed.

Lemma read_text_calm (n : nat) (path raw : string) (w : world) :
  calm (S n) w -> files w path = Some raw ->
  read_text path w
  = (Ret (universal_newlines raw), World (files w) (stdout w) (tl (faults w))).
Proof.
  intros Hc Hf. unfold read_text. now rewrite (next_fault_calm n w Hc), Hf.
Qed.

Lemma read_lines_calm (n : nat) (path raw : string) (w : world) :
  calm (S n) w -> files w path = Some raw ->
  read_lines path w
  = (Ret (readlines raw), World (files w) (stdout w) (tl (faults w))).
Proof.
  intros Hc Hf. unfold read_lines, bind. now rewrite (read_text_calm n path raw w Hc Hf).
Qed.

Lemma write_text_calm (n : nat) (path text : string) (w : world) :
  calm (S n) w ->
  write_text path text w
  = (Ret tt, World (update (files w) path text) (stdout w) (tl (faults w))).
Proof.
  intros Hc. unfold write_text. now rewrite (next_fault_calm n w Hc).
Qed.

(** Whatever the fault, a write changes no other file, and leaves in the
    file what [left_by] says. *)
Lemma write_text_files (path text : string) (w : world) :
  forall p, files (snd (write_text path text w)) p
            = if String.eqb p path
              then match fst (next_fault w) with
                   | OpenFault _ => files w path
                   | f => Some (left_by f "" text)
                   end
              else files w p.
Proof.
  intros p. unfold write_text.
  destruct (next_fault w) as [[|e|k e] r]; cbn [fst snd files left_by];
    unfold update; destruct (String.eqb_spec p path); subst; reflexivity.
Qed.

Lemma read_text_files (path : string) (w : world) :
  files (snd (read_text path w)) = files w.
Proof.
  unfold read_text. destruct (next_fault w) as [[|e|k e] r]; cbn [snd files];
    [destruct (files w path)|..]; reflexivity.
Qed.

(** *** Which files a computation can change *)

Lemma frame_ret {A : Type} (path : string) (a : A) : frame path (ret a).
Proof. now intros w p _. Qed.

Lemma frame_raise {A : Type} (path : string) (e : exn) : frame path (@raise A e).
Proof. now intros w p _. Qed.

Lemma frame_print (path s : string) : frame path (print s).
Proof. now intros w p _. Qed.

Lemma frame_bind {A B : Type} (path : string) (m : M A) (k : A -> M B) :
  frame path m -> (forall a, frame path (k a)) -> frame path (bind m k).
Proof.
  intros Hm Hk w p Hp. unfold bind. specialize (Hm w p Hp).
  destruct (m w) as [[a|e] w']; cbn [snd] in *; [|exact Hm].
  now rewrite (Hk a w' p Hp).
Qed.

Lemma frame_try_except {A : Type} (path : string) (body : M A)
      (class : exn -> bool) (handler : exn -> M A) :
  frame path body -> (forall e, frame path (handler e)) ->
  frame path (try_except body class handler).
Proof.
  intros Hm Hk w p Hp. unfold try_except. specialize (Hm w p Hp).
  destruct (body w) as [[a|e] w']; cbn [snd] in *; [exact Hm|].
  destruct (class e); [|exact Hm]. now rewrite (Hk e w' p Hp).
Qed.

Lemma frame_read_text (path file : string) : frame path (read_text file).
Proof. intros w p _. now rewrite read_text_files. Qed.

Lemma frame_read_lines (path file : string) : frame path (read_lines file).
Proof.
  unfold read_lines. apply frame_bind; [apply frame_read_text|].
  intros a. apply frame_ret.
Qed.

Lemma frame_write_text (path text : string) : frame path (write_text path text).
Proof.
  intros w p Hp. rewrite write_text_files.
  destruct (String.eqb_spec p path); congruence.
Qed.

Lemma frame_write_lines (path : string) (lines : list string) :
  frame path (write_lines path lines).
Proof. apply frame_write_text. Qed.

End PyFacts.

(** ** The header rewriter *)

Module HeaderFacts.
Import PyStr Shape PyStrFacts Py PyFacts Header.

Lemma new_header_complete : Forall complete_line new_header.
Proof.
  repeat constructor; eexists; (split; [reflexivity|reflexivity]).
Qed.

Lemma rewrite_text_lines (raw : string) :
  readlines (rewrite_text raw) = rewrite_header (readlines raw).
Proof.
  unfold rewrite_text, rewrite_header. apply readlines_join.
  - apply lines_ok_app; [apply new_header_complete|].
    apply lines_ok_skipn, readlines_lines_ok.
  - apply Forall_app. split; [repeat constructor|].
    apply Forall_skipn, readlines_no_cr.
Qed.

Lemma modify_patch_file_calm (path raw : string) (w : world) :
  files w path = Some raw -> calm 2 w ->
  modify_patch_file path w
  = (Ret true,
     World (update (files w) path (rewrite_text raw))
           (stdout w ++ [("Successfully modified patch file: " ++ path)%string])%list
           (tl (tl (faults w)))).
Proof.
  intros Hf Hc. unfold modify_patch_file, try_except, bind.
  rewrite (read_lines_calm 1 path raw w Hc Hf).
  unfold write_lines. rewrite (write_text_calm 0).
  - reflexivity.
  - now apply (calm_tl 1 w).
Qed.

(** C5, as stated, fails: the header names a fixed path, whatever the
    target path is. *)
Lemma C5_counterexample :
  ~ (forall raw p : string,
        2 <= List.length (readlines raw) ->
        firstn 3 (readlines (rewrite_text raw)) = spec_canonical_header p
        /\ skipn 3 (readlines (rewrite_text raw)) = skipn 2 (readlines raw)).
Proof.
  intros H.
  destruct (H ("--- /tmp/a.py" ++ nl ++ "+++ /tmp/b.py" ++ nl) "pkg/mod.py")
    as [H1 _].
  - vm_compute. lia.
  - vm_compute in H1. discriminate H1.
Qed.

(** C5, amended. For every diff text the rewriter writes three header
    lines that name the path django/forms/widgets.py, followed by the
    lines of the input from index 2 on, unchanged; the path is fixed in the
    code and is no parameter. *)
Theorem C5_header_rewritten (path raw : string) (w : world) :
  files w path = Some raw -> calm 2 w ->
  fst (modify_patch_file path w) = Ret true
  /\ files (snd (modify_patch_file path w)) path = Some (rewrite_text raw)
  /\ firstn 3 (readlines (rewrite_text raw))
     = spec_canonical_header "django/forms/widgets.py"
  /\ skipn 3 (readlines (rewrite_text raw)) = skipn 2 (readlines raw).
Proof.
  intros Hf Hc. rewrite (modify_patch_file_calm path raw w Hf Hc).
  cbn [fst snd files]. rewrite update_same, rewrite_text_lines.
  repeat split; reflexivity.
Qed.

Lemma C5_witness :
  files (snd (modify_patch_file "results/patch.diff"
           (World (fun _ => Some ("--- /tmp/a.py" ++ nl ++ "+++ /tmp/b.py" ++ nl
                                  ++ "@@ -1 +1 @@" ++ nl ++ "-x" ++ nl ++ "+y" ++ nl))
                  [] [])))
        "results/patch.diff"
  = Some (rewrite_text ("--- /tmp/a.py" ++ nl ++ "+++ /tmp/b.py" ++ nl
                        ++ "@@ -1 +1 @@" ++ nl ++ "-x" ++ nl ++ "+y" ++ nl)).
Proof.
  apply (C5_header_rewritten "results/patch.diff" _
           (World (fun _ => Some ("--- /tmp/a.py" ++ nl ++ "+++ /tmp/b.py" ++ nl
                                  ++ "@@ -1 +1 @@" ++ nl ++ "-x" ++ nl ++ "+y" ++ nl))
                  [] [])).
  - reflexivity.
  - intros i _. now destruct i.
Defined.

End HeaderFacts.

(** ** Failing writes *)

Module PipelineFacts.
Import PyStr Shape PyStrFacts Py PyFacts Header Pipeline.

Lemma frame_remove_docstrings (path : string) :
  frame path (remove_docstrings_from_patch path).
Proof.
  unfold remove_docstrings_from_patch.
  apply frame_bind.
  - apply frame_try_except.
    + apply frame_bind; [apply frame_read_lines | intros; apply frame_ret].
    + intros e. apply frame_bind; [apply frame_print | intros; apply frame_ret].
  - intros [lines|]; [|apply frame_ret].
    apply frame_try_except.
    + apply frame_bind; [apply frame_write_lines|]. intros _.
      apply frame_bind; [apply frame_print | intros; apply frame_ret].
    + intros e. apply frame_bind; [apply frame_print | intros; apply frame_ret].
Qed.

Lemma frame_modify_patch_file (path : string) :
  frame path (modify_patch_file path).
Proof.
  unfold modify_patch_file. apply frame_try_except.
  - apply frame_bind; [apply frame_read_lines|]. intros lines.
    apply frame_bind; [apply frame_write_lines|]. intros _.
    apply frame_bind; [apply frame_print | intros; apply frame_ret].
  - intros e. apply frame_bind; [apply frame_print | intros; apply frame_ret].
Qed.

Lemma frame_generate_diff_patch (original_file fixed_file patch_file : string) :
  frame patch_file (generate_diff_patch original_file fixed_file patch_file).
Proof.
  unfold generate_diff_patch.
  apply frame_bind; [apply frame_read_lines|]. intros a.
  apply frame_bind; [apply frame_read_lines|]. intros b.
  apply frame_write_lines.
Qed.

Lemma remove_docstrings_calm (path raw : string) (w : world) :
  files w path = Some raw -> calm 2 w ->
  remove_docstrings_from_patch path w
  = (Ret true,
     World (update (files w) path (Stripper.strip_text raw))
           (stdout w ++ [("Docstrings removed from " ++ path)%string])%list
           (tl (tl (faults w)))).
Proof.
  intros Hf Hc. unfold remove_docstrings_from_patch, try_except, bind.
  rewrite (read_lines_calm 1 path raw w Hc Hf). unfold ret at 1.
  unfold write_lines. rewrite (write_text_calm 0).
  - reflexivity.
  - now apply (calm_tl 1 w).
Qed.

Lemma remove_docstrings_write_fault (path raw : string) (w : world)
      (f : fault) (rest : list fault) :
  files w path = Some raw -> faults w = NoFault :: f :: rest -> write_fails f ->
  fst (remove_docstrings_from_patch path w) = Ret false
  /\ files (snd (remove_docstrings_from_patch path w)) path
     = Some (left_by f raw (Stripper.strip_text raw)).
Proof.
  intros Hf Hw Hfail. destruct w as [fs out fl]. cbn [files faults] in Hf, Hw. subst fl.
  unfold remove_docstrings_from_patch, try_except, bind, read_lines, read_text,
    write_lines, write_text, next_fault, bind, ret, print.
  cbn [faults files stdout]. rewrite Hf.
  destruct f as [|e|k e]; cbn [write_fails] in Hfail; [contradiction|..];
    cbv beta iota zeta delta [faults files stdout]; rewrite Hfail;
    cbv beta iota zeta delta [faults files stdout fst snd left_by];
    (split; [reflexivity|]).
  - exact Hf.
  - now rewrite update_same.
Qed.

Lemma modify_patch_file_write_fault (path raw : string) (w : world)
      (f : fault) (rest : list fault) :
  files w path = Some raw -> faults w = NoFault :: f :: rest -> write_fails f ->
  fst (modify_patch_file path w) = Ret false
  /\ files (snd (modify_patch_file path w)) path
     = Some (left_by f raw (rewrite_text raw)).
Proof.
  intros Hf Hw Hfail. destruct w as [fs out fl]. cbn [files faults] in Hf, Hw. subst fl.
  unfold modify_patch_file, try_except, bind, read_lines, read_text,
    write_lines, write_text, next_fault, bind, ret, print.
  cbn [faults files stdout]. rewrite Hf.
  destruct f as [|e|k e]; cbn [write_fails] in Hfail; [contradiction|..];
    cbv beta iota zeta delta [faults files stdout]; rewrite Hfail;
    cbv beta iota zeta delta [faults files stdout fst snd left_by];
    (split; [reflexivity|]).
  - exact Hf.
  - now rewrite update_same.
Qed.

Lemma jsonl_is_not_patch : output_jsonl_path <> patch_diff_path.
Proof. discriminate. Qed.

(** When the stripper or the rewriter returns [False], the driver writes
    no JSONL file. *)
Lemma make_patch_skips_jsonl (instance_id : option string) (original : string)
      (w0 w1 : world) :
  generate_diff_patch original output_py_path patch_diff_path w0 = (Ret tt, w1) ->
  fst (remove_docstrings_from_patch patch_diff_path w1) = Ret false
  \/ (exists w2, remove_docstrings_from_patch patch_diff_path w1 = (Ret true, w2)
                 /\ fst (modify_patch_file patch_diff_path w2) = Ret false) ->
  fst (make_patch instance_id original w0) = Ret tt
  /\ files (snd (make_patch instance_id original w0)) output_jsonl_path
     = files w0 output_jsonl_path.
Proof.
  intros Hgen H.
  pose proof (frame_generate_diff_patch original output_py_path patch_diff_path
                w0 output_jsonl_path jsonl_is_not_patch) as F0.
  rewrite Hgen in F0. cbn [snd] in F0.
  pose proof (frame_remove_docstrings patch_diff_path w1 output_jsonl_path
                jsonl_is_not_patch) as F1.
  unfold make_patch, try_except, bind. rewrite Hgen.
  destruct H as [H | (w2 & H & H')].
  - destruct (remove_docstrings_from_patch patch_diff_path w1) as [r w2].
    cbn [fst snd] in *. subst r. unfold print. cbn [fst snd files].
    split; [reflexivity | congruence].
  - rewrite H in *. cbn [snd] in F1.
    pose proof (frame_modify_patch_file patch_diff_path w2 output_jsonl_path
                  jsonl_is_not_patch) as F2.
    destruct (modify_patch_file patch_diff_path w2) as [r w3].
    cbn [fst snd] in *. subst r. unfold print. cbn [fst snd files].
    split; [reflexivity | congruence].
Qed.

(** C9, as stated, fails: the file is opened for writing, which empties
    it, before anything is written; a failure after that leaves a part of
    the new content, here nothing of it. *)
Lemma C9_counterexample :
  ~ (forall (path raw : string) (w : world) (f : fault) (rest : list fault),
        files w path = Some raw -> faults w = NoFault :: f :: rest ->
        write_fails f ->
        fst (remove_docstrings_from_patch path w) = Ret false
        /\ files (snd (remove_docstrings_from_patch path w)) path = Some raw).
Proof.
  intros H.
  destruct (H "results/patch.diff" ("--- a" ++ nl ++ "+++ b" ++ nl)
              (World (fun _ => Some ("--- a" ++ nl ++ "+++ b" ++ nl)) []
                     [NoFault; MidFault 0 (OtherException "[Errno 28] No space left on device")])
              (MidFault 0 (OtherException "[Errno 28] No space left on device")) []
              eq_refl eq_refl eq_refl) as [_ H2].
  vm_compute in H2. discriminate H2.
Qed.

(** C9, amended. When the write of the patch file fails in the stripper or
    in the header rewriter, the function returns [False], and the driver
    then writes no JSONL file.  The patch file keeps its content when the
    failure is at [open]; after a failure later on it holds the part of the
    new content that was written, the old content is gone. *)
Theorem C9_failed_write (path raw : string) (w : world) (f : fault) (rest : list fault) :
  files w path = Some raw -> faults w = NoFault :: f :: rest -> write_fails f ->
  fst (remove_docstrings_from_patch path w) = Ret false
  /\ files (snd (remove_docstrings_from_patch path w)) path
     = Some (left_by f raw (Stripper.strip_text raw))
  /\ fst (modify_patch_file path w) = Ret false
  /\ files (snd (modify_patch_file path w)) path
     = Some (left_by f raw (rewrite_text raw))
  /\ (forall (instance_id : option string) (original : string) (w0 w1 : world),
         generate_diff_patch original output_py_path patch_diff_path w0 = (Ret tt, w1) ->
         fst (remove_docstrings_from_patch patch_diff_path w1) = Ret false
         \/ (exists w2,
                remove_docstrings_from_patch patch_diff_path w1 = (Ret true, w2)
                /\ fst (modify_patch_file patch_diff_path w2) = Ret false) ->
         files (snd (make_patch instance_id original w0)) output_jsonl_path
         = files w0 output_jsonl_path).
Proof.
  intros Hf Hw Hfail.
  destruct (remove_docstrings_write_fault path raw w f rest Hf Hw Hfail) as [R1 R2].
  destruct (modify_patch_file_write_fault path raw w f rest Hf Hw Hfail) as [M1 M2].
  repeat split; try assumption.
  intros instance_id original w0 w1 Hgen H.
  now apply (make_patch_skips_jsonl instance_id original w0 w1).
Qed.

Lemma C9_witness :
  fst (remove_docstrings_from_patch "results/patch.diff"
         (World (fun _ => Some ("--- a" ++ nl ++ "+++ b" ++ nl)) []
                [NoFault; OpenFault (OtherException "[Errno 13] Permission denied")]))
  = Ret false.
Proof.
  apply (C9_failed_write "results/patch.diff" ("--- a" ++ nl ++ "+++ b" ++ nl)
           (World (fun _ => Some ("--- a" ++ nl ++ "+++ b" ++ nl)) []
                  [NoFault; OpenFault (OtherException "[Errno 13] Permission denied")])
           (OpenFault (OtherException "[Errno 13] Permission denied")) []);
    reflexivity.
Defined.

End PipelineFacts.

(** ** The sequence matcher *)

Module MatcherFacts.
Import PyStr Difflib DiffShape.
Local Open Scope nat_scope.
Local Open Scope list_scope.

Section Facts.
Variables a b : list string.

Lemma setdefault_append_ok (m : b2j_t) (x : string) (i : nat) :
  b2j_ok b m -> i < List.length b -> nth i b EmptyString = x ->
  b2j_ok b (setdefault_append m x i).
Proof.
  intros Hm Hi Hx. induction Hm as [|[y js] m Hy Hm IH]; cbn [setdefault_append].
  - repeat constructor; assumption.
  - destruct (String.eqb_spec y x) as [->|Hne].
    + constructor; [|exact Hm]. cbn [fst snd] in *.
      apply Forall_app. split; [exact Hy|]. repeat constructor; assumption.
    + constructor; assumption.
Qed.

Lemma chain_b_fold_ok (l : list string) (start : nat) (m : b2j_t) :
  (forall idx, idx < List.length l ->
               nth (start + idx) b EmptyString = nth idx l EmptyString) ->
  start + List.length l <= List.length b ->
  b2j_ok b m ->
  b2j_ok b (fold_left (fun m ie => setdefault_append m (snd ie) (fst ie))
                      (combine (seq start (List.length l)) l) m).
Proof.
  revert start m. induction l as [|x l IH]; intros start m Hnth Hlen Hm; [exact Hm|].
  cbn [List.length seq combine fold_left fst snd]. apply IH.
  - intros idx Hidx. replace (S start + idx) with (start + S idx) by lia.
    apply (Hnth (S idx)). simpl. lia.
  - simpl in Hlen. lia.
  - apply setdefault_append_ok; [exact Hm | simpl in Hlen; lia |].
    rewrite <- (Nat.add_0_r start). apply (Hnth 0). simpl. lia.
Qed.

Lemma chain_b_ok : b2j_ok b (chain_b b).
Proof.
  assert (H : b2j_ok b (fold_left (fun m ie => setdefault_append m (snd ie) (fst ie))
                                  (enumerate b) [])).
  { unfold enumerate. apply chain_b_fold_ok; [reflexivity | lia | constructor]. }
  unfold chain_b. destruct (200 <=? List.length b); [|exact H].
  unfold b2j_ok in *. rewrite Forall_forall in *.
  intros kv Hkv. apply filter_In in Hkv as [Hkv _]. now apply H.
Qed.

Lemma b2j_get_ok (m : b2j_t) (x : string) (j : nat) :
  b2j_ok b m -> In j (b2j_get m x) ->
  j < List.length b /\ b_at b j = x.
Proof.
  intros Hm. induction Hm as [|[y js] m Hy Hm IH]; cbn [b2j_get]; [contradiction|].
  destruct (String.eqb_spec y x) as [->|Hne]; [|exact IH].
  intros Hj. cbn [fst snd] in Hy. rewrite Forall_forall in Hy. now apply Hy.
Qed.

Lemma dict_get_cons {V : Type} (d : list (nat * V)) (j j' : nat) (v : V) :
  dict_get ((j, v) :: d) j' = if Nat.eqb j j' then Some v else dict_get d j'.
Proof. reflexivity. Qed.

Section Rectangle.
Variables alo ahi blo bhi : nat.

Lemma flm_inner_ok (i : nat) (j2len : list (nat * nat)) (js : list nat)
      (newj2len : list (nat * nat)) (best : Match) :
  alo <= i -> i < ahi ->
  (forall j, In j js -> b_at b j = a_at a i) ->
  j2len_ok a b alo ahi blo bhi i j2len ->
  j2len_ok a b alo ahi blo bhi (S i) newj2len ->
  valid_match a b alo ahi blo bhi best ->
  j2len_ok a b alo ahi blo bhi (S i) (fst (flm_inner blo bhi i j2len js newj2len best))
  /\ valid_match a b alo ahi blo bhi (snd (flm_inner blo bhi i j2len js newj2len best)).
Proof.
  intros Hlo Hhi. revert newj2len best.
  induction js as [|j js IH]; intros newj2len best Hjs Hold Hnew Hbest;
    cbn [flm_inner]; [now split|].
  assert (Hjs' : forall j', In j' js -> b_at b j' = a_at a i)
    by (intros j' Hj'; apply Hjs; now right).
  destruct (Nat.ltb_spec j blo) as [Hjlo|Hjlo]; [now apply IH|].
  destruct (Nat.leb_spec bhi j) as [Hjhi|Hjhi]; [now split|].
  destruct best as [[besti bestj] bestsize].
  set (k := j2len_prev j2len j + 1).
  assert (Hk : 1 <= k /\ alo + k <= S i /\ blo + k <= j + 1
               /\ forall t, t < k -> a_at a (S i - k + t) = b_at b (j + 1 - k + t)).
  { subst k. unfold j2len_prev. destruct j as [|j'].
    - repeat split; try lia. intros t Ht. replace t with 0 by lia.
      cbn [Nat.add]. replace (S i - 1 + 0) with i by lia.
      symmetry. apply Hjs. now left.
    - destruct (dict_get j2len j') as [p|] eqn:Hp.
      + destruct (Hold j' p Hp) as (Hp1 & Hp2 & Hp3 & _ & _ & Hp6).
        repeat split; try lia. intros t Ht.
        destruct (Nat.eq_dec t p) as [->|Hne].
        * replace (S i - (p + 1) + p) with i by lia.
          replace (S j' + 1 - (p + 1) + p) with (S j') by lia.
          symmetry. apply Hjs. now left.
        * replace (S i - (p + 1) + t) with (i - p + t) by lia.
          replace (S j' + 1 - (p + 1) + t) with (j' + 1 - p + t) by lia.
          apply Hp6. lia.
      + repeat split; try lia. intros t Ht. replace t with 0 by lia.
        replace (S i - (0 + 1) + 0) with i by lia.
        replace (S j' + 1 - (0 + 1) + 0) with (S j') by lia.
        symmetry. apply Hjs. now left. }
  destruct Hk as (Hk1 & Hk2 & Hk3 & Hk4).
  apply IH; [exact Hjs' | exact Hold | |].
  - intros j0 k0. rewrite dict_get_cons.
    destruct (Nat.eqb_spec j j0) as [->|Hne]; [|apply Hnew].
    intros [= <-]. repeat split; try lia. exact Hk4.
  - destruct (Nat.ltb_spec bestsize k); [|exact Hbest].
    cbn [valid_match]. repeat split; try lia.
    intros t Ht. replace (i + 1 - k + t) with (S i - k + t) by lia. now apply Hk4.
Qed.

Lemma flm_outer_ok (n i : nat) (st : list (nat * nat) * Match) :
  alo <= i -> i + n <= ahi ->
  j2len_ok a b alo ahi blo bhi i (fst st) ->
  valid_match a b alo ahi blo bhi (snd st) ->
  valid_match a b alo ahi blo bhi
    (snd (fold_left (flm_outer a b blo bhi) (seq i n) st)).
Proof.
  revert i st. induction n as [|n IH]; intros i [j2len best] Hlo Hhi Hd Hbest;
    [exact Hbest|].
  cbn [seq fold_left flm_outer fst snd] in *.
  destruct (flm_inner_ok i j2len (b2j_get (b2j b) (a_at a i)) [] best) as [H1 H2];
    try assumption; try lia.
  - intros j Hj. now apply (b2j_get_ok (b2j b)) in Hj as [_ Hj]; [|apply chain_b_ok].
  - intros j k. discriminate.
  - apply IH; try lia; assumption.
Qed.

Lemma extend_down_ok (junk : bool) (besti bestj bestsize : nat) :
  valid_match a b alo ahi blo bhi (besti, bestj, bestsize) ->
  valid_match a b alo ahi blo bhi (extend_down a b junk alo blo besti bestj bestsize).
Proof.
  revert bestj bestsize. induction besti as [|besti IH]; intros bestj bestsize H;
    cbn [extend_down]; [exact H|].
  destruct (_ && _) eqn:Hc; [|exact H].
  apply andb_true_iff in Hc as [Hc Heq]. apply andb_true_iff in Hc as [Hc _].
  apply andb_true_iff in Hc as [Hc1 Hc2].
  apply Nat.ltb_lt in Hc1, Hc2. apply String.eqb_eq in Heq.
  destruct H as (H1 & H2 & H3 & H4 & H5).
  apply IH. cbn [valid_match]. repeat split; try lia.
  intros t Ht. destruct t as [|t].
  - now rewrite !Nat.add_0_r.
  - replace (besti + S t) with (S besti + t) by lia.
    replace (bestj - 1 + S t) with (bestj + t) by lia. apply H5. lia.
Qed.

Lemma extend_up_ok (fuel : nat) (junk : bool) (besti bestj bestsize : nat) :
  valid_match a b alo ahi blo bhi (besti, bestj, bestsize) ->
  valid_match a b alo ahi blo bhi (extend_up a b fuel junk ahi bhi besti bestj bestsize).
Proof.
  revert bestsize. induction fuel as [|fuel IH]; intros bestsize H;
    cbn [extend_up]; [exact H|].
  destruct (_ && _) eqn:Hc; [|exact H].
  apply andb_true_iff in Hc as [Hc Heq]. apply andb_true_iff in Hc as [Hc _].
  apply andb_true_iff in Hc as [Hc1 Hc2].
  apply Nat.ltb_lt in Hc1, Hc2. apply String.eqb_eq in Heq.
  destruct H as (H1 & H2 & H3 & H4 & H5).
  apply IH. cbn [valid_match]. repeat split; try lia.
  intros t Ht. destruct (Nat.eq_dec t bestsize) as [->|Hne]; [exact Heq|].
  apply H5. lia.
Qed.

(** [find_longest_match] returns a match inside its rectangle. *)
Lemma find_longest_match_ok :
  alo <= ahi -> blo <= bhi ->
  valid_match a b alo ahi blo bhi (find_longest_match a b alo ahi blo bhi).
Proof.
  intros Ha Hb. unfold find_longest_match.
  pose proof (flm_outer_ok (ahi - alo) alo ([], (alo, blo, 0))) as H.
  destruct (fold_left _ _ _) as [d [[besti bestj] bestsize]].
  cbn [fst snd] in H.
  assert (H0 : valid_match a b alo ahi blo bhi (besti, bestj, bestsize)).
  { apply H; try lia.
    - intros j k. discriminate.
    - cbn. repeat split; try lia. }
  clear H. apply (extend_down_ok false) in H0.
  destruct (extend_down a b false alo blo besti bestj bestsize) as [[i1 j1] k1].
  apply (extend_up_ok (ahi - (i1 + k1)) false) in H0.
  destruct (extend_up a b (ahi - (i1 + k1)) false ahi bhi i1 j1 k1) as [[i2 j2] k2].
  apply (extend_down_ok true) in H0.
  destruct (extend_down a b true alo blo i2 j2 k2) as [[i3 j3] k3].
  now apply extend_up_ok.
Qed.

End Rectangle.

(** *** Lists with a relation between any two elements *)

Lemma pairwise_app {A : Type} (R : A -> A -> Prop) (l1 l2 : list A) :
  pairwise R (l1 ++ l2)
  <-> pairwise R l1 /\ pairwise R l2 /\ (forall x y, In x l1 -> In y l2 -> R x y).
Proof.
  induction l1 as [|x l1 IH]; cbn [app pairwise].
  - split; [intros H; repeat split; auto; intros x y [] | tauto].
  - rewrite Forall_app, IH. split.
    + intros [[H1 H2] (H3 & H4 & H5)]. repeat split; auto.
      intros x' y [<-|Hx] Hy; [|now apply H5].
      rewrite Forall_forall in H2. now apply H2.
    + intros ([H1 H2] & H3 & H4). repeat split; auto.
      * rewrite Forall_forall. intros y Hy. apply H4; [now left | exact Hy].
      * intros x' y Hx Hy. apply H4; [now right | exact Hy].
Qed.

Lemma pairwise_perm {A : Type} (R : A -> A -> Prop) (l l' : list A) :
  (forall x y, R x y -> R y x) ->
  Permutation l l' -> pairwise R l -> pairwise R l'.
Proof.
  intros Hsym Hp. induction Hp as [|x l l' Hp IH|x y l|l l' l'' _ IH1 _ IH2].
  - trivial.
  - intros [H1 H2]. split; [|now apply IH]. now rewrite <- Hp.
  - intros [H1 [H2 H3]]. inversion H1; subst.
    repeat split; try assumption. constructor; [now apply Hsym | assumption].
  - auto.
Qed.

Lemma apart_sym (x y : rect) : apart x y -> apart y x.
Proof. unfold apart. tauto. Qed.

Lemma apart_inside (r x y : rect) : apart r y -> inside r x -> apart x y.
Proof.
  destruct r as [[[alo ahi] blo] bhi], x as [[[xlo xhi] ylo] yhi],
           y as [[[zlo zhi] wlo] whi].
  unfold apart, before, inside. lia.
Qed.

(** *** The loop of [get_matching_blocks] *)

Lemma mb_loop_ok (fuel : nat) (queue : list rect) (acc : list Match) :
  Forall (rect_ok a b) queue -> Forall (block_ok a b) acc ->
  pairwise apart (queue ++ map rect_of_block acc) ->
  queue_measure queue < fuel ->
  exists res, mb_loop a b fuel queue acc = Some res
              /\ Forall (block_ok a b) res
              /\ pairwise apart (map rect_of_block res).
Proof.
  revert queue acc. induction fuel as [|fuel IH]; intros queue acc Hq Hacc Hpw Hm; [lia|].
  destruct queue as [|[[[alo ahi] blo] bhi] queue]; cbn [mb_loop].
  - exists acc. auto.
  - inversion Hq as [|r q Hr Hq']; subst. destruct Hr as (Hr1 & Hr2 & Hr3 & Hr4).
    pose proof (find_longest_match_ok alo ahi blo bhi Hr1 Hr3) as Hv.
    destruct (find_longest_match a b alo ahi blo bhi) as [[i j] k].
    destruct Hv as (Hv1 & Hv2 & Hv3 & Hv4 & Hv5).
    cbn [queue_measure fold_right] in Hm. fold (queue_measure queue) in Hm.
    cbn [app pairwise] in Hpw. destruct Hpw as [Hr Hpw].
    destruct (Nat.eqb_spec k 0) as [->|Hk].
    + apply IH; try assumption. lia.
    + set (L := if (alo <? i) && (blo <? j) then [(alo, i, blo, j)] else []).
      set (R := if (i + k <? ahi) && (j + k <? bhi) then [(i + k, ahi, j + k, bhi)] else []).
      assert (Hqueue :
                (if (i + k <? ahi) && (j + k <? bhi)
                 then (i + k, ahi, j + k, bhi)
                        :: (if (alo <? i) && (blo <? j)
                            then (alo, i, blo, j) :: queue else queue)
                 else if (alo <? i) && (blo <? j)
                      then (alo, i, blo, j) :: queue else queue)
                = R ++ L ++ queue).
      { subst L R. destruct ((i + k <? ahi) && (j + k <? bhi));
          destruct ((alo <? i) && (blo <? j)); reflexivity. }
      rewrite Hqueue. clear Hqueue.
      assert (HL : Forall (fun x => rect_ok a b x /\ inside (alo, ahi, blo, bhi) x
                                    /\ before x (rect_of_block (i, j, k))) L).
      { subst L. destruct ((alo <? i) && (blo <? j));
          [apply Forall_cons; [cbn; lia|]|]; apply Forall_nil. }
      assert (HR : Forall (fun x => rect_ok a b x /\ inside (alo, ahi, blo, bhi) x
                                    /\ before (rect_of_block (i, j, k)) x) R).
      { subst R. destruct ((i + k <? ahi) && (j + k <? bhi));
          [apply Forall_cons; [cbn; lia|]|]; apply Forall_nil. }
      assert (HLR : forall x y, In x L -> In y R -> before x y).
      { subst L R. intros x y Hx Hy.
        destruct ((alo <? i) && (blo <? j)); [|contradiction].
        destruct ((i + k <? ahi) && (j + k <? bhi)); [|contradiction].
        destruct Hx as [<-|[]]. destruct Hy as [<-|[]]. cbn. lia. }
      rewrite Forall_forall in HL, HR.
      apply IH.
      * apply Forall_app. split; [|apply Forall_app; split; [|assumption]];
          rewrite Forall_forall; intros x Hx;
          [exact (proj1 (HR x Hx)) | exact (proj1 (HL x Hx))].
      * apply Forall_app. split; [assumption|].
        apply Forall_cons; [|apply Forall_nil].
        split; [cbn; lia|]. cbn. repeat split; try lia. exact Hv5.
      * rewrite map_app. cbn [map].
        apply (pairwise_perm apart
                 ((R ++ L ++ [rect_of_block (i, j, k)]) ++ (queue ++ map rect_of_block acc)));
          [exact apart_sym | |].
        { rewrite <- !app_assoc. apply Permutation_app_head, Permutation_app_head.
          cbn [app]. rewrite !app_assoc. apply Permutation_cons_append. }
        apply pairwise_app. split; [|split; [exact Hpw|]].
        -- apply pairwise_app. split; [|split].
           ++ subst R. destruct ((i + k <? ahi) && (j + k <? bhi)); cbn; auto.
           ++ apply pairwise_app. split; [|split].
              ** subst L. destruct ((alo <? i) && (blo <? j)); cbn; auto.
              ** cbn. auto.
              ** intros x y Hx [<-|[]]. left. exact (proj2 (proj2 (HL x Hx))).
           ++ intros x y Hx Hy. apply in_app_or in Hy as [Hy|[<-|[]]].
              ** right. now apply HLR.
              ** right. exact (proj2 (proj2 (HR x Hx))).
        -- intros x y Hx Hy. rewrite Forall_forall in Hr.
           apply (apart_inside (alo, ahi, blo, bhi)); [now apply Hr|].
           apply in_app_or in Hx as [Hx|Hx]; [exact (proj1 (proj2 (HR x Hx)))|].
           apply in_app_or in Hx as [Hx|[<-|[]]]; [exact (proj1 (proj2 (HL x Hx)))|].
           cbn. lia.
      * assert (queue_measure (R ++ L ++ queue)
                <= 2 * (ahi - (i + k)) + 1 + (2 * (i - alo) + 1) + queue_measure queue).
        { subst L R. destruct ((i + k <? ahi) && (j + k <? bhi));
            destruct ((alo <? i) && (blo <? j));
            cbn [app queue_measure fold_right]; fold (queue_measure queue); lia. }
        lia.
Qed.

(** *** Sorting the blocks *)

Lemma sort_insert_perm (x : Match) (l : list Match) :
  Permutation (sort_insert x l) (x :: l).
Proof.
  induction l as [|y l IH]; cbn [sort_insert]; [reflexivity|].
  destruct (match_leb x y); [reflexivity|].
  rewrite IH. apply perm_swap.
Qed.

Lemma sorted_perm (l : list Match) : Permutation (sorted l) l.
Proof.
  induction l as [|x l IH]; cbn [sorted fold_right]; [reflexivity|].
  fold (sorted l). now rewrite sort_insert_perm, IH.
Qed.

Lemma match_leb_first (x y : Match) : match_leb x y = true -> first_le x y.
Proof.
  destruct x as [[i1 j1] k1], y as [[i2 j2] k2]. unfold match_leb, first_le.
  cbn [fst]. destruct (Nat.ltb_spec i1 i2); [lia|].
  destruct (Nat.eqb_spec i1 i2); [lia | discriminate].
Qed.

Lemma match_leb_false_first (x y : Match) : match_leb x y = false -> first_le y x.
Proof.
  destruct x as [[i1 j1] k1], y as [[i2 j2] k2]. unfold match_leb, first_le.
  cbn [fst]. destruct (Nat.ltb_spec i1 i2); [discriminate | lia].
Qed.

Lemma sort_insert_first (x : Match) (l : list Match) :
  pairwise first_le l -> pairwise first_le (sort_insert x l).
Proof.
  induction l as [|y l IH]; cbn [sort_insert pairwise]; [auto|].
  intros [Hy Hl]. destruct (match_leb x y) eqn:Hxy; cbn [pairwise].
  - apply match_leb_first in Hxy. repeat split; try assumption.
    constructor; [exact Hxy|]. rewrite Forall_forall in *.
    intros z Hz. specialize (Hy z Hz). unfold first_le in *. lia.
  - apply match_leb_false_first in Hxy. split; [|now apply IH].
    apply (Permutation_Forall (Permutation_sym (sort_insert_perm x l))).
    now constructor.
Qed.

Lemma sorted_first (l : list Match) : pairwise first_le (sorted l).
Proof.
  induction l as [|x l IH]; cbn [sorted fold_right]; [exact I|].
  now apply sort_insert_first.
Qed.

(** Blocks that are apart and sorted on their first index are in order in
    both sequences. *)
Lemma sorted_apart_chain (l : list Match) :
  pairwise first_le l -> pairwise apart (map rect_of_block l) ->
  Forall (block_ok a b) l -> pairwise block_before l.
Proof.
  induction l as [|x l IH]; cbn [map pairwise]; [auto|].
  intros [Hx Hl] [Ax Al] Hok. inversion Hok as [|? ? Hxok Hlok]; subst.
  split; [|now apply IH].
  rewrite Forall_forall in *. intros y Hy.
  specialize (Hx y Hy). specialize (Ax (rect_of_block y) (in_map _ _ _ Hy)).
  specialize (Hlok y Hy).
  destruct x as [[i1 j1] k1], y as [[i2 j2] k2].
  destruct Hlok as [Hk _]. unfold first_le, apart, before, rect_of_block in *.
  cbn [fst snd] in *. cbn. lia.
Qed.

(** *** Collapsing adjacent blocks *)

Lemma collapse_fold_ok (rest : list Match) (cur : Match) (out : list Match) :
  block_ok0 a b cur ->
  Forall (block_ok a b) out -> pairwise block_before out ->
  Forall (fun x => block_before x cur) out ->
  Forall (block_ok a b) rest -> pairwise block_before rest ->
  Forall (block_before cur) rest ->
  block_ok0 a b (fst (fold_left collapse_step rest (cur, out)))
  /\ Forall (block_ok a b) (snd (fold_left collapse_step rest (cur, out)))
  /\ pairwise block_before (snd (fold_left collapse_step rest (cur, out)))
  /\ Forall (fun x => block_before x (fst (fold_left collapse_step rest (cur, out))))
            (snd (fold_left collapse_step rest (cur, out))).
Proof.
  revert cur out. induction rest as [|x rest IH];
    intros [[i1 j1] k1] out Hcur Hout Hchain Hbefore Hrest Hrchain Hafter.
  - cbn [fold_left]. auto.
  - cbn [fold_left collapse_step]. destruct x as [[i2 j2] k2].
    inversion Hrest as [|? ? [Hk2 Hx] Hrest']; subst.
    inversion Hafter as [|? ? Hcx Hafter']; subst.
    destruct Hrchain as [Hxrest Hrchain].
    destruct Hcur as (Hc1 & Hc2 & Hc3). destruct Hx as (Hx1 & Hx2 & Hx3).
    cbn [snd] in Hk2. cbn [block_before] in Hcx.
    destruct (Nat.eqb_spec (i1 + k1) i2) as [Hi|Hi];
      [destruct (Nat.eqb_spec (j1 + k1) j2) as [Hj|Hj]|]; cbn [andb].
    + apply IH; try assumption.
      * repeat split; try lia. intros t Ht.
        destruct (Nat.lt_ge_cases t k1) as [Hlt|Hge]; [now apply Hc3|].
        replace (i1 + t) with (i2 + (t - k1)) by lia.
        replace (j1 + t) with (j2 + (t - k1)) by lia. apply Hx3. lia.
      * rewrite Forall_forall in *. intros y Hy. specialize (Hxrest y Hy).
        destruct y as [[i3 j3] k3]. cbn [block_before] in *. lia.
    + apply IH; try assumption.
      * repeat split; assumption.
      * destruct (Nat.eqb_spec k1 0); [assumption|].
        apply Forall_app. split; [assumption|].
        constructor; [|constructor]. split; [cbn; lia|]. repeat split; assumption.
      * destruct (Nat.eqb_spec k1 0); [assumption|].
        apply pairwise_app. split; [assumption | split; [cbn; auto|]].
        intros y z Hy [<-|[]]. rewrite Forall_forall in Hbefore. now apply Hbefore.
      * assert (H0 : Forall (fun y => block_before y (i2, j2, k2)) out).
        { rewrite Forall_forall in *. intros y Hy. specialize (Hbefore y Hy).
          destruct y as [[i3 j3] k3]. cbn [block_before] in *. lia. }
        destruct (Nat.eqb_spec k1 0); [assumption|].
        apply Forall_app. split; [assumption|]. constructor; [|constructor].
        cbn. lia.
    + apply IH; try assumption.
      * repeat split; assumption.
      * destruct (Nat.eqb_spec k1 0); [assumption|].
        apply Forall_app. split; [assumption|].
        constructor; [|constructor]. split; [cbn; lia|]. repeat split; assumption.
      * destruct (Nat.eqb_spec k1 0); [assumption|].
        apply pairwise_app. split; [assumption | split; [cbn; auto|]].
        intros y z Hy [<-|[]]. rewrite Forall_forall in Hbefore. now apply Hbefore.
      * assert (H0 : Forall (fun y => block_before y (i2, j2, k2)) out).
        { rewrite Forall_forall in *. intros y Hy. specialize (Hbefore y Hy).
          destruct y as [[i3 j3] k3]. cbn [block_before] in *. lia. }
        destruct (Nat.eqb_spec k1 0); [assumption|].
        apply Forall_app. split; [assumption|]. constructor; [|constructor].
        cbn. lia.
Qed.

Lemma collapse_ok (l : list Match) :
  Forall (block_ok a b) l -> pairwise block_before l ->
  Forall (block_ok a b) (collapse l) /\ pairwise block_before (collapse l).
Proof.
  intros Hl Hc. unfold collapse.
  destruct (collapse_fold_ok l (0, 0, 0) []) as (H1 & H2 & H3 & H4);
    try assumption; try (now constructor).
  - cbn. repeat split; try lia.
  - rewrite Forall_forall. intros [[i j] k] _. cbn. lia.
  - match type of H2 with
    | Forall _ (snd ?r) =>
        match goal with
        | |- context [fold_left collapse_step l ?x] =>
            change (fold_left collapse_step l x) with r
        end;
        destruct r as [[[i1 j1] k1] out]
    end.
    cbn [fst snd] in *. destruct (Nat.eqb_spec k1 0); [split; assumption|]. split.
    + apply Forall_app. split; [assumption|]. constructor; [|constructor].
      split; [cbn; lia | assumption].
    + apply pairwise_app. split; [assumption | split; [cbn; auto|]].
      intros y z Hy [<-|[]]. rewrite Forall_forall in H4. now apply H4.
Qed.

(** [get_matching_blocks] ends, and returns blocks of equal elements, in
    order, followed by the sentinel. *)
Lemma get_matching_blocks_ok :
  exists l, get_matching_blocks a b = l ++ [(List.length a, List.length b, 0)]
            /\ Forall (block_ok a b) l /\ pairwise block_before l.
Proof.
  unfold get_matching_blocks.
  destruct (mb_loop_ok (2 * List.length a + 2)
              [(0, List.length a, 0, List.length b)] []) as (res & -> & Hok & Hap).
  - constructor; [cbn; lia | constructor].
  - constructor.
  - cbn. auto.
  - cbn. lia.
  - exists (collapse (sorted res)). split; [reflexivity|].
    apply collapse_ok.
    + apply (Permutation_Forall (Permutation_sym (sorted_perm res))), Hok.
    + apply sorted_apart_chain.
      * apply sorted_first.
      * apply (pairwise_perm apart (map rect_of_block res)); [exact apart_sym | |exact Hap].
        apply Permutation_map, Permutation_sym, sorted_perm.
      * apply (Permutation_Forall (Permutation_sym (sorted_perm res))), Hok.
Qed.

(** *** Opcodes *)

Lemma covers_snoc (i j : nat) (ops : list opcode) (t : tag) (m i2 n j2 : nat) :
  covers a b i j ops m n -> op_ok a b (t, m, i2, n, j2) ->
  covers a b i j (ops ++ [(t, m, i2, n, j2)]) i2 j2.
Proof.
  revert i j. induction ops as [|[[[[t' i1] i2'] j1] j2'] ops IH]; intros i j H Hc.
  - destruct H as [-> ->]. cbn [app covers]. auto.
  - destruct H as (-> & -> & Hok & H). cbn [app covers].
    split; [reflexivity | split; [reflexivity | split; [exact Hok | now apply IH]]].
Qed.

Lemma opcodes_fold_ok (blocks : list Match) (i j : nat) (answer : list opcode) :
  Forall (block_ok0 a b) blocks -> pairwise block_before blocks ->
  Forall (fun m => i <= fst (fst m) /\ j <= snd (fst m)) blocks ->
  i <= List.length a -> j <= List.length b ->
  covers a b 0 0 answer i j ->
  let r := fold_left opcodes_step blocks (i, j, answer) in
  covers a b 0 0 (snd r) (fst (fst r)) (snd (fst r))
  /\ (blocks = [] \/ exists m, last blocks (0, 0, 0) = m
                               /\ fst (fst r) = fst (fst m) + snd m
                               /\ snd (fst r) = snd (fst m) + snd m).
Proof.
  revert i j answer. induction blocks as [|[[ai bj] size] blocks IH];
    intros i j answer Hok Hchain Hge Hi Hj Hcov; cbn zeta.
  - cbn [fold_left fst snd]. auto.
  - cbn [fold_left opcodes_step].
    inversion Hok as [|? ? Hb Hok']; subst.
    unfold block_ok0 in Hb. destruct Hb as (Hb1 & Hb2 & Hb3).
    inversion Hge as [|? ? Hg Hge']; subst. cbn beta in Hg.
    destruct Hg as [Hg1 Hg2]. cbn [fst snd] in Hg1, Hg2.
    destruct Hchain as [Hnext Hchain].
    set (answer1 := match (if (i <? ai) && (j <? bj) then Some Replace
                           else if i <? ai then Some Delete
                                else if j <? bj then Some Insert else None) with
                    | Some t => answer ++ [(t, i, ai, j, bj)]
                    | None => answer
                    end).
    assert (H1 : covers a b 0 0 answer1 ai bj).
    { subst answer1.
      destruct (Nat.ltb_spec i ai); destruct (Nat.ltb_spec j bj); cbn [andb].
      - apply covers_snoc; [assumption|]. cbn. repeat split; lia.
      - apply covers_snoc; [assumption|]. cbn. repeat split; lia.
      - apply covers_snoc; [assumption|]. cbn. repeat split; lia.
      - replace ai with i by lia. replace bj with j by lia. exact Hcov. }
    set (answer2 := if size =? 0 then answer1
                    else answer1 ++ [(Equal, ai, ai + size, bj, bj + size)]).
    assert (H2 : covers a b 0 0 answer2 (ai + size) (bj + size)).
    { subst answer2. destruct (Nat.eqb_spec size 0) as [->|Hs].
      - now rewrite !Nat.add_0_r.
      - apply covers_snoc; [assumption|].
        cbn. repeat split; try lia. intros t Ht. apply Hb3. lia. }
    destruct (IH (ai + size) (bj + size) answer2) as [IH1 IH2]; try assumption; try lia.
    { rewrite Forall_forall in *. intros [[i3 j3] k3] Hm. specialize (Hnext _ Hm).
      cbn in *. lia. }
    split; [exact IH1|]. right.
    destruct blocks as [|m' blocks'].
    + exists (ai, bj, size). cbn [fold_left fst snd last]. auto.
    + destruct IH2 as [IH2 | (m & Hm & Hm1 & Hm2)]; [discriminate|].
      exists m. split; [|split; assumption]. exact Hm.
Qed.

(** [get_opcodes] describes [a] and [b] from their start to their end. *)
Lemma get_opcodes_ok :
  covers a b 0 0 (get_opcodes a b) (List.length a) (List.length b).
Proof.
  unfold get_opcodes.
  destruct get_matching_blocks_ok as (l & -> & Hok & Hchain).
  destruct (opcodes_fold_ok (l ++ [(List.length a, List.length b, 0)]) 0 0 [])
    as [H1 H2].
  - apply Forall_app. split.
    + rewrite Forall_forall in *. intros m Hm. now apply Hok.
    + constructor; [|constructor]. cbn. repeat split; lia.
  - apply pairwise_app. split; [assumption | split; [cbn; auto|]].
    intros x y Hx [<-|[]]. rewrite Forall_forall in Hok.
    destruct x as [[i j] k]. destruct (Hok _ Hx) as [_ Hx0].
    unfold block_ok0 in Hx0. cbn. lia.
  - rewrite Forall_forall. intros m _. lia.
  - lia.
  - lia.
  - cbn. auto.
  - cbn zeta in H1, H2.
    destruct (fold_left opcodes_step _ _) as [[i j] answer]. cbn [fst snd] in *.
    destruct H2 as [H2 | (m & Hm & Hm1 & Hm2)].
    + now destruct l.
    + rewrite last_last in Hm. subst m. cbn [fst snd] in *.
      rewrite Nat.add_0_r in Hm1, Hm2. now subst.
Qed.

(** *** Groups of opcodes *)

Lemma same_range_refl (i j : nat) :
  i <= List.length a -> j <= List.length b -> same_range a b i i j j.
Proof. intros Hi Hj. unfold same_range. repeat split; try lia. Qed.

Lemma same_range_trans (i1 i2 i3 j1 j2 j3 : nat) :
  same_range a b i1 i2 j1 j2 -> same_range a b i2 i3 j2 j3 ->
  same_range a b i1 i3 j1 j3.
Proof.
  intros (H1 & H2 & H3 & H4 & H5 & H6) (G1 & G2 & G3 & G4 & G5 & G6).
  unfold same_range. repeat split; try lia.
  intros t Ht. destruct (Nat.lt_ge_cases t (i2 - i1)) as [Hlt|Hge]; [now apply H6|].
  replace (i1 + t) with (i2 + (t - (i2 - i1))) by lia.
  replace (j1 + t) with (j2 + (t - (i2 - i1))) by lia. apply G6. lia.
Qed.

Lemma same_range_split (i1 i2 j1 j2 d : nat) :
  same_range a b i1 i2 j1 j2 -> d <= i2 - i1 ->
  same_range a b i1 (i1 + d) j1 (j1 + d)
  /\ same_range a b (i1 + d) i2 (j1 + d) j2.
Proof.
  intros (H1 & H2 & H3 & H4 & H5 & H6) Hd. unfold same_range.
  repeat split; try lia.
  - intros t Ht. apply H6. lia.
  - intros t Ht. rewrite <- !Nat.add_assoc. apply H6. lia.
Qed.

Lemma hunks_then_mono (P Q : nat -> nat -> Prop) (i j : nat)
      (groups : list (list opcode)) :
  (forall i' j', P i' j' -> Q i' j') ->
  hunks_then a b P i j groups -> hunks_then a b Q i j groups.
Proof.
  intros HPQ. revert i j. induction groups as [|g gs IH]; intros i j; cbn [hunks_then].
  - apply HPQ.
  - intros (gi & gj & ge & gje & H1 & H2 & H3 & H4).
    exists gi, gj, ge, gje.
    split; [exact H1 | split; [exact H2 | split; [exact H3 | now apply IH]]].
Qed.

Lemma hunks_then_app (P : nat -> nat -> Prop) (i j : nat)
      (l1 l2 : list (list opcode)) :
  hunks_then a b (fun i' j' => hunks_then a b P i' j' l2) i j l1 ->
  hunks_then a b P i j (l1 ++ l2).
Proof.
  revert i j. induction l1 as [|g gs IH]; intros i j; cbn [hunks_then app].
  - trivial.
  - intros (gi & gj & ge & gje & H1 & H2 & H3 & H4).
    exists gi, gj, ge, gje.
    split; [exact H1 | split; [exact H2 | split; [exact H3 | now apply IH]]].
Qed.

Lemma covers_bounds (i j : nat) (ops : list opcode) (e f : nat) :
  covers a b i j ops e f -> i <= List.length a -> j <= List.length b ->
  i <= e /\ e <= List.length a /\ j <= f /\ f <= List.length b.
Proof.
  revert i j. induction ops as [|[[[[t i1] i2] j1] j2] ops IH]; intros i j H Hi Hj.
  - destruct H as [<- <-]. lia.
  - destruct H as (-> & -> & (H1 & H2 & H3 & H4 & _) & H).
    specialize (IH _ _ H H2 H4). lia.
Qed.

Lemma fix_leading_ok (n i j : nat) (cs : list opcode) (e f : nat) :
  covers a b i j cs e f -> i <= List.length a -> j <= List.length b ->
  exists i0 j0, same_range a b i i0 j j0
                /\ covers a b i0 j0 (update_first (fix_leading n) cs) e f.
Proof.
  intros H Hi Hj. destruct cs as [|[[[[t i1] i2] j1] j2] cs].
  - exists i, j. split; [now apply same_range_refl | exact H].
  - destruct H as (-> & -> & Hok & H). cbn [update_first fix_leading].
    destruct t; cbn [tag_eqb];
      try (exists i, j; split; [now apply same_range_refl|]; cbn [covers]; now auto).
    destruct Hok as (H1 & H2 & H3 & H4 & Hsame).
    destruct (same_range_split i i2 j j2 (i2 - n - i) Hsame) as [S1 S2]; [lia|].
    pose proof Hsame as (_ & _ & _ & _ & Hlen & _).
    exists (Nat.max i (i2 - n)), (Nat.max j (j2 - n)).
    replace (Nat.max i (i2 - n)) with (i + (i2 - n - i)) by lia.
    replace (Nat.max j (j2 - n)) with (j + (i2 - n - i)) by lia.
    split; [exact S1|]. cbn [covers]. repeat split; try lia; try assumption.
    apply S2.
Qed.

Lemma fix_trailing_ok (n i j : nat) (cs : list opcode) (e f : nat) :
  covers a b i j cs e f -> e <= List.length a -> f <= List.length b ->
  exists e' f', covers a b i j (update_last (fix_trailing n) cs) e' f'
                /\ same_range a b e' e f' f.
Proof.
  intros H He Hf. revert i j H.
  induction cs as [|[[[[t i1] i2] j1] j2] cs IH]; intros i j H.
  - exists e, f. split; [exact H | now apply same_range_refl].
  - destruct H as (-> & -> & Hok & H). destruct cs as [|c cs].
    + destruct H as [-> ->]. cbn [update_last fix_trailing].
      destruct t; cbn [tag_eqb];
        try (exists e, f; split; [cbn [covers]; now auto | now apply same_range_refl]).
      pose proof Hok as (H1 & H2 & H3 & H4 & Hsame).
      pose proof Hsame as (_ & _ & _ & _ & Hlen & _).
      destruct (same_range_split i e j f (Nat.min (e - i) n) Hsame) as [S1 S2]; [lia|].
      exists (Nat.min e (i + n)), (Nat.min f (j + n)).
      replace (Nat.min e (i + n)) with (i + Nat.min (e - i) n) by lia.
      replace (Nat.min f (j + n)) with (j + Nat.min (e - i) n) by lia.
      split; [|exact S2]. cbn [covers]. repeat split; try lia. apply S1.
    + destruct (IH _ _ H) as (e' & f' & IH1 & IH2).
      exists e', f'. split; [|exact IH2].
      change (update_last (fix_trailing n) ((t, i, i2, j, j2) :: c :: cs))
        with ((t, i, i2, j, j2) :: update_last (fix_trailing n) (c :: cs)).
      cbn [covers]. auto.
Qed.

Lemma group_fold_ok (n : nat) (cs : list opcode) (ci cj e f : nat)
      (group : list opcode) (yielded : list (list opcode)) :
  covers a b ci cj cs e f -> group_inv a b group yielded ci cj ->
  group_inv a b (fst (fold_left (group_step n) cs (group, yielded)))
            (snd (fold_left (group_step n) cs (group, yielded))) e f.
Proof.
  revert ci cj group yielded.
  induction cs as [|[[[[t i1] i2] j1] j2] cs IH]; intros ci cj group yielded H Hinv.
  - destruct H as [<- <-]. exact Hinv.
  - destruct H as (-> & -> & Hok & H). cbn [fold_left group_step].
    destruct (tag_eqb t Equal && (n + n <? i2 - ci)) eqn:Hsplit.
    + apply andb_true_iff in Hsplit as [Ht Hlen]. apply Nat.ltb_lt in Hlen.
      destruct t; try discriminate Ht.
      destruct Hok as (H1 & H2 & H3 & H4 & Hsame).
      pose proof Hsame as (_ & _ & _ & _ & Hlen' & _).
      destruct (same_range_split ci i2 cj j2 n Hsame) as [S1 S2]; [lia|].
      destruct (same_range_split (ci + n) i2 (cj + n) j2 (i2 - n - (ci + n)) S2)
        as [S3 S4]; [lia|].
      replace (Nat.min i2 (ci + n)) with (ci + n) by lia.
      replace (Nat.min j2 (cj + n)) with (cj + n) by lia.
      replace (Nat.max ci (i2 - n)) with (ci + n + (i2 - n - (ci + n))) by lia.
      replace (Nat.max cj (j2 - n)) with (cj + n + (i2 - n - (ci + n))) by lia.
      apply (IH i2 j2); [exact H|].
      unfold group_inv in *. apply hunks_then_app.
      refine (hunks_then_mono _ _ _ _ _ _ Hinv); intros yi yj Hy; cbv beta in Hy |- *.
      destruct Hy as (gi & gj & Hgap & Hcov). cbn [hunks_then].
      exists gi, gj, (ci + n), (cj + n).
      split; [now destruct group|]. split; [exact Hgap|]. split.
      * apply covers_snoc; [exact Hcov|]. cbn [op_ok]. repeat split; try lia. apply S1.
      * exists (ci + n + (i2 - n - (ci + n))), (cj + n + (i2 - n - (ci + n))).
        split; [exact S3|]. cbn [covers]. repeat split; try lia. apply S4.
    + apply (IH i2 j2); [exact H|].
      unfold group_inv in *.
      refine (hunks_then_mono _ _ _ _ _ _ Hinv); intros yi yj Hy; cbv beta in Hy |- *.
      destruct Hy as (gi & gj & Hgap & Hcov).
      exists gi, gj. split; [exact Hgap|]. now apply covers_snoc.
Qed.

Lemma covers_single_equal (gi gj e f : nat) (group : list opcode) :
  is_single_equal group = true -> covers a b gi gj group e f ->
  same_range a b gi e gj f.
Proof.
  destruct group as [|[[[[t i1] i2] j1] j2] [|c group]]; try discriminate.
  cbn [is_single_equal]. destruct t; try discriminate. intros _.
  intros (-> & -> & (_ & _ & _ & _ & Hsame) & <- & <-). exact Hsame.
Qed.

(** The groups of [get_grouped_opcodes] are the hunks of a diff. *)
Lemma get_grouped_opcodes_ok : hunks_ok a b (get_grouped_opcodes a b 3).
Proof.
  pose proof get_opcodes_ok as Hcov. unfold get_grouped_opcodes.
  destruct (get_opcodes a b) as [|c0 cs0] eqn:Hcodes.
  - destruct Hcov as [Hla Hlb]. cbn. unfold hunks_ok. cbn [hunks_then].
    rewrite <- Hla, <- Hlb. apply same_range_refl; lia.
  - rewrite <- Hcodes in *. clear Hcodes c0 cs0.
    destruct (fix_leading_ok 3 0 0 _ _ _ Hcov) as (i0 & j0 & Hlead & Hcov1); try lia.
    destruct (covers_bounds _ _ _ _ _ Hcov1) as (B1 & B2 & B3 & B4);
      [apply Hlead | apply Hlead |].
    destruct (fix_trailing_ok 3 _ _ _ _ _ Hcov1) as (e & f & Hcov2 & Htrail); try lia.
    pose proof (group_fold_ok 3 _ i0 j0 e f [] [] Hcov2) as Hfold.
    destruct (fold_left (group_step 3) _ ([], [])) as [group yielded].
    cbn [fst snd] in Hfold.
    assert (Hinv : group_inv a b group yielded e f).
    { apply Hfold. unfold group_inv. cbn [hunks_then]. exists i0, j0.
      split; [exact Hlead | cbn; auto]. }
    clear Hfold. unfold hunks_ok, group_inv in *.
    destruct group as [|c group].
    + refine (hunks_then_mono _ _ _ _ _ _ Hinv); intros yi yj Hy; cbv beta in Hy |- *.
      destruct Hy as (gi & gj & Hgap & <- & <-).
      now apply (same_range_trans _ _ _ _ _ _ Hgap).
    + destruct (is_single_equal (c :: group)) eqn:Hsingle.
      * refine (hunks_then_mono _ _ _ _ _ _ Hinv); intros yi yj Hy; cbv beta in Hy |- *.
        destruct Hy as (gi & gj & Hgap & Hc).
        apply (covers_single_equal _ _ _ _ _ Hsingle) in Hc.
        apply (same_range_trans _ _ _ _ _ _ Hgap).
        now apply (same_range_trans _ _ _ _ _ _ Hc).
      * apply hunks_then_app.
        refine (hunks_then_mono _ _ _ _ _ _ Hinv); intros yi yj Hy; cbv beta in Hy |- *.
        destruct Hy as (gi & gj & Hgap & Hc). cbn [hunks_then].
        exists gi, gj, e, f. split; [discriminate|]. auto.
Qed.

(** *** The order of the opcodes *)

Lemma alternate_app_inv (l1 l2 : list tag) :
  alternate (l1 ++ l2) -> alternate l1 /\ alternate l2.
Proof.
  induction l1 as [|t l1 IH]; cbn [app alternate]; [auto|].
  intros [H1 H2]. destruct (IH H2) as [IH1 IH2]. repeat split; try assumption.
  intros Ht. specialize (H1 Ht). destruct l1; [exact I | exact H1].
Qed.

Lemma alternate_snoc (l : list tag) (t : tag) :
  alternate l -> (t = Equal \/ match rev l with [] => True | t' :: _ => t' = Equal end) ->
  alternate (l ++ [t]).
Proof.
  induction l as [|t0 l IH]; intros Hl Ht.
  - cbn. auto.
  - destruct Hl as [H1 H2]. cbn [app alternate]. split.
    + intros Ht0. specialize (H1 Ht0). destruct l as [|t1 l]; [|exact H1].
      cbn [app]. destruct Ht as [Ht|Ht]; [exact Ht|]. cbn in Ht. subst t0. discriminate.
    + apply IH; [exact H2|]. destruct Ht as [Ht|Ht]; [now left|]. right.
      cbn [rev] in Ht. destruct (rev l) as [|t' r]; [exact I | exact Ht].
Qed.

Lemma tidy_snoc_equal (ops : list opcode) (i1 i2 j1 j2 : nat) :
  tidy ops -> i1 < i2 -> tidy (ops ++ [(Equal, i1, i2, j1, j2)]).
Proof.
  intros [H1 H2] Hlt. split.
  - rewrite map_app. apply alternate_snoc; [exact H1 | now left].
  - apply Forall_app. split; [exact H2|]. constructor; [|constructor]. now intros _.
Qed.

Lemma tidy_snoc_after_equal (ops : list opcode) (c : opcode) :
  tidy ops -> tag_eqb (tag_of c) Equal = false ->
  match rev (map tag_of ops) with [] => True | t' :: _ => t' = Equal end ->
  tidy (ops ++ [c]).
Proof.
  intros [H1 H2] Hc Hlast. split.
  - rewrite map_app. apply alternate_snoc; [exact H1 | now right].
  - apply Forall_app. split; [exact H2|]. constructor; [|constructor].
    destruct c as [[[[t i1] i2] j1] j2]. cbn in *. intros ->. discriminate.
Qed.

Lemma opcodes_step_tidy (i j : nat) (answer : list opcode) (m : Match) :
  tidy answer ->
  match rev (map tag_of answer) with [] => True | t' :: _ => t' = Equal end ->
  let r := opcodes_step (i, j, answer) m in
  tidy (snd r)
  /\ (1 <= snd m ->
      match rev (map tag_of (snd r)) with [] => True | t' :: _ => t' = Equal end).
Proof.
  intros Htidy Hlast. destruct m as [[ai bj] size]. cbn [opcodes_step snd].
  set (answer1 := match _ with Some t => answer ++ [(t, i, ai, j, bj)] | None => answer end).
  assert (H1 : tidy answer1).
  { subst answer1.
    destruct ((i <? ai) && (j <? bj)); [now apply tidy_snoc_after_equal|].
    destruct (i <? ai); [now apply tidy_snoc_after_equal|].
    destruct (j <? bj); [now apply tidy_snoc_after_equal | exact Htidy]. }
  cbv zeta. cbn [snd]. destruct (Nat.eqb_spec size 0) as [->|Hs].
  - split; [exact H1 | lia].
  - split.
    + apply tidy_snoc_equal; [exact H1 | lia].
    + intros _. rewrite map_app, rev_app_distr. reflexivity.
Qed.

Lemma opcodes_fold_tidy (blocks : list Match) (i j : nat) (answer : list opcode) :
  Forall (block_ok a b) blocks -> tidy answer ->
  match rev (map tag_of answer) with [] => True | t' :: _ => t' = Equal end ->
  let r := fold_left opcodes_step blocks (i, j, answer) in
  tidy (snd r)
  /\ match rev (map tag_of (snd r)) with [] => True | t' :: _ => t' = Equal end.
Proof.
  revert i j answer. induction blocks as [|m blocks IH];
    intros i j answer Hok Htidy Hlast; cbn zeta.
  - cbn [fold_left snd]. auto.
  - cbn [fold_left]. inversion Hok as [|? ? [Hm _] Hok']; subst.
    destruct (opcodes_step_tidy i j answer m Htidy Hlast) as [T1 T2].
    destruct (opcodes_step (i, j, answer) m) as [[i' j'] answer'].
    cbn [snd] in *. apply IH; [exact Hok' | exact T1 | exact (T2 Hm)].
Qed.

Lemma get_opcodes_tidy : tidy (get_opcodes a b).
Proof.
  unfold get_opcodes.
  destruct get_matching_blocks_ok as (l & -> & Hok & _).
  rewrite fold_left_app. cbn [fold_left].
  destruct (opcodes_fold_tidy l 0 0 [] Hok) as [T1 T2].
  - split; constructor.
  - exact I.
  - cbn zeta in T1, T2.
    match type of T1 with
    | tidy (snd ?r) =>
        match goal with
        | |- context [fold_left opcodes_step l ?x] =>
            change (fold_left opcodes_step l x) with r
        end;
        destruct r as [[i j] answer]
    end.
    cbn [snd] in *.
    destruct (opcodes_step_tidy i j answer (List.length a, List.length b, 0) T1 T2)
      as [T3 _].
    cbv zeta in T3.
    match type of T3 with
    | tidy (snd ?r) =>
        match goal with
        | |- context [opcodes_step ?x ?y] => change (opcodes_step x y) with r
        end;
        destruct r as [[i' j'] answer']
    end.
    exact T3.
Qed.

Lemma tidy_app_inv (l1 l2 : list opcode) :
  tidy (l1 ++ l2) -> tidy l1 /\ tidy l2.
Proof.
  intros [H1 H2]. rewrite map_app in H1. apply alternate_app_inv in H1.
  apply Forall_app in H2. unfold tidy. tauto.
Qed.

Lemma tidy_replace (l1 l2 : list opcode) (c c' : opcode) :
  tidy (l1 ++ c :: l2) -> tag_of c' = tag_of c -> equal_strict c' ->
  tidy (l1 ++ c' :: l2).
Proof.
  intros [H1 H2] Htag Hstrict. split.
  - rewrite map_app in *. cbn [map] in *. now rewrite Htag.
  - apply Forall_app in H2 as [H2 H3]. inversion H3; subst.
    apply Forall_app. split; [assumption|]. now constructor.
Qed.

Lemma tag_of_fix_leading (n : nat) (c : opcode) : tag_of (fix_leading n c) = tag_of c.
Proof. destruct c as [[[[t i1] i2] j1] j2]. cbn. now destruct t. Qed.

Lemma tag_of_fix_trailing (n : nat) (c : opcode) : tag_of (fix_trailing n c) = tag_of c.
Proof. destruct c as [[[[t i1] i2] j1] j2]. cbn. now destruct t. Qed.

Lemma strict_fix_leading (c : opcode) : equal_strict c -> equal_strict (fix_leading 3 c).
Proof.
  destruct c as [[[[t i1] i2] j1] j2]. cbn. destruct t; cbn; auto.
  intros H _. specialize (H eq_refl). lia.
Qed.

Lemma strict_fix_trailing (c : opcode) : equal_strict c -> equal_strict (fix_trailing 3 c).
Proof.
  destruct c as [[[[t i1] i2] j1] j2]. cbn. destruct t; cbn; auto.
  intros H _. specialize (H eq_refl). lia.
Qed.

Lemma update_first_tidy (cs : list opcode) :
  tidy cs -> tidy (update_first (fix_leading 3) cs).
Proof.
  destruct cs as [|c cs]; [auto|]. intros H. cbn [update_first].
  apply (tidy_replace [] cs c); [exact H | apply tag_of_fix_leading |].
  apply strict_fix_leading. destruct H as [_ H]. now inversion H.
Qed.

Lemma update_last_snoc {A : Type} (f : A -> A) (l : list A) (c : A) :
  update_last f (l ++ [c]) = l ++ [f c].
Proof.
  induction l as [|x l IH]; [reflexivity|].
  destruct l as [|y l]; [reflexivity|].
  change (update_last f ((x :: y :: l) ++ [c]))
    with (x :: update_last f ((y :: l) ++ [c])).
  now rewrite IH.
Qed.

Lemma update_last_tidy (cs : list opcode) :
  tidy cs -> tidy (update_last (fix_trailing 3) cs).
Proof.
  destruct cs as [|c0 cs0]; [auto|].
  destruct (@exists_last _ (c0 :: cs0)) as (l & c & ->); [discriminate|].
  rewrite update_last_snoc. intros H.
  apply (tidy_replace l [] c); [exact H | apply tag_of_fix_trailing |].
  apply strict_fix_trailing. destruct H as [_ H].
  apply Forall_app in H as [_ H]. now inversion H.
Qed.

Lemma groups_tidy_snoc (first : bool) (yielded : list (list opcode)) (g : list opcode) :
  groups_tidy first yielded -> tidy g ->
  (first = false \/ yielded <> [] -> starts_equal g) ->
  groups_tidy first (yielded ++ [g]).
Proof.
  revert first. induction yielded as [|y ys IH]; intros first Hy Hg Hs.
  - cbn [app groups_tidy].
    split; [exact Hg | split; [|exact I]]. intros Hf. apply Hs. now left.
  - destruct Hy as (H1 & H2 & H3). cbn [app groups_tidy].
    split; [exact H1 | split; [exact H2|]].
    apply IH; [exact H3 | exact Hg|]. intros _. apply Hs. right. discriminate.
Qed.

Lemma group_fold_tidy (cs group : list opcode) (yielded : list (list opcode)) :
  tidy (group ++ cs) -> groups_tidy true yielded ->
  (yielded <> [] -> starts_equal (group ++ cs)) ->
  let r := fold_left (group_step 3) cs (group, yielded) in
  tidy (fst r) /\ groups_tidy true (snd r) /\ (snd r <> [] -> starts_equal (fst r)).
Proof.
  revert group yielded.
  induction cs as [|[[[[t i1] i2] j1] j2] cs IH]; intros group yielded Ht Hy Hs; cbn zeta.
  - cbn [fold_left fst snd]. rewrite app_nil_r in *. auto.
  - cbn [fold_left group_step].
    destruct (tag_eqb t Equal && (3 + 3 <? i2 - i1)) eqn:Hsplit.
    + apply andb_true_iff in Hsplit as [Htag Hlen]. apply Nat.ltb_lt in Hlen.
      destruct t; try discriminate Htag.
      apply IH.
      * apply tidy_app_inv in Ht as [_ Ht].
        apply (tidy_replace [] cs (Equal, i1, i2, j1, j2)); [exact Ht | reflexivity|].
        cbn. lia.
      * apply groups_tidy_snoc; [exact Hy | |].
        -- apply (tidy_replace group [] (Equal, i1, i2, j1, j2)
                    (Equal, i1, Nat.min i2 (i1 + 3), j1, Nat.min j2 (j1 + 3)));
             [|reflexivity | cbn; lia].
           assert (Ht' : tidy ((group ++ [(Equal, i1, i2, j1, j2)]) ++ cs))
             by (rewrite <- app_assoc; exact Ht).
           apply tidy_app_inv in Ht' as [Ht' _]. exact Ht'.
        -- intros [Hf|Hne]; [discriminate|]. specialize (Hs Hne).
           destruct group; [reflexivity | exact Hs].
      * intros _. reflexivity.
    + apply IH.
      * now rewrite <- app_assoc.
      * exact Hy.
      * rewrite <- app_assoc. exact Hs.
Qed.

(** The groups of [get_grouped_opcodes] are tidy. *)
Lemma get_grouped_opcodes_tidy : groups_tidy true (get_grouped_opcodes a b 3).
Proof.
  pose proof get_opcodes_tidy as Ht. unfold get_grouped_opcodes.
  destruct (get_opcodes a b) as [|c0 cs0] eqn:Hcodes; [cbn; exact I|].
  rewrite <- Hcodes in *. clear Hcodes c0 cs0.
  apply update_first_tidy, update_last_tidy in Ht.
  destruct (group_fold_tidy _ [] [] Ht I) as (T1 & T2 & T3); [congruence|].
  cbn zeta in T1, T2, T3.
  destruct (fold_left (group_step 3) _ ([], [])) as [group yielded].
  cbn [fst snd] in *. destruct group as [|c group]; [exact T2|].
  destruct (is_single_equal (c :: group)); [exact T2|].
  apply groups_tidy_snoc; [exact T2 | exact T1|].
  intros [Hf|Hne]; [discriminate | now apply T3].
Qed.

End Facts.

End MatcherFacts.

(** ** Applying the diff that [unified_diff] makes *)

Module PatchFacts.
Import PyStr Shape PyStrFacts Difflib DiffShape MatcherFacts Patch.
Local Open Scope nat_scope.
Local Open Scope list_scope.

(** *** Numbers *)

Lemma parse_digits_uint (d : Decimal.uint) (rest : string) (acc : nat) :
  no_digit_head rest ->
  parse_digits (DecimalString.NilEmpty.string_of_uint d ++ rest)%string acc
  = (Nat.of_uint_acc d acc, rest).
Proof.
  intros Hrest. revert acc.
  induction d as [|d IH|d IH|d IH|d IH|d IH|d IH|d IH|d IH|d IH|d IH]; intros acc;
    cbn [DecimalString.NilEmpty.string_of_uint append Nat.of_uint_acc];
    try (cbn [parse_digits]; change (is_digit _) with true; cbv iota;
         rewrite IH, Nat.tail_mul_spec; f_equal; f_equal; cbn; lia).
  destruct rest as [|c rest]; [reflexivity|].
  cbn [parse_digits]. cbn in Hrest. now rewrite Hrest.
Qed.

Lemma to_uint_nonnil (n : nat) : Nat.to_uint n <> Decimal.Nil.
Proof.
  rewrite <- (DecimalNat.Unsigned.of_to n) at 1.
  rewrite DecimalNat.Unsigned.to_of. apply DecimalFacts.unorm_nonnil.
Qed.

Lemma parse_nat_str_of_nat (n : nat) (rest : string) :
  no_digit_head rest ->
  parse_nat (str_of_nat n ++ rest)%string = Some (n, rest).
Proof.
  intros Hrest. unfold parse_nat, str_of_nat.
  pose proof (parse_digits_uint (Nat.to_uint n) rest 0 Hrest) as H.
  pose proof (to_uint_nonnil n) as Hn.
  change (Nat.of_uint_acc (Nat.to_uint n) 0) with (Nat.of_uint (Nat.to_uint n)) in H.
  rewrite DecimalNat.Unsigned.of_to in H.
  destruct (Nat.to_uint n); try congruence;
    cbn [DecimalString.NilEmpty.string_of_uint append] in *;
    change (is_digit _) with true; cbv iota; now rewrite H.
Qed.

Lemma parse_hunk_start_format (gi ge : nat) (rest : string) :
  gi <= ge ->
  parse_hunk_start ("@@ -" ++ format_range_unified gi ge ++ " +" ++ rest)%string
  = Some gi.
Proof.
  intros Hle. unfold parse_hunk_start.
  rewrite prefix_append. change (drop 4 ("@@ -" ++ format_range_unified gi ge ++ " +" ++ rest))
    with (format_range_unified gi ge ++ " +" ++ rest)%string.
  unfold format_range_unified.
  destruct (Nat.eqb_spec (ge - gi) 1) as [H1|H1].
  - rewrite parse_nat_str_of_nat by reflexivity. cbn. f_equal. lia.
  - rewrite !append_assoc. rewrite parse_nat_str_of_nat by reflexivity.
    cbn [append]. cbv iota beta.
    rewrite parse_nat_str_of_nat by reflexivity.
    destruct (Nat.eqb_spec (ge - gi) 0) as [H0|H0].
    + rewrite H0. f_equal. lia.
    + destruct (ge - gi); [congruence|]. f_equal. lia.
Qed.

(** *** Slices *)

Section Slices.
Context {A : Type}.

Lemma slice_skipn (l : list A) (i1 i2 : nat) :
  i1 <= i2 -> skipn i1 l = slice l i1 i2 ++ skipn i2 l.
Proof.
  intros H. unfold slice.
  replace i2 with ((i2 - i1) + i1) at 2 by lia.
  rewrite <- skipn_skipn. symmetry. apply firstn_skipn.
Qed.

Lemma length_slice (l : list A) (i1 i2 : nat) :
  i2 <= List.length l -> List.length (slice l i1 i2) = i2 - i1.
Proof.
  intros H. unfold slice. rewrite length_firstn, length_skipn. lia.
Qed.

Lemma slice_app (l : list A) (i1 i2 i3 : nat) :
  i1 <= i2 -> i2 <= i3 -> slice l i1 i3 = slice l i1 i2 ++ slice l i2 i3.
Proof.
  intros H1 H2. unfold slice.
  replace (i3 - i1) with ((i2 - i1) + (i3 - i2)) by lia.
  rewrite <- (firstn_skipn (i2 - i1) (firstn (i2 - i1 + (i3 - i2)) (skipn i1 l))).
  rewrite firstn_firstn, Nat.min_l by lia. f_equal.
  rewrite skipn_firstn_comm, skipn_skipn. f_equal; [lia|]. f_equal. lia.
Qed.

Lemma slice_nil (l : list A) (i : nat) : slice l i i = [].
Proof. unfold slice. now rewrite Nat.sub_diag. Qed.

Lemma slice_to_end (l : list A) (i : nat) :
  slice l i (List.length l) = skipn i l.
Proof.
  unfold slice. apply firstn_all2. rewrite length_skipn. lia.
Qed.

End Slices.

Section RoundTrip.
Variables a b : list string.

Lemma same_range_slice (i1 i2 j1 j2 : nat) :
  same_range a b i1 i2 j1 j2 -> slice a i1 i2 = slice b j1 j2.
Proof.
  intros (H1 & H2 & H3 & H4 & H5 & H6).
  apply (nth_ext _ _ EmptyString EmptyString).
  - rewrite !length_slice by assumption. exact H5.
  - intros t Ht. rewrite length_slice in Ht by assumption.
    unfold slice. rewrite !nth_firstn, !nth_skipn.
    destruct (Nat.ltb_spec t (i2 - i1)); [|lia].
    destruct (Nat.ltb_spec t (j2 - j1)); [|lia].
    now apply H6.
Qed.

(** *** The lines of one opcode *)

Lemma apply_hunks_space (l text : string) (orig diff : list string) (pos : nat) :
  apply_hunks (l :: orig) pos ((" " ++ text)%string :: diff)
  = if String.eqb l text then option_map (cons l) (apply_hunks orig (S pos) diff)
    else None.
Proof. reflexivity. Qed.

Lemma apply_hunks_minus (l text : string) (orig diff : list string) (pos : nat) :
  apply_hunks (l :: orig) pos (("-" ++ text)%string :: diff)
  = if String.eqb l text then apply_hunks orig (S pos) diff else None.
Proof. reflexivity. Qed.

Lemma apply_hunks_plus (text : string) (orig diff : list string) (pos : nat) :
  apply_hunks orig pos (("+" ++ text)%string :: diff)
  = option_map (cons text) (apply_hunks orig pos diff).
Proof. reflexivity. Qed.

Lemma apply_context (ls orig rest : list string) (pos : nat) :
  apply_hunks (ls ++ orig) pos (map (String.append " ") ls ++ rest)
  = option_map (List.app ls) (apply_hunks orig (pos + List.length ls) rest).
Proof.
  revert pos. induction ls as [|l ls IH]; intros pos.
  - cbn [app map List.length]. rewrite Nat.add_0_r. now destruct (apply_hunks _ _ _).
  - cbn [app map List.length].
    rewrite apply_hunks_space, String.eqb_refl, IH, <- Nat.add_succ_comm.
    now destruct (apply_hunks _ _ _).
Qed.

Lemma apply_deletions (ls orig rest : list string) (pos : nat) :
  apply_hunks (ls ++ orig) pos (map (String.append "-") ls ++ rest)
  = apply_hunks orig (pos + List.length ls) rest.
Proof.
  revert pos. induction ls as [|l ls IH]; intros pos.
  - cbn [app map List.length]. now rewrite Nat.add_0_r.
  - cbn [app map List.length].
    now rewrite apply_hunks_minus, String.eqb_refl, IH, <- Nat.add_succ_comm.
Qed.

Lemma apply_additions (ls orig rest : list string) (pos : nat) :
  apply_hunks orig pos (map (String.append "+") ls ++ rest)
  = option_map (List.app ls) (apply_hunks orig pos rest).
Proof.
  induction ls as [|l ls IH].
  - cbn [app map]. now destruct (apply_hunks _ _ _).
  - cbn [app map]. rewrite apply_hunks_plus, IH.
    destruct (apply_hunks orig pos rest); reflexivity.
Qed.

Lemma option_map_app_nil (o : option (list string)) :
  option_map (List.app []) o = o.
Proof. now destruct o. Qed.

Lemma option_map_app (x y : list string) (o : option (list string)) :
  option_map (List.app x) (option_map (List.app y) o) = option_map (List.app (x ++ y)) o.
Proof. destruct o; cbn; [now rewrite app_assoc | reflexivity]. Qed.

(** The lines of the opcodes of a group turn the old lines they cover into
    the new lines they cover. *)
Lemma apply_opcodes (ops : list opcode) (i j i' j' : nat) (rest : list string) :
  covers a b i j ops i' j' ->
  apply_hunks (skipn i a) i (flat_map (opcode_lines a b) ops ++ rest)
  = option_map (List.app (slice b j j')) (apply_hunks (skipn i' a) i' rest).
Proof.
  revert i j. induction ops as [|[[[[t i1] i2] j1] j2] ops IH]; intros i j H.
  - destruct H as [<- <-]. cbn [flat_map app]. rewrite slice_nil.
    now rewrite option_map_app_nil.
  - destruct H as (-> & -> & Hok & H).
    pose proof Hok as (H1 & H2 & H3 & H4 & Ht).
    pose proof (covers_bounds a b _ _ _ _ _ H H2 H4) as (B1 & B2 & B3 & B4).
    cbn [flat_map]. rewrite <- app_assoc.
    rewrite (slice_app b j j2 j') by assumption.
    rewrite <- option_map_app, <- (IH i2 j2 H).
    rewrite (slice_skipn a i i2 H1).
    assert (Hpos : i + List.length (slice a i i2) = i2)
      by (rewrite length_slice by assumption; lia).
    destruct t; cbn [opcode_lines].
    + rewrite <- app_assoc, apply_deletions, Hpos, apply_additions. reflexivity.
    + rewrite apply_deletions, Hpos. subst j2. rewrite slice_nil.
      now rewrite option_map_app_nil.
    + subst i2. rewrite slice_nil. cbn [app]. now rewrite apply_additions.
    + rewrite apply_context, Hpos, (same_range_slice _ _ _ _ Ht). reflexivity.
Qed.

Lemma covers_first_last (gi gj ge gje : nat) (g : list opcode) :
  covers a b gi gj g ge gje -> g <> [] ->
  (exists t x y, group_first g = (t, gi, x, gj, y))
  /\ (exists t x y, group_last g = (t, x, ge, y, gje)).
Proof.
  intros H Hne. split.
  - destruct g as [|[[[[t i1] i2] j1] j2] g]; [congruence|].
    destruct H as (-> & -> & _). exists t, i2, j2. reflexivity.
  - revert gi gj H.
    induction g as [|[[[[t i1] i2] j1] j2] g IH]; intros gi gj H; [congruence|].
    destruct H as (-> & -> & _ & H). destruct g as [|c g].
    + destruct H as [-> ->]. exists t, gi, gj. reflexivity.
    + apply IH in H; [|discriminate]. exact H.
Qed.

(** *** Hunks *)

Lemma apply_hunks_range (text : string) (orig diff : list string) (pos : nat) :
  apply_hunks orig pos (("@@ -" ++ text)%string :: diff)
  = match parse_hunk_start ("@@ -" ++ text)%string with
    | Some target =>
        if (pos <=? target) && (target - pos <=? List.length orig)
        then option_map (List.app (firstn (target - pos) orig))
                        (apply_hunks (skipn (target - pos) orig) target diff)
        else None
    | None => None
    end.
Proof. reflexivity. Qed.

Lemma apply_groups (groups : list (list opcode)) (i j : nat) :
  hunks_then a b (fun i' j' => same_range a b i' (List.length a) j' (List.length b))
             i j groups ->
  apply_hunks (skipn i a) i (flat_map (hunk_lines a b nl) groups) = Some (skipn j b).
Proof.
  revert i j. induction groups as [|g gs IH]; intros i j H.
  - cbn [flat_map apply_hunks hunks_then] in *. f_equal.
    apply same_range_slice in H. now rewrite !slice_to_end in H.
  - destruct H as (gi & gj & ge & gje & Hne & Hgap & Hcov & Hrest).
    destruct (covers_first_last gi gj ge gje g Hcov Hne)
      as [(t1 & x1 & y1 & Hfirst) (t2 & x2 & y2 & Hlast)].
    pose proof Hgap as (G1 & G2 & G3 & G4 & G5 & G6).
    pose proof (covers_bounds a b _ _ _ _ _ Hcov G2 G4) as (B1 & B2 & B3 & B4).
    cbn [flat_map]. unfold hunk_lines at 1. rewrite Hfirst, Hlast.
    cbv beta iota zeta.
    rewrite <- app_comm_cons, apply_hunks_range.
    rewrite (parse_hunk_start_format gi ge _ B1).
    rewrite length_skipn.
    destruct (Nat.leb_spec i gi); [|lia].
    destruct (Nat.leb_spec (gi - i) (List.length a - i)); [|lia].
    cbn [andb]. rewrite skipn_skipn.
    replace (gi - i + i) with gi by lia.
    rewrite (apply_opcodes g gi gj ge gje _ Hcov), (IH ge gje Hrest).
    cbn [option_map]. f_equal.
    change (firstn (gi - i) (skipn i a)) with (slice a i gi).
    rewrite (same_range_slice _ _ _ _ Hgap).
    rewrite <- (slice_skipn b gj gje B3). symmetry. now apply slice_skipn.
Qed.

(** Applied to [a], the lines of [unified_diff] give [b]. *)
Lemma unified_diff_lines_apply (fromfile tofile : string) :
  apply_patch a (unified_diff a b fromfile tofile 3) = Some b.
Proof.
  pose proof (get_grouped_opcodes_ok a b) as H. unfold hunks_ok in H.
  unfold unified_diff.
  destruct (get_grouped_opcodes a b 3) as [|g gs] eqn:Hg.
  - cbn [hunks_then apply_patch] in *. f_equal.
    apply same_range_slice in H. now rewrite !slice_to_end in H.
  - cbn [apply_patch]. unfold startswith.
    rewrite !prefix_append. cbn [andb].
    exact (apply_groups (g :: gs) 0 0 H).
Qed.

End RoundTrip.

(** *** The shape of the lines of the diff *)

Lemma complete_line_app (s t : string) :
  has_char LF s = false -> complete_line t -> complete_line (s ++ t)%string.
Proof.
  intros Hs (body & -> & Hb). exists (s ++ body)%string. split.
  - now rewrite append_assoc.
  - now rewrite has_char_append, Hs, Hb.
Qed.

Lemma partial_line_app (s t : string) :
  has_char LF s = false -> partial_line t -> partial_line (s ++ t)%string.
Proof.
  intros Hs [Hne Ht]. split.
  - destruct s; [exact Hne | discriminate].
  - now rewrite has_char_append, Hs, Ht.
Qed.

Lemma complete_nl : complete_line nl.
Proof. now exists EmptyString. Qed.

Lemma Forall_complete_lines_ok (ls : list string) :
  Forall complete_line ls -> lines_ok ls.
Proof. induction 1; cbn [lines_ok]; auto. Qed.

Lemma lines_ok_map (p : string) (ls : list string) :
  has_char LF p = false -> lines_ok ls -> lines_ok (map (String.append p) ls).
Proof.
  intros Hp. induction ls as [|l ls IH]; [auto|].
  intros [[Hc | [Hpart ->]] Hls]; cbn [map lines_ok].
  - split; [left; now apply complete_line_app | now apply IH].
  - split; [right; split; [now apply partial_line_app | reflexivity] | exact I].
Qed.

Lemma Forall_complete_map (p : string) (ls : list string) :
  has_char LF p = false -> Forall complete_line ls ->
  Forall complete_line (map (String.append p) ls).
Proof.
  intros Hp H. induction H; cbn [map]; constructor; auto.
  now apply complete_line_app.
Qed.

Lemma lines_ok_firstn (n : nat) (ls : list string) :
  lines_ok ls -> lines_ok (firstn n ls).
Proof.
  revert ls. induction n as [|n IH]; intros ls H; [exact I|].
  destruct ls as [|l ls]; [exact I|]. destruct H as [[Hc | [Hp ->]] Hls].
  - cbn [firstn lines_ok]. split; [now left | now apply IH].
  - cbn [firstn lines_ok]. rewrite firstn_nil. split; [now right | exact I].
Qed.

Lemma lines_ok_complete_prefix (n : nat) (ls : list string) :
  lines_ok ls -> n < List.length ls -> Forall complete_line (firstn n ls).
Proof.
  revert ls. induction n as [|n IH]; intros ls H Hn; [constructor|].
  destruct ls as [|l ls]; [constructor|]. cbn [List.length] in Hn.
  destruct H as [[Hc | [Hp ->]] Hls]; [|cbn in Hn; lia].
  cbn [firstn]. constructor; [exact Hc | apply IH; [exact Hls | lia]].
Qed.

Lemma Forall_take {A : Type} (P : A -> Prop) (n : nat) (l : list A) :
  Forall P l -> Forall P (firstn n l).
Proof.
  revert l. induction n as [|n IH]; intros l H; [constructor|].
  destruct H; cbn [firstn]; constructor; auto.
Qed.

Lemma Forall_slice {A : Type} (P : A -> Prop) (l : list A) (i1 i2 : nat) :
  Forall P l -> Forall P (slice l i1 i2).
Proof.
  intros H. unfold slice. apply Forall_take, Forall_skipn, H.
Qed.

Lemma uint_no_lf (d : Decimal.uint) :
  has_char LF (DecimalString.NilEmpty.string_of_uint d) = false.
Proof. induction d; cbn; auto. Qed.

Lemma uint_no_cr (d : Decimal.uint) :
  has_char CR (DecimalString.NilEmpty.string_of_uint d) = false.
Proof. induction d; cbn; auto. Qed.

Lemma format_range_no_lf (start stop : nat) :
  has_char LF (format_range_unified start stop) = false.
Proof.
  unfold format_range_unified, str_of_nat.
  destruct (_ =? 1); [apply uint_no_lf|].
  rewrite !has_char_append, !uint_no_lf. reflexivity.
Qed.

Lemma format_range_no_cr (start stop : nat) :
  has_char CR (format_range_unified start stop) = false.
Proof.
  unfold format_range_unified, str_of_nat.
  destruct (_ =? 1); [apply uint_no_cr|].
  rewrite !has_char_append, !uint_no_cr. reflexivity.
Qed.

Section DiffLines.
Variables a b : list string.
Hypothesis a_complete : Forall complete_line a.
Hypothesis b_ok : lines_ok b.

Lemma b_slice_complete (j1 j2 : nat) :
  j2 < List.length b -> Forall complete_line (slice b j1 j2).
Proof.
  intros H. unfold slice. rewrite <- skipn_firstn_comm.
  apply Forall_skipn, lines_ok_complete_prefix; assumption.
Qed.

Lemma b_slice_ok (j1 j2 : nat) : lines_ok (slice b j1 j2).
Proof.
  unfold slice. apply lines_ok_firstn, lines_ok_skipn, b_ok.
Qed.

Lemma opcode_lines_complete (c : opcode) :
  snd c < List.length b -> Forall complete_line (opcode_lines a b c).
Proof.
  destruct c as [[[[t i1] i2] j1] j2]. cbn [snd]. intros Hj.
  destruct t; cbn [opcode_lines]; try apply Forall_app; try split;
    apply Forall_complete_map; try reflexivity;
    try (now apply Forall_slice); now apply b_slice_complete.
Qed.

Lemma opcode_lines_ok (c : opcode) : lines_ok (opcode_lines a b c).
Proof.
  destruct c as [[[[t i1] i2] j1] j2].
  destruct t; cbn [opcode_lines].
  - apply lines_ok_app.
    + apply Forall_complete_map; [reflexivity | now apply Forall_slice].
    + apply lines_ok_map; [reflexivity | apply b_slice_ok].
  - apply Forall_complete_lines_ok, Forall_complete_map;
      [reflexivity | now apply Forall_slice].
  - apply lines_ok_map; [reflexivity | apply b_slice_ok].
  - apply Forall_complete_lines_ok, Forall_complete_map;
      [reflexivity | now apply Forall_slice].
Qed.

Lemma body_complete (ops : list opcode) (i j e f : nat) :
  covers a b i j ops e f -> j <= List.length b -> f < List.length b ->
  Forall complete_line (flat_map (opcode_lines a b) ops).
Proof.
  revert i j. induction ops as [|[[[[t i1] i2] j1] j2] ops IH]; intros i j H Hj Hf.
  - constructor.
  - destruct H as (-> & -> & Hok & H). pose proof Hok as (H1 & H2 & H3 & H4 & _).
    pose proof (covers_bounds a b _ _ _ _ _ H H2 H4) as (B1 & B2 & B3 & B4).
    cbn [flat_map]. apply Forall_app. split.
    + apply opcode_lines_complete. cbn [snd]. lia.
    + now apply (IH i2 j2).
Qed.

(** An [Equal] opcode that is not empty ends inside [b]. *)
Lemma equal_strict_inside (t : tag) (i1 i2 j1 j2 : nat) :
  op_ok a b (t, i1, i2, j1, j2) -> equal_strict (t, i1, i2, j1, j2) -> t = Equal ->
  j1 < List.length b.
Proof.
  intros (H1 & H2 & H3 & H4 & Ht) Hs ->. specialize (Hs eq_refl).
  destruct Ht as (_ & _ & _ & _ & Hlen & _). lia.
Qed.

Lemma body_lines_ok (ops : list opcode) (i j e f : nat) :
  covers a b i j ops e f -> tidy ops ->
  lines_ok (flat_map (opcode_lines a b) ops).
Proof.
  revert i j. induction ops as [|[[[[t i1] i2] j1] j2] ops IH]; intros i j H Ht.
  - exact I.
  - destruct H as (-> & -> & Hok & H).
    destruct Ht as [Halt Hstrict]. cbn [map alternate] in Halt.
    destruct Halt as [Hnext Halt]. inversion Hstrict as [|? ? Hs Hstrict']; subst.
    cbn [flat_map]. destruct ops as [|[[[[t' i1'] i2'] j1'] j2'] ops].
    + cbn [flat_map]. rewrite app_nil_r. apply opcode_lines_ok.
    + apply lines_ok_app; [|apply (IH i2 j2 H); now split].
      destruct H as (-> & -> & Hok' & H).
      inversion Hstrict' as [|? ? Hs' _]; subst.
      destruct (tag_eqb t Equal) eqn:Htag.
      * destruct t; try discriminate Htag. cbn [opcode_lines].
        apply Forall_complete_map; [reflexivity | now apply Forall_slice].
      * specialize (Hnext Htag). cbn [map tag_of fst] in Hnext. subst t'.
        apply opcode_lines_complete. cbn [snd].
        now apply (equal_strict_inside Equal i2 i2' j2 j2').
Qed.

Lemma hunk_header_complete (group : list opcode) :
  complete_line
    (let '(_, f1, _, f3, _) := group_first group in
     let '(_, _, l2, _, l4) := group_last group in
     "@@ -" ++ format_range_unified f1 l2 ++ " +" ++ format_range_unified f3 l4
            ++ " @@" ++ nl)%string.
Proof.
  destruct (group_first group) as [[[[t f1] f2] f3] f4].
  destruct (group_last group) as [[[[t' l1] l2] l3] l4].
  repeat (apply complete_line_app;
          [reflexivity || apply format_range_no_lf|]).
  apply complete_nl.
Qed.

Lemma groups_lines_ok (groups : list (list opcode)) (first : bool) (i j : nat) :
  hunks_then a b (fun i' j' => same_range a b i' (List.length a) j' (List.length b))
             i j groups ->
  groups_tidy first groups ->
  lines_ok (flat_map (hunk_lines a b nl) groups).
Proof.
  revert first i j. induction groups as [|g gs IH]; intros first i j H Ht; [exact I|].
  destruct H as (gi & gj & ge & gje & Hne & Hgap & Hcov & Hrest).
  destruct Ht as (Hg & _ & Hgs).
  pose proof Hgap as (G1 & G2 & G3 & G4 & _).
  cbn [flat_map]. unfold hunk_lines at 1.
  pose proof (hunk_header_complete g) as Hhdr.
  destruct (group_first g) as [[[[t f1] f2] f3] f4].
  destruct (group_last g) as [[[[t' l1] l2] l3] l4].
  rewrite <- app_comm_cons. cbn [lines_ok]. split; [now left|].
  destruct gs as [|g' gs].
  - cbn [flat_map]. rewrite app_nil_r. now apply (body_lines_ok g gi gj ge gje).
  - apply lines_ok_app; [|apply (IH false ge gje Hrest Hgs)].
    apply (body_complete g gi gj ge gje Hcov G4).
    destruct Hrest as (gi' & gj' & ge' & gje' & Hne' & Hgap' & Hcov' & _).
    destruct Hgs as ([_ Hstrict'] & Hstart & _). specialize (Hstart eq_refl).
    destruct g' as [|[[[[t1 i1] i2] j1] j2] g']; [contradiction|].
    cbn [starts_equal tag_of fst] in Hstart.
    destruct Hcov' as (-> & -> & Hok' & _). inversion Hstrict'; subst.
    pose proof Hgap' as (_ & _ & G3' & _).
    assert (gj' < List.length b) by now apply (equal_strict_inside Equal gi' i2 gj' j2).
    lia.
Qed.

(** Only the last line of the diff can lack its line feed. *)
Lemma unified_diff_lines_ok (fromfile tofile : string) :
  has_char LF fromfile = false -> has_char LF tofile = false ->
  lines_ok (unified_diff a b fromfile tofile 3).
Proof.
  intros Hf Ht. unfold unified_diff.
  pose proof (get_grouped_opcodes_ok a b) as H.
  pose proof (get_grouped_opcodes_tidy a b) as Htidy.
  destruct (get_grouped_opcodes a b 3) as [|g gs]; [exact I|].
  cbn [lines_ok]. split; [|split].
  - left. apply complete_line_app; [reflexivity|].
    apply complete_line_app; [exact Hf | apply complete_nl].
  - left. apply complete_line_app; [reflexivity|].
    apply complete_line_app; [exact Ht | apply complete_nl].
  - now apply (groups_lines_ok (g :: gs) true 0 0).
Qed.

End DiffLines.

(** *** No carriage return in the diff *)

Lemma unified_diff_no_cr (a b : list string) (fromfile tofile : string) :
  Forall (fun l => has_char CR l = false) a ->
  Forall (fun l => has_char CR l = false) b ->
  has_char CR fromfile = false -> has_char CR tofile = false ->
  Forall (fun l => has_char CR l = false) (unified_diff a b fromfile tofile 3).
Proof.
  intros Ha Hb Hf Ht.
  assert (Hmap : forall p ls, has_char CR p = false ->
                   Forall (fun l => has_char CR l = false) ls ->
                   Forall (fun l => has_char CR l = false) (map (String.append p) ls)).
  { intros p ls Hp H. induction H; cbn [map]; constructor; auto.
    now rewrite has_char_append, Hp. }
  assert (Hop : forall c, Forall (fun l => has_char CR l = false) (opcode_lines a b c)).
  { intros [[[[t i1] i2] j1] j2].
    destruct t; cbn [opcode_lines]; try apply Forall_app; try split;
      apply Hmap; try reflexivity; now apply Forall_slice. }
  assert (Hgroup : forall g, Forall (fun l => has_char CR l = false)
                                    (hunk_lines a b nl g)).
  { intros g. unfold hunk_lines.
    destruct (group_first g) as [[[[t f1] f2] f3] f4].
    destruct (group_last g) as [[[[t' l1] l2] l3] l4].
    constructor.
    - rewrite !has_char_append, !format_range_no_cr. reflexivity.
    - apply Forall_flat_map, Forall_forall. intros c _. apply Hop. }
  unfold unified_diff. destruct (get_grouped_opcodes a b 3) as [|g gs]; [constructor|].
  constructor; [|constructor].
  - now rewrite !has_char_append, Hf.
  - now rewrite !has_char_append, Ht.
  - apply Forall_flat_map, Forall_forall. intros g' _. apply Hgroup.
Qed.

(** The text of the diff, read back, gives the lines of the diff. *)
Lemma unified_diff_text_lines (rawa rawb fromfile tofile : string) :
  Forall complete_line (readlines rawa) ->
  has_char LF fromfile = false -> has_char CR fromfile = false ->
  has_char LF tofile = false -> has_char CR tofile = false ->
  readlines (join (unified_diff (readlines rawa) (readlines rawb) fromfile tofile 3))
  = unified_diff (readlines rawa) (readlines rawb) fromfile tofile 3.
Proof.
  intros Ha Hf1 Hf2 Ht1 Ht2. apply readlines_join.
  - apply unified_diff_lines_ok; try assumption. apply readlines_lines_ok.
  - apply unified_diff_no_cr; try assumption; apply readlines_no_cr.
Qed.

End PatchFacts.

(** ** The diff synthesizer *)

Module DiffFacts.
Import PyStr Shape PyStrFacts Py PyFacts Difflib Patch PatchFacts Pipeline.

Lemma generate_diff_patch_calm (original fixed patch rawa rawb : string) (w : world) :
  files w original = Some rawa -> files w fixed = Some rawb -> calm 3 w ->
  generate_diff_patch original fixed patch w
  = (Ret tt,
     World (update (files w) patch
                   (join (unified_diff (readlines rawa) (readlines rawb)
                                       original fixed 3)))
           (stdout w) (tl (tl (tl (faults w))))).
Proof.
  intros Ha Hb Hc. unfold generate_diff_patch, bind.
  rewrite (read_lines_calm 2 original rawa w Hc Ha).
  rewrite (read_lines_calm 1 fixed rawb); [| now apply (calm_tl 2 w) | exact Hb].
  unfold write_lines. rewrite (write_text_calm 0); [reflexivity|].
  apply (calm_tl 1 (World (files w) (stdout w) (tl (faults w)))); [|reflexivity].
  now apply (calm_tl 2 w).
Qed.

(** When every line of the original ends with a line feed, the text that
    [generate_diff_patch] writes, applied to the lines of the original,
    gives the lines of the fixed file. *)
Lemma written_diff_round_trip (original fixed patch rawa rawb : string) (w : world) :
  files w original = Some rawa -> files w fixed = Some rawb -> calm 3 w ->
  Forall complete_line (readlines rawa) ->
  has_char LF original = false -> has_char CR original = false ->
  has_char LF fixed = false -> has_char CR fixed = false ->
  fst (generate_diff_patch original fixed patch w) = Ret tt
  /\ (exists text,
         files (snd (generate_diff_patch original fixed patch w)) patch = Some text
         /\ apply_patch (readlines rawa) (readlines text) = Some (readlines rawb)).
Proof.
  intros Ha Hb Hc Hcomplete Ho1 Ho2 Hf1 Hf2.
  rewrite (generate_diff_patch_calm original fixed patch rawa rawb w Ha Hb Hc).
  cbn [fst snd files]. split; [reflexivity|].
  eexists. split; [apply update_same|].
  rewrite unified_diff_text_lines by assumption.
  apply unified_diff_lines_apply.
Qed.

(** C7. The lines of the diff, applied to the first sequence, give the
    second, for every pair of line sequences.  The text that
    [generate_diff_patch] writes does not always: for an original that
    holds the one line [a] with no line feed at its end and a fixed file
    that holds [b], the lines of the diff still give the fixed line, but in
    the written text the line that removes [a] runs into the line that adds
    [b], and the text does not apply. *)
Theorem C7_written_diff_does_not_apply :
  (forall (a b : list string) (fromfile tofile : string),
      apply_patch a (unified_diff a b fromfile tofile 3) = Some b)
  /\ unified_diff (readlines "a") (readlines ("b" ++ nl))
                  "widgets.py" "results/output.py" 3
     = [ "--- widgets.py" ++ nl; "+++ results/output.py" ++ nl;
         "@@ -1 +1 @@" ++ nl; "-a"; "+b" ++ nl ]
  /\ generate_diff_patch "widgets.py" "results/output.py" "results/patch.diff"
       (World one_line_files [] [])
     = (Ret tt,
        World (update one_line_files "results/patch.diff"
                      ("--- widgets.py" ++ nl ++ "+++ results/output.py" ++ nl
                       ++ "@@ -1 +1 @@" ++ nl ++ "-a+b" ++ nl))
              [] [])
  /\ apply_patch (readlines "a")
       (readlines ("--- widgets.py" ++ nl ++ "+++ results/output.py" ++ nl
                   ++ "@@ -1 +1 @@" ++ nl ++ "-a+b" ++ nl))
     = None.
Proof.
  split; [|split; [|split]].
  - intros a b fromfile tofile. apply unified_diff_lines_apply.
  - vm_compute. reflexivity.
  - rewrite (generate_diff_patch_calm "widgets.py" "results/output.py"
               "results/patch.diff" "a" ("b" ++ nl) (World one_line_files [] []));
      [| reflexivity | reflexivity | intros i _; now destruct i].
    vm_compute. reflexivity.
  - vm_compute. reflexivity.
Qed.

(** The end-to-end scenario: the patch that is left has the deletion and
    the addition of the [return] line, the docstring line is gone, and the
    JSONL record holds that patch. *)
Example end_to_end_scenario :
  let w := snd (main_after_agent (Some "django__django-15061") "widgets.py"
                  scenario_responses (World scenario_files [] [])) in
  files w patch_diff_path
  = Some (join [ "diff --git a/django/forms/widgets.py b/django/forms/widgets.py" ++ nl;
                 "--- a/django/forms/widgets.py" ++ nl;
                 "+++ b/django/forms/widgets.py" ++ nl;
                 "@@ -1,2 +1,3 @@" ++ nl;
                 " def f():" ++ nl;
                 "-    return 1" ++ nl;
                 "+    return 2" ++ nl ])
  /\ option_map (fun record => contains "+    return 2" record)
                (files w output_jsonl_path) = Some true
  /\ files w output_py_path
     = Some ("def f():" ++ nl ++ "    " ++ Stripper.TDQ ++ "doc" ++ Stripper.TDQ ++ nl
             ++ "    return 2" ++ nl).
Proof. vm_compute. repeat split. Qed.

End DiffFacts.

(** ** Laws of the docstring stripper *)

Module StripperLaws.
Import PyStr Shape PyStrFacts Py PyFacts Stripper StripperFacts Pipeline PipelineFacts.

(** A line that was kept is kept again by a scan that starts outside a
    docstring, and leaves that scan outside. *)
Lemma kept_rescan (st : scan_state) (l : string) :
  snd (scan_line st l) = true -> scan_line OUTSIDE l = (OUTSIDE, true).
Proof.
  unfold scan_line, OUTSIDE. cbn [in_multiline_docstring docstring_quotes].
  destruct (startswith l "+"); [|reflexivity].
  destruct (in_multiline_docstring st).
  - destruct (quotes_in _ _); discriminate.
  - repeat match goal with
           | |- context [if ?c then _ else _] => destruct c
           end; cbn [snd]; try discriminate; reflexivity.
Qed.

Lemma scan_kept_rescan (st : scan_state) (ls : list string) :
  scan_from OUTSIDE (fst (scan_from st ls)) = (fst (scan_from st ls), OUTSIDE).
Proof.
  revert st. induction ls as [|l ls IH]; intros st; [reflexivity|].
  rewrite scan_from_cons. cbn [fst].
  destruct (snd (scan_line st l)) eqn:Hk; cbn [app].
  - rewrite scan_from_cons, (kept_rescan st l Hk). cbn [fst snd app].
    now rewrite IH.
  - apply IH.
Qed.

Lemma strip_lines_idempotent (ls : list string) :
  strip_lines (strip_lines ls) = strip_lines ls.
Proof.
  unfold strip_lines. change initial with OUTSIDE.
  now rewrite (scan_kept_rescan OUTSIDE ls).
Qed.

Lemma strip_text_idempotent (raw : string) :
  strip_text (strip_text raw) = strip_text raw.
Proof.
  unfold strip_text at 1. rewrite strip_text_lines, strip_lines_idempotent.
  reflexivity.
Qed.

(** X1. Stripping is idempotent: a second run of
    [remove_docstrings_from_patch] on the same file succeeds and leaves the
    file as the first run left it. *)
Theorem X1_strip_twice (path raw : string) (w : world) :
  files w path = Some raw -> calm 4 w ->
  let w1 := snd (remove_docstrings_from_patch path w) in
  fst (remove_docstrings_from_patch path w1) = Ret true
  /\ files (snd (remove_docstrings_from_patch path w1)) path = files w1 path
  /\ files w1 path = Some (strip_text raw).
Proof.
  intros Hf Hc.
  assert (Hc2 : calm 2 w) by (intros i Hi; apply Hc; lia).
  rewrite (remove_docstrings_calm path raw w Hf Hc2). cbn [snd].
  set (w1 := World _ _ _).
  assert (Hf1 : files w1 path = Some (strip_text raw)) by apply update_same.
  assert (Hc1 : calm 2 w1).
  { intros i Hi. unfold w1. cbn [faults].
    specialize (Hc (S (S i)) ltac:(lia)).
    destruct (faults w) as [|f0 [|f1 fs]]; cbn [tl nth] in *;
      [now destruct i | now destruct i | exact Hc]. }
  rewrite (remove_docstrings_calm path (strip_text raw) w1 Hf1 Hc1).
  cbn [fst snd files]. rewrite update_same, Hf1, strip_text_idempotent.
  repeat split.
Qed.

Lemma X1_witness :
  files (snd (remove_docstrings_from_patch "p.diff"
                (World (fun p => if String.eqb p "p.diff"
                                 then Some (join multi_line_docstring) else None)
                       [] [])))
        "p.diff"
  = Some (strip_text (join multi_line_docstring)).
Proof.
  apply (X1_strip_twice "p.diff" (join multi_line_docstring)
           (World (fun p => if String.eqb p "p.diff"
                            then Some (join multi_line_docstring) else None)
                  [] [])).
  - reflexivity.
  - intros i _. now destruct i.
Defined.

(** X2. No addition line that survives the stripper opens a docstring:
    behind its [+] and the white space after it there is no triple
    quote. *)
Theorem X2_no_opener_survives (raw : string) :
  Forall (fun l => is_addition l = true -> ordinary_addition l)
         (readlines (strip_text raw)).
Proof.
  rewrite strip_text_lines. unfold strip_lines.
  generalize initial. induction (readlines raw) as [|l ls IH]; intros st.
  - constructor.
  - rewrite scan_from_cons. cbn [fst].
    destruct (snd (scan_line st l)) eqn:Hk; cbn [app]; [|apply IH].
    constructor; [|apply IH].
    intros Ha. unfold ordinary_addition. split; [exact Ha|].
    unfold is_addition in Ha. unfold scan_line in Hk. rewrite Ha in Hk.
    destruct (in_multiline_docstring st).
    + destruct (quotes_in _ _); discriminate.
    + destruct (startswith (lstrip (drop 1 l)) TDQ) eqn:H1;
        destruct (startswith (lstrip (drop 1 l)) TSQ) eqn:H2;
        cbn [andb] in Hk;
        repeat match type of Hk with
               | context [if ?c then _ else _] => destruct c
               end; cbn [snd] in Hk; try discriminate; auto.
Qed.

Lemma X2_witness :
  Forall (fun l => is_addition l = true -> ordinary_addition l)
         (readlines (strip_text (join multi_line_docstring))).
Proof. apply (X2_no_opener_survives (join multi_line_docstring)). Defined.

(** X3. A docstring that is opened and never closed swallows every later
    addition: when the scan is inside a docstring with delimiter [d] before
    [post] and no addition line of [post] holds [d], the lines kept from
    [post] are its lines that do not begin with [+]. *)
Theorem X3_unclosed_docstring (pre post : list string) (d : string) :
  state_after initial pre = INSIDE d ->
  Forall (fun l => is_addition l = true -> contains d (drop 1 l) = false) post ->
  strip_lines (pre ++ post) = (strip_lines pre ++ filter non_addition post)%list.
Proof.
  intros Hst Hpost. unfold strip_lines. rewrite scan_from_app. cbn [fst].
  f_equal. rewrite Hst. clear Hst pre.
  induction Hpost as [|l ls Hl _ IH]; [reflexivity|].
  rewrite scan_from_cons. cbn [filter]. unfold non_addition at 1.
  destruct (is_addition l) eqn:Ha.
  - unfold scan_line at 1 2. unfold is_addition in Ha. rewrite Ha.
    cbn [INSIDE in_multiline_docstring docstring_quotes quotes_in].
    rewrite (Hl eq_refl), andb_false_r. cbn [fst snd app negb]. exact IH.
  - rewrite (scan_line_non_addition _ _ Ha). cbn [fst snd app negb].
    now rewrite IH.
Qed.

Lemma X3_witness :
  strip_lines (List.app ["+" ++ TDQ ++ nl] ["+x = 1" ++ nl; " y = 2" ++ nl])
  = List.app (strip_lines ["+" ++ TDQ ++ nl])
             (filter non_addition ["+x = 1" ++ nl; " y = 2" ++ nl]).
Proof.
  apply (X3_unclosed_docstring ["+" ++ TDQ ++ nl]
           ["+x = 1" ++ nl; " y = 2" ++ nl] TDQ).
  - reflexivity.
  - repeat constructor; intros _; reflexivity.
Defined.

End StripperLaws.

(** ** Laws of the stages that read the patch file *)

Module StageLaws.
Import PyStr Shape PyStrFacts Py Py.Notations PyFacts Stripper StripperFacts.
Import Header HeaderFacts Pipeline PipelineFacts.

Lemma read_text_missing (path : string) (w : world) :
  files w path = None -> fst (next_fault w) = NoFault ->
  read_text path w
  = (Raise (FileNotFoundError
              ("[Errno 2] No such file or directory: " ++ PyRepr.repr path)),
     World (files w) (stdout w) (snd (next_fault w))).
Proof.
  intros Hf Hn. unfold read_text.
  destruct (next_fault w) as [f rest]. cbn [fst snd] in *. subst f.
  now rewrite Hf.
Qed.

(** X4. With no patch file, each stage reports the failure to its caller
    without raising and creates no file: the stripper and the header
    rewriter return [False], the packager returns without writing the JSONL
    file. *)
Theorem X4_missing_patch_file (path instance_id model_name jsonl : string) (w : world) :
  files w path = None -> fst (next_fault w) = NoFault ->
  (fst (remove_docstrings_from_patch path w) = Ret false
   /\ files (snd (remove_docstrings_from_patch path w)) = files w)
  /\ (fst (modify_patch_file path w) = Ret false
      /\ files (snd (modify_patch_file path w)) = files w)
  /\ (fst (save_patch_to_jsonl path instance_id model_name jsonl w) = Ret tt
      /\ files (snd (save_patch_to_jsonl path instance_id model_name jsonl w))
         = files w).
Proof.
  intros Hf Hn.
  unfold remove_docstrings_from_patch, modify_patch_file, save_patch_to_jsonl,
    read_lines, bind, try_except.
  rewrite (read_text_missing path w Hf Hn).
  cbn [is_FileNotFoundError is_Exception print ret fst snd files].
  repeat split.
Qed.

Lemma X4_witness :
  fst (remove_docstrings_from_patch "results/patch.diff"
         (World (fun _ => None) [] []))
  = Ret false.
Proof.
  apply (X4_missing_patch_file "results/patch.diff" "i" "m" "results/generated.jsonl"
           (World (fun _ => None) [] [])); reflexivity.
Defined.

(** X5. A patch of at most two lines, the empty patch among them, is
    replaced by the three header lines alone: [lines[2:]] is empty there
    and raises nothing. *)
Theorem X5_short_patch_becomes_header (path raw : string) (w : world) :
  files w path = Some raw -> calm 2 w -> length (readlines raw) <= 2 ->
  fst (modify_patch_file path w) = Ret true
  /\ files (snd (modify_patch_file path w)) path = Some (join new_header).
Proof.
  intros Hf Hc Hlen. rewrite (modify_patch_file_calm path raw w Hf Hc).
  cbn [fst snd files]. split; [reflexivity|]. rewrite update_same.
  unfold rewrite_text, rewrite_header.
  destruct (readlines raw) as [|l1 [|l2 [|l3 ls]]]; cbn [skipn];
    try now rewrite app_nil_r.
  cbn [length] in Hlen. lia.
Qed.

Lemma X5_witness :
  files (snd (modify_patch_file "p.diff"
                (World (fun p => if String.eqb p "p.diff" then Some "" else None)
                       [] [])))
        "p.diff"
  = Some (join new_header).
Proof.
  apply (X5_short_patch_becomes_header "p.diff" ""
           (World (fun p => if String.eqb p "p.diff" then Some "" else None) [] [])).
  - reflexivity.
  - intros i _. now destruct i.
  - cbn. lia.
Defined.

Lemma rewrite_text_twice (raw : string) :
  readlines (rewrite_text (rewrite_text raw))
  = List.app new_header
             (("+++ b/django/forms/widgets.py" ++ nl) :: skipn 2 (readlines raw)).
Proof. rewrite !rewrite_text_lines. reflexivity. Qed.

Lemma calm_after_two (n : nat) (w w1 : world) :
  calm (2 + n) w -> faults w1 = tl (tl (faults w)) -> calm n w1.
Proof.
  intros Hc Hw i Hi. rewrite Hw.
  specialize (Hc (S (S i)) ltac:(lia)).
  destruct (faults w) as [|f0 [|f1 fs]]; cbn [tl nth] in *;
    [now destruct i | now destruct i | exact Hc].
Qed.

(** X6. The header rewriter is not idempotent: a second run of
    [modify_patch_file] takes the first two header lines for the old header
    and keeps the third, so the file ends up with the [+++] line twice and
    one line longer than after the first run. *)
Theorem X6_rewrite_twice (path raw : string) (w : world) :
  files w path = Some raw -> calm 4 w ->
  let w1 := snd (modify_patch_file path w) in
  exists text1 text2,
    files w1 path = Some text1
    /\ files (snd (modify_patch_file path w1)) path = Some text2
    /\ readlines text2
       = List.app new_header
           (("+++ b/django/forms/widgets.py" ++ nl) :: skipn 2 (readlines raw))
    /\ length (readlines text2) = S (length (readlines text1)).
Proof.
  intros Hf Hc.
  assert (Hc2 : calm 2 w) by (intros i Hi; apply Hc; lia).
  rewrite (modify_patch_file_calm path raw w Hf Hc2). cbn [snd].
  set (w1 := World _ _ _).
  assert (Hf1 : files w1 path = Some (rewrite_text raw)) by apply update_same.
  assert (Hc1 : calm 2 w1) by (apply (calm_after_two 2 w w1 Hc); reflexivity).
  rewrite (modify_patch_file_calm path (rewrite_text raw) w1 Hf1 Hc1).
  cbn [snd files]. exists (rewrite_text raw), (rewrite_text (rewrite_text raw)).
  split; [exact Hf1|]. split; [apply update_same|].
  split; [apply rewrite_text_twice|].
  rewrite rewrite_text_twice, rewrite_text_lines. unfold rewrite_header.
  rewrite !length_app. cbn [length]. lia.
Qed.

Lemma X6_witness :
  exists text1 text2,
    files (snd (modify_patch_file "p.diff"
                  (World (fun p => if String.eqb p "p.diff" then Some "" else None)
                         [] [])))
          "p.diff" = Some text1
    /\ files (snd (modify_patch_file "p.diff"
                     (snd (modify_patch_file "p.diff"
                             (World (fun p => if String.eqb p "p.diff"
                                              then Some "" else None) [] [])))))
             "p.diff" = Some text2
    /\ readlines text2
       = List.app new_header
           (("+++ b/django/forms/widgets.py" ++ nl) :: skipn 2 (readlines ""))
    /\ length (readlines text2) = S (length (readlines text1)).
Proof.
  apply (X6_rewrite_twice "p.diff" ""
           (World (fun p => if String.eqb p "p.diff" then Some "" else None) [] [])).
  - reflexivity.
  - intros i _. now destruct i.
Defined.

End StageLaws.

(** ** Laws of the code extractor and of the cleanup *)

Module ExtractorLaws.
Import PyStr Shape PyStrFacts Py Py.Notations PyFacts Extractor ExtractorFacts.

Lemma prefix_fence_nil : String.prefix fence "" = false.
Proof. reflexivity. Qed.

(** The lazy group holds no closing fence. *)
Lemma lazy_until_fence_free (s g : string) :
  lazy_until fence s = Some g -> contains fence g = false.
Proof.
  revert g. induction s as [|c s IH]; intros g; cbn [lazy_until].
  - rewrite prefix_fence_nil. discriminate.
  - destruct (String.prefix fence (String c s)) eqn:Hp.
    + intros [= <-]. reflexivity.
    + destruct (lazy_until fence s) as [g'|] eqn:Hl; [|discriminate].
      intros [= <-]. cbn [contains]. rewrite (IH g' eq_refl), orb_false_r.
      destruct (String.prefix fence (String c g')) eqn:Hq; [|reflexivity].
      apply lazy_until_sound in Hl as [rest ->].
      pose proof (prefix_length _ _ Hq) as Hlen.
      change (String c (g' ++ fence ++ rest))
        with (String c g' ++ (fence ++ rest)) in Hp.
      rewrite prefix_append_r in Hp by exact Hlen. congruence.
Qed.

Lemma re_search_fence_free (opener s g : string) :
  re_search opener s = Some g -> contains fence g = false.
Proof.
  induction s as [|c s IH]; cbn [re_search]; unfold match_here.
  - destruct (String.prefix opener ""); [|discriminate].
    destruct (lazy_until fence _) eqn:Hl; [|discriminate].
    intros [= <-]. exact (lazy_until_fence_free _ _ Hl).
  - destruct (String.prefix opener (String c s)).
    + destruct (lazy_until fence _) eqn:Hl.
      * intros [= <-]. exact (lazy_until_fence_free _ _ Hl).
      * exact IH.
    + exact IH.
Qed.

(** X7. A block taken from between fences holds no fence: when the result
    of the extractor still has three backticks in a row, no fenced block was
    found and the result is the whole input. *)
Theorem X7_fence_left_means_fallback (output v : string) (w w' : world) :
  extract_code_from_output output w = (Ret v, w') ->
  contains fence v = true ->
  v = output
  /\ re_search python_fence_open output = None
  /\ re_search plain_fence_open output = None.
Proof.
  unfold extract_code_from_output. intros H Hv.
  destruct (re_search python_fence_open output) as [g|] eqn:H1.
  - injection H as <- _. rewrite (re_search_fence_free _ _ _ H1) in Hv. discriminate.
  - destruct (re_search plain_fence_open output) as [g|] eqn:H2.
    + injection H as <- _. rewrite (re_search_fence_free _ _ _ H2) in Hv. discriminate.
    + destruct (starts_like_code output); cbv [bind print ret] in H;
        injection H as <- _; repeat split.
Qed.

Lemma X7_witness :
  "```python x = 1" = "```python x = 1"
  /\ re_search python_fence_open "```python x = 1" = None
  /\ re_search plain_fence_open "```python x = 1" = None.
Proof.
  apply (X7_fence_left_means_fallback "```python x = 1" "```python x = 1"
           (World (fun _ => None) [] [])
           (World (fun _ => None)
                  ["DEBUG - Code generator output:"; "```python x = 1"] []));
    reflexivity.
Defined.

End ExtractorLaws.

(** ** Laws of the JSON record *)

Module JsonLaws.
Import PyStr Shape PyStrFacts Py Py.Notations PyFacts Json Charset Pipeline.

Lemma all_chars_append (P : ascii -> bool) (s t : string) :
  all_chars P (s ++ t) = all_chars P s && all_chars P t.
Proof.
  induction s as [|c s IH]; [reflexivity|].
  cbn [append all_chars]. now rewrite IH, andb_assoc.
Qed.

Lemma escape_char_printable (c : ascii) : all_chars printable (escape_char c) = true.
Proof. destruct c as [[] [] [] [] [] [] [] []]; reflexivity. Qed.

Lemma escape_printable (s : string) : all_chars printable (escape s) = true.
Proof.
  induction s as [|c s IH]; [reflexivity|].
  cbn [escape]. now rewrite all_chars_append, escape_char_printable, IH.
Qed.

Lemma dumps_str_printable (s : string) : all_chars printable (dumps_str s) = true.
Proof.
  unfold dumps_str. cbn [all_chars]. rewrite all_chars_append, escape_printable.
  reflexivity.
Qed.

Lemma dumps_patch_data_printable (i m p : string) :
  all_chars printable (dumps_patch_data i m p) = true.
Proof.
  unfold dumps_patch_data.
  repeat (rewrite all_chars_append || rewrite dumps_str_printable).
  reflexivity.
Qed.

Lemma printable_no_char (c : ascii) (s : string) :
  printable c = false -> all_chars printable s = true -> has_char c s = false.
Proof.
  intros Hc. induction s as [|d s IH]; [reflexivity|].
  cbn [all_chars has_char]. intros H. apply andb_true_iff in H as [Hd Hs].
  rewrite (IH Hs), orb_false_r.
  destruct (Ascii.eqb d c) eqn:E; [|reflexivity].
  apply Ascii.eqb_eq in E. congruence.
Qed.

(** A text without line breaks, followed by a line feed, is one line. *)
Lemma readlines_one_line (s : string) :
  has_char LF s = false -> has_char CR s = false ->
  readlines (s ++ nl) = [s ++ nl].
Proof.
  intros Hlf Hcr.
  rewrite <- (append_nil_r (s ++ nl)) at 1.
  change ((s ++ nl) ++ "") with (join [s ++ nl]).
  apply readlines_join.
  - split; [|exact I]. left. now exists s.
  - constructor; [|constructor]. rewrite has_char_append, Hcr. reflexivity.
Qed.

(** X9. The record written by [save_patch_to_jsonl] is one line of
    printable ASCII: whatever the patch holds (line feeds, quotes, other
    bytes), the JSONL file has exactly one line. *)
Theorem X9_record_is_one_line
        (patch instance_id model_name jsonl raw : string) (w : world) :
  files w patch = Some raw -> calm 2 w ->
  exists record,
    files (snd (save_patch_to_jsonl patch instance_id model_name jsonl w)) jsonl
    = Some (record ++ nl)
    /\ all_chars printable record = true
    /\ readlines (record ++ nl) = [record ++ nl].
Proof.
  intros Hf Hc.
  exists (dumps_patch_data instance_id model_name (universal_newlines raw)).
  pose proof (dumps_patch_data_printable instance_id model_name
                (universal_newlines raw)) as Hp.
  split; [|split; [exact Hp|]].
  - unfold save_patch_to_jsonl, bind, try_except.
    rewrite (read_text_calm 1 patch raw w Hc Hf).
    cbn [ret is_FileNotFoundError].
    rewrite (write_text_calm 0).
    + cbn [print snd files]. apply update_same.
    + intros i Hi. cbn [faults]. specialize (Hc (S i) ltac:(lia)).
      destruct (faults w); [now destruct i | exact Hc].
  - apply readlines_one_line; apply printable_no_char; auto.
Qed.

Lemma X9_witness :
  exists record,
    files (snd (save_patch_to_jsonl "widgets.py" "i" "m" "out.jsonl"
                  (World two_line_files [] [])))
          "out.jsonl" = Some (record ++ nl)
    /\ all_chars printable record = true
    /\ readlines (record ++ nl) = [record ++ nl].
Proof.
  apply (X9_record_is_one_line "widgets.py" "i" "m" "out.jsonl"
           ("def f():" ++ nl ++ "    return 1" ++ nl)
           (World two_line_files [] [])).
  - reflexivity.
  - intros i _. now destruct i.
Defined.

Lemma unescape_head_escape (c : ascii) (r : string) :
  unescape_head (escape_char c ++ r) = Some (c, r).
Proof. destruct c as [[] [] [] [] [] [] [] []]; reflexivity. Qed.

(** The body of a JSON string ends at the first bare double quote: two
    escaped texts followed by a quote agree only if the texts agree. *)
Lemma escape_inj (s1 s2 t1 t2 : string) :
  escape s1 ++ String DQ t1 = escape s2 ++ String DQ t2 -> s1 = s2 /\ t1 = t2.
Proof.
  revert s2. induction s1 as [|c1 s1 IH]; intros [|c2 s2]; cbn [escape]; intros H.
  - cbn [append] in H. injection H as ->. now split.
  - apply (f_equal unescape_head) in H.
    rewrite append_assoc, unescape_head_escape in H. discriminate.
  - apply (f_equal unescape_head) in H.
    rewrite append_assoc, unescape_head_escape in H. discriminate.
  - apply (f_equal unescape_head) in H.
    rewrite !append_assoc, !unescape_head_escape in H.
    injection H as -> H. destruct (IH _ H) as [-> ->]. now split.
Qed.

Lemma dumps_str_inj (s1 s2 t1 t2 : string) :
  dumps_str s1 ++ t1 = dumps_str s2 ++ t2 -> s1 = s2 /\ t1 = t2.
Proof.
  unfold dumps_str. cbn [append]. rewrite !append_assoc. cbn [append].
  intros [= H]. exact (escape_inj _ _ _ _ H).
Qed.

Lemma append_inv_head (p s t : string) : p ++ s = p ++ t -> s = t.
Proof. induction p as [|c p IH]; cbn [append]; [auto | intros [= H]; auto]. Qed.

(** X10. The record loses nothing: two records are equal only if they were
    made from the same instance id, the same model name and the same patch
    text. *)
Theorem X10_record_determines_patch (i1 m1 p1 i2 m2 p2 : string) :
  dumps_patch_data i1 m1 p1 = dumps_patch_data i2 m2 p2 ->
  i1 = i2 /\ m1 = m2 /\ p1 = p2.
Proof.
  unfold dumps_patch_data. intros H.
  apply (append_inv_head "{") in H.
  apply dumps_str_inj in H as [_ H].
  apply (append_inv_head ": ") in H.
  apply dumps_str_inj in H as [Hi H].
  apply (append_inv_head ", ") in H.
  apply dumps_str_inj in H as [_ H].
  apply (append_inv_head ": ") in H.
  apply dumps_str_inj in H as [Hm H].
  apply (append_inv_head ", ") in H.
  apply dumps_str_inj in H as [_ H].
  apply (append_inv_head ": ") in H.
  apply dumps_str_inj in H as [Hp _].
  now repeat split.
Qed.

Lemma X10_witness : "i" = "i" /\ "m" = "m" /\ "+x" ++ nl = "+x" ++ nl.
Proof.
  apply (X10_record_determines_patch "i" "m" ("+x" ++ nl) "i" "m" ("+x" ++ nl)).
  reflexivity.
Defined.

End JsonLaws.

(** ** Laws of the driver *)

Module DriverLaws.
Import PyStr Shape PyStrFacts Py Py.Notations PyFacts Stripper StripperFacts.
Import Header HeaderFacts Difflib Json Pipeline PipelineFacts PatchFacts DiffFacts.

Lemma save_patch_to_jsonl_calm (patch i m jsonl raw : string) (w : world) :
  files w patch = Some raw -> calm 2 w ->
  save_patch_to_jsonl patch i m jsonl w
  = (Ret tt,
     World (update (files w) jsonl
                   (dumps_patch_data i m (universal_newlines raw) ++ nl))
           (stdout w ++ [("Patch data saved to " ++ jsonl)%string])%list
           (tl (tl (faults w)))).
Proof.
  intros Hf Hc. unfold save_patch_to_jsonl, bind, try_except.
  rewrite (read_text_calm 1 patch raw w Hc Hf). cbn [ret is_FileNotFoundError].
  rewrite (write_text_calm 0); [reflexivity|].
  intros j Hj. cbn [faults]. specialize (Hc (S j) ltac:(lia)).
  destruct (faults w); [now destruct j | exact Hc].
Qed.

(** The two file lines of a diff pass the stripper and leave it outside a
    docstring. *)
Lemma strip_lines_file_lines (fromfile tofile : string) (hunks : list string) :
  strip_lines (("--- " ++ fromfile ++ nl) :: ("+++ " ++ tofile ++ nl) :: hunks)
  = ("--- " ++ fromfile ++ nl) :: ("+++ " ++ tofile ++ nl) :: strip_lines hunks.
Proof. unfold strip_lines. rewrite !scan_from_cons. reflexivity. Qed.

Lemma strip_lines_unified_diff (a b : list string) (fromfile tofile : string) :
  skipn 2 (strip_lines (unified_diff a b fromfile tofile 3))
  = strip_lines (skipn 2 (unified_diff a b fromfile tofile 3)).
Proof.
  unfold unified_diff. destruct (get_grouped_opcodes a b 3); [reflexivity|].
  rewrite strip_lines_file_lines. reflexivity.
Qed.

Lemma calm_after_three (n : nat) (w w1 : world) :
  calm (3 + n) w -> faults w1 = tl (tl (tl (faults w))) -> calm n w1.
Proof.
  intros Hc Hw i Hi. rewrite Hw.
  specialize (Hc (S (S (S i))) ltac:(lia)).
  destruct (faults w) as [|f0 [|f1 [|f2 fs]]]; cbn [tl nth] in *;
    [now destruct i | now destruct i | now destruct i | exact Hc].
Qed.

(** The last block of [main] on a run without faults, stage by stage. *)
Lemma make_patch_calm (instance_id : option string)
      (original rawa rawb : string) (w : world) :
  files w original = Some rawa -> files w output_py_path = Some rawb ->
  calm 9 w ->
  let diff := unified_diff (readlines rawa) (readlines rawb)
                           original output_py_path 3 in
  let text := rewrite_text (strip_text (join diff)) in
  let w' := snd (make_patch instance_id original w) in
  fst (make_patch instance_id original w) = Ret tt
  /\ files w' patch_diff_path = Some text
  /\ files w' output_jsonl_path
     = Some (dumps_patch_data
               (match instance_id with Some i => i | None => "unknown_instance" end)
               "gemini-2.5-pro" (universal_newlines text) ++ nl).
Proof.
  intros Ha Hb Hc diff text.
  assert (Hc3 : calm 3 w) by (intros i Hi; apply Hc; lia).
  pose proof (generate_diff_patch_calm original output_py_path patch_diff_path
                rawa rawb w Ha Hb Hc3) as Hgen.
  fold diff in Hgen. set (w1 := World _ _ _) in Hgen.
  assert (Hf1 : files w1 patch_diff_path = Some (join diff)) by apply update_same.
  assert (Hc1 : calm 6 w1) by (apply (calm_after_three 6 w w1 Hc); reflexivity).
  assert (Hc12 : calm 2 w1) by (intros i Hi; apply Hc1; lia).
  pose proof (remove_docstrings_calm patch_diff_path (join diff) w1 Hf1 Hc12) as Hrem.
  set (w2 := World _ _ _) in Hrem.
  assert (Hf2 : files w2 patch_diff_path = Some (strip_text (join diff)))
    by apply update_same.
  assert (Hc2 : calm 4 w2)
    by (apply (StageLaws.calm_after_two 4 w1 w2 Hc1); reflexivity).
  assert (Hc22 : calm 2 w2) by (intros i Hi; apply Hc2; lia).
  pose proof (modify_patch_file_calm patch_diff_path _ w2 Hf2 Hc22) as Hmod.
  set (w3 := World _ _ _) in Hmod.
  assert (Hf3 : files w3 patch_diff_path = Some text) by apply update_same.
  assert (Hc3' : calm 2 w3)
    by (apply (StageLaws.calm_after_two 2 w2 w3 Hc2); reflexivity).
  pose proof (save_patch_to_jsonl_calm patch_diff_path
                (match instance_id with Some i => i | None => "unknown_instance" end)
                "gemini-2.5-pro" output_jsonl_path text w3 Hf3 Hc3') as Hsave.
  cbv zeta.
  unfold make_patch, try_except, bind.
  rewrite Hgen, Hrem, Hmod, Hsave. cbn [print fst snd files].
  split; [reflexivity|]. split.
  - rewrite update_other by (intros E; discriminate E). exact Hf3.
  - apply update_same.
Qed.

(** X11. The whole last block of [main] on a run without faults: the patch
    file ends up holding the fixed three-line header followed by the hunk
    lines of the diff less the docstring additions, the JSONL record holds
    exactly that text, and nothing is raised.  The original file is taken
    to end each of its lines with a line feed. *)
Theorem X11_patch_file_shape (instance_id : option string)
        (original rawa rawb : string) (w : world) :
  files w original = Some rawa -> files w output_py_path = Some rawb ->
  calm 9 w -> Forall complete_line (readlines rawa) ->
  has_char LF original = false -> has_char CR original = false ->
  let diff := unified_diff (readlines rawa) (readlines rawb)
                           original output_py_path 3 in
  let text := join (List.app new_header (strip_lines (skipn 2 diff))) in
  let w' := snd (make_patch instance_id original w) in
  fst (make_patch instance_id original w) = Ret tt
  /\ files w' patch_diff_path = Some text
  /\ files w' output_jsonl_path
     = Some (dumps_patch_data
               (match instance_id with Some i => i | None => "unknown_instance" end)
               "gemini-2.5-pro" text ++ nl).
Proof.
  intros Ha Hb Hc Hcomplete Hlf Hcr diff text.
  assert (Htext : rewrite_text (strip_text (join diff)) = text).
  { unfold rewrite_text, rewrite_header, text. do 2 f_equal.
    rewrite strip_text_lines. unfold diff.
    rewrite unified_diff_text_lines by (assumption || reflexivity).
    apply strip_lines_unified_diff. }
  assert (Hnocr : has_char CR text = false).
  { unfold text. apply has_char_join, Forall_app. split.
    - repeat constructor.
    - apply (subseq_Forall _ _ (skipn 2 diff)); [apply scan_subseq|].
      apply Forall_skipn. unfold diff.
      apply unified_diff_no_cr; try apply readlines_no_cr;
        (assumption || reflexivity). }
  pose proof (make_patch_calm instance_id original rawa rawb w Ha Hb Hc) as H.
  cbv zeta in H. fold diff in H. rewrite Htext in H.
  rewrite (universal_newlines_id text Hnocr) in H. exact H.
Qed.

Lemma X11_witness :
  fst (make_patch None "widgets.py" (World two_line_files [] [])) = Ret tt.
Proof.
  apply (X11_patch_file_shape None "widgets.py"
           ("def f():" ++ nl ++ "    return 1" ++ nl)
           ("def f():" ++ nl ++ "    return 2" ++ nl)
           (World two_line_files [] [])); try reflexivity.
  - intros i _. now destruct i.
  - constructor; [now exists "def f():"|].
    constructor; [now exists "    return 1" | constructor].
Defined.

(** X12. When the original file cannot be found, the last block of [main]
    catches the error, prints it and returns: no patch and no JSONL file
    are written, and files left by an earlier run stay as they were. *)
Theorem X12_missing_original (instance_id : option string) (original : string)
        (w : world) :
  files w original = None -> fst (next_fault w) = NoFault ->
  make_patch instance_id original w
  = (Ret tt,
     World (files w)
           (stdout w
            ++ [("Error generating diff patch: "
                 ++ "[Errno 2] No such file or directory: "
                 ++ PyRepr.repr original)%string])%list
           (snd (next_fault w))).
Proof.
  intros Hf Hn.
  unfold make_patch, generate_diff_patch, read_lines, try_except, bind.
  rewrite (StageLaws.read_text_missing original w Hf Hn). reflexivity.
Qed.

Lemma X12_witness :
  make_patch None "widgets.py" (World (fun _ => None) [] [])
  = (Ret tt,
     World (fun _ => None)
           ["Error generating diff patch: [Errno 2] No such file or directory: 'widgets.py'"]
           []).
Proof.
  apply (X12_missing_original None "widgets.py" (World (fun _ => None) [] []));
    reflexivity.
Defined.

Lemma extract_no_marker (responses : list string) (w : world) :
  Forall (fun r => contains "[code_generator_agent]:" r = false) responses ->
  extract_code_generator_output responses w = (Ret "", w).
Proof.
  induction 1 as [|r rs Hr _ IH]; [reflexivity|].
  cbn [extract_code_generator_output]. now rewrite Hr.
Qed.

(** X13. When no response mentions the generator's marker, [main] stops
    with exit status 1: the responses are saved to the debug file, and no
    other file is written: no [output.py], no patch, no JSONL. *)
Theorem X13_no_generator_answer (instance_id : option string) (original : string)
        (responses : list string) (w : world) :
  Forall (fun r => contains "[code_generator_agent]:" r = false) responses ->
  calm 1 w ->
  let w' := snd (main_after_agent instance_id original responses w) in
  fst (main_after_agent instance_id original responses w) = Raise (SystemExit 1)
  /\ files w' debug_file
     = Some (join (map (fun response =>
                          response ++ nl ++ nl ++ repeat_string "=" 80 ++ nl ++ nl)
                       responses))
  /\ (forall p, p <> debug_file -> files w' p = files w p).
Proof.
  intros Hno Hc. cbv zeta.
  unfold main_after_agent, bind. rewrite (extract_no_marker responses w Hno).
  change (Extractor.extract_code_from_output "" w)
    with (Ret "", World (files w)
                    ((stdout w ++ ["DEBUG - Code generator output:"]) ++ [""])%list
                    (faults w)).
  cbn [truthy negb print].
  rewrite (write_text_calm 0) by exact Hc.
  cbn [raise fst snd files]. split; [reflexivity|]. split.
  - apply update_same.
  - intros p Hp. now apply update_other.
Qed.

Lemma X13_witness :
  fst (main_after_agent None "widgets.py" ["[code_analyser_agent]: looks fine"]
         (World (fun _ => None) [] []))
  = Raise (SystemExit 1).
Proof.
  apply (X13_no_generator_answer None "widgets.py"
           ["[code_analyser_agent]: looks fine"] (World (fun _ => None) [] [])).
  - repeat constructor.
  - intros i _. now destruct i.
Defined.

End DriverLaws.

(** ** Laws of the agents' callback *)

Module CallbackLaws.
Import PyStr Shape PyStrFacts Py Callback.
Local Open Scope nat_scope.
Local Open Scope list_scope.

Lemma before_first_prefix (sep s : string) :
  exists rest, s = (before_first sep s ++ rest)%string.
Proof.
  induction s as [|c s [rest IH]]; cbn [before_first].
  - destruct (String.prefix sep ""); now exists ""%string.
  - destruct (String.prefix sep (String c s)).
    + now exists (String c s).
    + exists rest. cbn [append]. now rewrite <- IH.
Qed.

(** The text kept before the mark holds no mark. *)
Lemma before_first_unmarked (s : string) :
  contains _END_OF_EDIT_MARK (before_first _END_OF_EDIT_MARK s) = false.
Proof.
  induction s as [|c s IH]; [reflexivity|]. cbn [before_first].
  destruct (String.prefix _END_OF_EDIT_MARK (String c s)) eqn:Hp; [reflexivity|].
  cbn [contains]. rewrite IH, orb_false_r.
  destruct (String.prefix _END_OF_EDIT_MARK
              (String c (before_first _END_OF_EDIT_MARK s))) eqn:Hq; [|reflexivity].
  destruct (before_first_prefix _END_OF_EDIT_MARK s) as [rest Hrest].
  pose proof (prefix_length _ _ Hq) as Hlen.
  rewrite Hrest in Hp.
  change (String c (before_first _END_OF_EDIT_MARK s ++ rest)%string)
    with (String c (before_first _END_OF_EDIT_MARK s) ++ rest)%string in Hp.
  rewrite prefix_append_r in Hp by exact Hlen. congruence.
Qed.

Lemma nth_error_middle {A : Type} (done rest : list A) (x : A) :
  nth_error (done ++ x :: rest) (length done) = Some x.
Proof. induction done as [|d done IH]; [reflexivity | exact IH]. Qed.

Lemma nth_error_end {A : Type} (l : list A) : nth_error l (length l) = None.
Proof. induction l as [|x l IH]; [reflexivity | exact IH]. Qed.

Lemma firstn_middle {A : Type} (done rest : list A) (x : A) :
  firstn (S (length done)) (done ++ x :: rest) = done ++ [x].
Proof.
  induction done as [|d done IH]; [reflexivity|].
  cbn [length app]. rewrite firstn_cons. now rewrite IH.
Qed.

Lemma set_text_last (done : list (option string)) (p : option string) (t : string) :
  set_text (length done) t (done ++ [p]) = done ++ [Some t].
Proof.
  induction done as [|d done IH]; [reflexivity|].
  cbn [length app set_text]. now rewrite IH.
Qed.

(** The loop passes over parts that do not hold the mark. *)
Lemma loop_pass (pre : list (option string)) :
  Forall unmarked pre ->
  forall (fuel : nat) (done rest : list (option string)),
    loop (length pre + fuel) (length done) (done ++ pre ++ rest)
    = loop fuel (length done + length pre) (done ++ pre ++ rest).
Proof.
  induction 1 as [|p pre (text & -> & Hp) _ IH]; intros fuel done rest.
  - cbn [length app]. now rewrite Nat.add_0_r.
  - cbn [length Nat.add loop]. cbn [app]. rewrite nth_error_middle, Hp.
    replace (done ++ Some text :: pre ++ rest)
      with ((done ++ [Some text]) ++ pre ++ rest)
      by (rewrite <- app_assoc; reflexivity).
    replace (S (length done)) with (length (done ++ [Some text]))
      by (rewrite length_app; cbn [length]; lia).
    rewrite IH. f_equal. rewrite length_app. cbn [length]. lia.
Qed.

Lemma loop_step (fuel idx : nat) (parts : list (option string)) :
  loop (S fuel) idx parts
  = match nth_error parts idx with
    | None => Ret parts
    | Some None =>
        Raise (OtherException "argument of type 'NoneType' is not iterable")
    | Some (Some text) =>
        if contains _END_OF_EDIT_MARK text then
          loop fuel (S idx)
               (set_text idx (before_first _END_OF_EDIT_MARK text)
                         (firstn (S idx) parts))
        else loop fuel (S idx) parts
    end.
Proof. reflexivity. Qed.

Lemma loop_at_end (fuel : nat) (parts : list (option string)) :
  loop fuel (length parts) parts = Ret parts.
Proof. destruct fuel; [reflexivity|]. cbn [loop]. now rewrite nth_error_end. Qed.

Lemma callback_on_parts (parts : list (option string)) :
  parts <> [] ->
  _remove_end_of_edit_mark (Some (Some parts))
  = match loop (S (length parts)) 0 parts with
    | Ret parts' => Ret (Some (Some parts'))
    | Raise e => Raise e
    end.
Proof. destruct parts; [congruence | reflexivity]. Qed.

Lemma loop_unmarked (parts : list (option string)) :
  Forall unmarked parts -> loop (S (length parts)) 0 parts = Ret parts.
Proof.
  intros H. pose proof (loop_pass parts H 1 [] []) as E.
  cbn [length app Nat.add] in E. rewrite app_nil_r in E.
  replace (length parts + 1) with (S (length parts)) in E by lia.
  rewrite E. apply loop_at_end.
Qed.

Lemma loop_marked (pre post : list (option string)) (text : string) :
  Forall unmarked pre -> contains _END_OF_EDIT_MARK text = true ->
  loop (S (length (pre ++ Some text :: post))) 0 (pre ++ Some text :: post)
  = Ret (pre ++ [Some (before_first _END_OF_EDIT_MARK text)]).
Proof.
  intros H Hm.
  pose proof (loop_pass pre H (S (S (length post))) [] (Some text :: post)) as E.
  cbn [length app Nat.add] in E.
  rewrite length_app. cbn [length].
  replace (S (length pre + S (length post)))
    with (length pre + S (S (length post))) by lia.
  rewrite E, loop_step, nth_error_middle, Hm, firstn_middle, set_text_last.
  replace (S (length pre))
    with (length (pre ++ [Some (before_first _END_OF_EDIT_MARK text)]))
    by (rewrite length_app; cbn [length]; lia).
  apply loop_at_end.
Qed.

Lemma loop_textless (pre post : list (option string)) :
  Forall unmarked pre ->
  loop (S (length (pre ++ None :: post))) 0 (pre ++ None :: post)
  = Raise (OtherException "argument of type 'NoneType' is not iterable").
Proof.
  intros H.
  pose proof (loop_pass pre H (S (S (length post))) [] (None :: post)) as E.
  cbn [length app Nat.add] in E.
  rewrite length_app. cbn [length].
  replace (S (length pre + S (length post)))
    with (length pre + S (S (length post))) by lia.
  rewrite E, loop_step. now rewrite nth_error_middle.
Qed.

Lemma callback_cases (pre : list (option string)) :
  Forall unmarked pre ->
  (forall (text : string) (post : list (option string)),
      contains _END_OF_EDIT_MARK text = true ->
      _remove_end_of_edit_mark (Some (Some (pre ++ Some text :: post)))
      = Ret (Some (Some (pre ++ [Some (before_first _END_OF_EDIT_MARK text)]))))
  /\ _remove_end_of_edit_mark (Some (Some pre)) = Ret (Some (Some pre)).
Proof.
  intros H. split.
  - intros text post Hm. rewrite callback_on_parts by (now destruct pre).
    now rewrite loop_marked.
  - destruct pre as [|p pre]; [reflexivity|].
    rewrite callback_on_parts by discriminate. now rewrite loop_unmarked.
Qed.

(** X14. The callback cuts the response at the first mark: the parts
    before the first part that holds the mark stay, that part keeps its
    text up to the mark, and every part after it is dropped, whatever it
    holds.  A response without the mark is returned as it is. *)
Theorem X14_cut_at_first_mark (pre post : list (option string)) (text : string) :
  Forall unmarked pre ->
  (contains _END_OF_EDIT_MARK text = true ->
   _remove_end_of_edit_mark (Some (Some (pre ++ Some text :: post)))
   = Ret (Some (Some (pre ++ [Some (before_first _END_OF_EDIT_MARK text)]))))
  /\ _remove_end_of_edit_mark (Some (Some pre)) = Ret (Some (Some pre)).
Proof.
  intros H. destruct (callback_cases pre H) as [H1 H2].
  split; [intros Hm; now apply H1 | exact H2].
Qed.

Lemma X14_witness :
  _remove_end_of_edit_mark
    (Some (Some ([Some "a"%string] ++ [Some "b---END-OF-EDIT---c"%string; None])))
  = Ret (Some (Some ([Some "a"%string]
                     ++ [Some (before_first _END_OF_EDIT_MARK
                                 "b---END-OF-EDIT---c")]))).
Proof.
  apply (X14_cut_at_first_mark [Some "a"%string] [None] "b---END-OF-EDIT---c").
  - repeat constructor. now exists "a"%string.
  - reflexivity.
Defined.

(** X15. A part without text that comes before any mark makes the callback
    raise [TypeError]: the membership test is made on [None]. *)
Theorem X15_textless_part_raises (pre post : list (option string)) :
  Forall unmarked pre ->
  _remove_end_of_edit_mark (Some (Some (pre ++ None :: post)))
  = Raise (OtherException "argument of type 'NoneType' is not iterable").
Proof.
  intros H. rewrite callback_on_parts by (now destruct pre).
  now rewrite loop_textless.
Qed.

Lemma X15_witness :
  _remove_end_of_edit_mark
    (Some (Some ([Some "a"%string] ++ [None; Some "b---END-OF-EDIT---"%string])))
  = Raise (OtherException "argument of type 'NoneType' is not iterable").
Proof.
  apply (X15_textless_part_raises [Some "a"%string]
           [Some "b---END-OF-EDIT---"%string]).
  repeat constructor. now exists "a"%string.
Defined.

(** Every list of parts has one of three shapes. *)
Lemma parts_shape (parts : list (option string)) :
  Forall unmarked parts
  \/ (exists pre text post,
         parts = pre ++ Some text :: post /\ Forall unmarked pre
         /\ contains _END_OF_EDIT_MARK text = true)
  \/ (exists pre post, parts = pre ++ None :: post /\ Forall unmarked pre).
Proof.
  induction parts as [|p parts IH]; [left; constructor|].
  destruct p as [text|].
  - destruct (contains _END_OF_EDIT_MARK text) eqn:Hm.
    + right; left. exists [], text, parts. repeat split; [constructor | exact Hm].
    + assert (Hu : unmarked (Some text)) by now exists text.
      destruct IH as [IH | [(pre & t & post & -> & Hpre & Ht)
                           | (pre & post & -> & Hpre)]].
      * left. now constructor.
      * right; left. exists (Some text :: pre), t, post.
        repeat split; [now constructor | exact Ht].
      * right; right. exists (Some text :: pre), post.
        split; [reflexivity | now constructor].
  - right; right. exists [], parts. split; [reflexivity | constructor].
Qed.

(** X16. Whenever the callback returns, no part of the response it
    returns holds the mark, and applying the callback again changes
    nothing. *)
Theorem X16_result_unmarked (parts parts' : list (option string)) :
  _remove_end_of_edit_mark (Some (Some parts)) = Ret (Some (Some parts')) ->
  Forall unmarked parts'
  /\ _remove_end_of_edit_mark (Some (Some parts')) = Ret (Some (Some parts')).
Proof.
  intros Hr.
  assert (Hu : Forall unmarked parts').
  { destruct (parts_shape parts)
      as [H | [(pre & t & post & -> & Hpre & Ht) | (pre & post & -> & Hpre)]].
    - rewrite (proj2 (callback_cases parts H)) in Hr.
      now injection Hr as <-.
    - rewrite (proj1 (callback_cases pre Hpre) t post Ht) in Hr.
      injection Hr as <-. apply Forall_app. split; [exact Hpre|].
      constructor; [|constructor].
      exists (before_first _END_OF_EDIT_MARK t).
      split; [reflexivity | apply before_first_unmarked].
    - rewrite callback_on_parts in Hr by (now destruct pre).
      now rewrite loop_textless in Hr. }
  split; [exact Hu|]. exact (proj2 (callback_cases parts' Hu)).
Qed.

Lemma X16_witness :
  Forall unmarked [Some "a"%string]
  /\ _remove_end_of_edit_mark (Some (Some [Some "a"%string]))
     = Ret (Some (Some [Some "a"%string])).
Proof.
  apply (X16_result_unmarked [Some "a---END-OF-EDIT---b"%string] [Some "a"%string]).
  reflexivity.
Defined.

End CallbackLaws.

(** ** Laws of the prompt modules *)

Module PromptLaws.
Import PyStr Shape PyStrFacts Py Py.Notations PyFacts PyPath Prompt.

Lemma replace_from_skip (old new : string) (k : nat) (s : string) :
  replace_from old new k s = replace_from old new 0 (drop k s).
Proof.
  revert k. induction s as [|c s IH]; intros [|k]; try reflexivity.
  cbn [replace_from drop]. apply IH.
Qed.

Lemma prefix_nil_r (p : string) : String.prefix p "" = true -> p = "".
Proof. destruct p; [reflexivity | discriminate]. Qed.

Lemma prefix_nil_l (s : string) : String.prefix "" s = true.
Proof. now destruct s. Qed.

Lemma prefix_cons (a b : ascii) (q s : string) :
  String.prefix (String a q) (String b s) = true ->
  a = b /\ String.prefix q s = true.
Proof. cbn [String.prefix]. destruct (ascii_dec a b); [auto | discriminate]. Qed.

Lemma prefix_cons_same (a : ascii) (q s : string) :
  String.prefix (String a q) (String a s) = String.prefix q s.
Proof. cbn [String.prefix]. destruct (ascii_dec a a); [reflexivity | congruence]. Qed.

Section Replace.
Variables (o0 n0 : ascii) (otail ntail : string).
Let old := String o0 otail.
Let new := String n0 ntail.
Hypothesis tail_free : has_char n0 otail = false.
Hypothesis no_overlap : never_inside old new.

Lemma replace_match (s : string) :
  String.prefix old s = true ->
  replace old new s = new ++ replace old new (drop (String.length old) s).
Proof.
  intros Hp. destruct s as [|c r]; [discriminate|].
  unfold replace. cbn [replace_from]. rewrite Hp.
  rewrite replace_from_skip.
  replace (String.length old - 1) with (String.length otail)
    by (unfold old; cbn [String.length]; lia).
  reflexivity.
Qed.

Lemma replace_step (c : ascii) (r : string) :
  String.prefix old (String c r) = false ->
  replace old new (String c r) = String c (replace old new r).
Proof. intros Hp. unfold replace. cbn [replace_from]. now rewrite Hp. Qed.

(** A text free of [n0] that begins the result began the input. *)
Lemma prefix_replace_back (q : string) :
  has_char n0 q = false ->
  forall r, String.prefix q (replace old new r) = true -> String.prefix q r = true.
Proof.
  induction q as [|a q IH]; intros Hq r Hp; [apply prefix_nil_l|].
  cbn [has_char] in Hq. apply orb_false_iff in Hq as [Ha Hq].
  destruct r as [|d r]; [discriminate|].
  destruct (String.prefix old (String d r)) eqn:Ho.
  - rewrite (replace_match _ Ho) in Hp. unfold new in Hp. cbn [append] in Hp.
    apply prefix_cons in Hp as [-> _]. now rewrite Ascii.eqb_refl in Ha.
  - rewrite (replace_step _ _ Ho) in Hp. apply prefix_cons in Hp as [-> Hp].
    rewrite prefix_cons_same. now apply IH.
Qed.

Lemma contains_after (u t : string) :
  never_inside old u -> contains old (u ++ t) = contains old t.
Proof.
  induction u as [|c u IH]; intros H; [reflexivity|].
  destruct H as [H0 H]. cbn [append contains].
  change (String c (u ++ t)) with (String c u ++ t). rewrite H0. now apply IH.
Qed.

Lemma replace_free_upto (n : nat) (s : string) :
  String.length s <= n -> contains old (replace old new s) = false.
Proof.
  revert s. induction n as [|n IH]; intros s Hn.
  - destruct s; [reflexivity | cbn [String.length] in Hn; lia].
  - destruct s as [|c r]; [reflexivity|].
    destruct (String.prefix old (String c r)) eqn:Ho.
    + rewrite (replace_match _ Ho), (contains_after _ _ no_overlap).
      apply IH. rewrite length_drop. cbn [String.length old] in *. lia.
    + rewrite (replace_step _ _ Ho). cbn [contains].
      rewrite (IH r) by (cbn [String.length] in Hn; lia). rewrite orb_false_r.
      destruct (String.prefix old (String c (replace old new r))) eqn:Hq;
        [|reflexivity].
      unfold old in Hq. apply prefix_cons in Hq as [<- Hq].
      apply (prefix_replace_back _ tail_free) in Hq.
      unfold old in Ho. rewrite prefix_cons_same in Ho. congruence.
Qed.

(** No occurrence of [old] is left. *)
Lemma replace_free (s : string) : contains old (replace old new s) = false.
Proof. apply (replace_free_upto (String.length s)). lia. Qed.

(** A text without [old] is not changed. *)
Lemma replace_absent (s : string) :
  contains old s = false -> replace old new s = s.
Proof.
  induction s as [|c r IH]; [reflexivity|].
  cbn [contains]. intros H. apply orb_false_iff in H as [Hp Hr].
  rewrite (replace_step _ _ Hp). now rewrite IH.
Qed.

End Replace.

(** X17. The two escaping functions leave no occurrence of the pattern
    they replace, and a text without the pattern is returned as it is; so
    each of them is idempotent. *)
Theorem X17_pattern_removed (text : string) :
  contains "{id_}" (escape_template_placeholders text) = false
  /\ contains "id_)" (process_hints_text text) = false
  /\ (forall t, contains "{id_}" t = false -> escape_template_placeholders t = t)
  /\ (forall t, contains "id_)" t = false -> process_hints_text t = t)
  /\ escape_template_placeholders (escape_template_placeholders text)
     = escape_template_placeholders text
  /\ process_hints_text (process_hints_text text) = process_hints_text text.
Proof.
  assert (E1 : forall t, contains "{id_}" (escape_template_placeholders t) = false).
  { intros t. apply (replace_free "{" "[" "id_}" "id_]"); [reflexivity|].
    cbn. repeat split; intros; reflexivity. }
  assert (E2 : forall t, contains "id_)" (process_hints_text t) = false).
  { intros t. apply (replace_free "i" "i" "d_)" "d_param)"); [reflexivity|].
    cbn. repeat split; intros; reflexivity. }
  assert (A1 : forall t, contains "{id_}" t = false
                         -> escape_template_placeholders t = t)
    by (intros t; apply (replace_absent "{" "[" "id_}" "id_]")).
  assert (A2 : forall t, contains "id_)" t = false -> process_hints_text t = t)
    by (intros t; apply (replace_absent "i" "i" "d_)" "d_param)")).
  repeat split; auto.
Qed.

Lemma X17_witness :
  contains "{id_}" (escape_template_placeholders "a{id_}b{id_}") = false.
Proof. apply (X17_pattern_removed "a{id_}b{id_}"). Defined.

Lemma ordinary_tl (w : world) :
  ordinary_faults w -> Forall (fun f => match f with
                                        | NoFault => True
                                        | OpenFault e => is_Exception e = true
                                        | MidFault _ e => is_Exception e = true
                                        end) (snd (next_fault w)).
Proof.
  unfold ordinary_faults, next_fault. intros H.
  destruct (faults w) as [|f fs]; [constructor | now inversion H].
Qed.

(** A read returns, or raises a subclass of [Exception]; the faults that
    remain are ordinary. *)
Lemma read_text_ordinary (path : string) (w : world) :
  ordinary_faults w ->
  ordinary_faults (snd (read_text path w))
  /\ (forall e, fst (read_text path w) = Raise e -> is_Exception e = true).
Proof.
  intros H. pose proof (ordinary_tl w H) as Ht.
  unfold read_text. unfold ordinary_faults, next_fault in *.
  destruct (faults w) as [|f fs]; cbn [fst snd] in *.
  - destruct (files w path); cbn [fst snd faults];
      (split; [constructor | intros e [= <-]; reflexivity || discriminate]).
  - inversion H as [|? ? Hf Hfs]; subst.
    destruct f as [|e0|n e0]; [destruct (files w path)| |]; cbn [fst snd faults];
      (split; [exact Hfs | intros e [= <-]; reflexivity || exact Hf || discriminate]).
Qed.

Lemma get_file_content_returns (path : string) (w : world) :
  ordinary_faults w ->
  exists v w', get_file_content path w = (Ret v, w').
Proof.
  intros H. destruct (read_text_ordinary path w H) as [_ He].
  unfold get_file_content, try_except.
  destruct (read_text path w) as [[v|e] w1]; [now eexists; eexists|].
  cbn [fst] in He. rewrite (He e eq_refl). now eexists; eexists.
Qed.

Lemma get_original_file_path_returns (default_name base_dir : string) (w : world) :
  ordinary_faults w ->
  exists v w', get_original_file_path_or default_name base_dir w = (Ret v, w')
               /\ ordinary_faults w'.
Proof.
  intros H. unfold get_original_file_path_or, try_except, bind, path_exists.
  set (config_file := path_join _ _).
  destruct (files w config_file).
  - destruct (read_text_ordinary config_file w H) as [Ho He].
    destruct (read_text config_file w) as [[v|e] w1]; cbn [fst snd] in *.
    + eexists; eexists. split; [reflexivity | exact Ho].
    + rewrite (He e eq_refl). eexists; eexists. split; [reflexivity | exact Ho].
  - eexists; eexists. split; [reflexivity | exact H].
Qed.

(** X18. Building the code part of the two prompts never raises: every
    failure to find or read the file is caught, and the code shown in the
    prompt is then a default file or the text of the error. *)
Theorem X18_prompt_code_returns (base_dir : string) (w : world) :
  ordinary_faults w ->
  (exists v w', Analyser.CODE_TO_ANALYZE base_dir w = (Ret v, w'))
  /\ (exists v w', Generator.CODE_TO_FIX base_dir w = (Ret v, w')).
Proof.
  intros H. unfold Analyser.CODE_TO_ANALYZE, Generator.CODE_TO_FIX,
              Analyser.get_original_file_path, Generator.get_original_file_path, bind.
  split.
  - destruct (get_original_file_path_returns "widgets.py" base_dir w H)
      as (v & w1 & -> & H1).
    apply get_file_content_returns, H1.
  - destruct (get_original_file_path_returns "qdp.py" base_dir w H)
      as (v & w1 & -> & H1).
    apply get_file_content_returns, H1.
Qed.

Lemma X18_witness :
  (exists v w', Analyser.CODE_TO_ANALYZE "bug_fixer_agent"
                  (World (fun _ => None) [] [OpenFault (OtherException "denied")])
                = (Ret v, w'))
  /\ (exists v w', Generator.CODE_TO_FIX "bug_fixer_agent"
                     (World (fun _ => None) [] [OpenFault (OtherException "denied")])
                   = (Ret v, w')).
Proof.
  apply (X18_prompt_code_returns "bug_fixer_agent"
           (World (fun _ => None) [] [OpenFault (OtherException "denied")])).
  repeat constructor.
Defined.

End PromptLaws.

(** ** Laws of the front of [main] *)

Module MainLaws.
Import PyStr Shape PyStrFacts Py Py.Notations PyFacts PyPath Main.

(** The pieces of a split hold no separator. *)
Lemma split_on_free (sep : ascii) (s : string) :
  split_on sep s <> [] /\ Forall (fun piece => has_char sep piece = false) (split_on sep s).
Proof.
  induction s as [|c s [Hne IH]]; cbn [split_on].
  - split; [discriminate | repeat constructor].
  - destruct (Ascii.eqb c sep) eqn:E.
    + split; [discriminate | now constructor].
    + destruct (split_on sep s) as [|h t]; [congruence|].
      inversion IH; subst. split; [discriminate|].
      constructor; [|assumption]. cbn [has_char]. now rewrite E.
Qed.

Lemma last_Forall {A : Type} (P : A -> Prop) (l : list A) (d : A) :
  l <> [] -> Forall P l -> P (last l d).
Proof.
  induction l as [|x l IH]; [congruence|]. intros _ H. inversion H; subst.
  destruct l as [|y l]; [assumption|]. apply IH; [discriminate | assumption].
Qed.

Lemma repo_name_no_slash (repo : string) :
  has_char SLASH (repo_name_of repo) = false.
Proof.
  unfold repo_name_of. destruct (split_on_free SLASH repo) as [Hne H].
  now apply (last_Forall (fun piece => has_char SLASH piece = false)).
Qed.

Lemma startswith_slash (s : string) :
  startswith s "/" = match s with
                     | String c _ => Ascii.eqb c SLASH
                     | EmptyString => false
                     end.
Proof.
  destruct s as [|c s]; [reflexivity|]. unfold startswith. cbn [String.prefix].
  destruct (ascii_dec "/" c) as [<-|Hn].
  - now destruct s.
  - symmetry. apply Ascii.eqb_neq. unfold SLASH. congruence.
Qed.

(** X20. A leading component that repeats the name of the repository is
    cut from a relative [--original_file], once and with either kind of
    slash, before the path is joined to the clone: for the repository
    [django/django] the path [django/forms/widgets.py] is looked up as
    [forms/widgets.py] in the clone. *)
Theorem X20_repo_prefix_is_cut (repo repo_dir rest : string) :
  repo_name_of repo <> "" ->
  resolve_original_file_path repo repo_dir (repo_name_of repo ++ "/" ++ rest)
  = path_join repo_dir rest
  /\ resolve_original_file_path repo repo_dir
       (repo_name_of repo ++ String BACKSLASH rest)
     = path_join repo_dir rest.
Proof.
  intros Hne. pose proof (repo_name_no_slash repo) as Hns.
  unfold resolve_original_file_path, isabs.
  set (name := repo_name_of repo) in *.
  assert (Hrel : forall t, startswith (name ++ t) "/" = false).
  { intros t. rewrite startswith_slash.
    destruct name as [|c n]; [congruence|]. cbn [append].
    cbn [has_char] in Hns. now apply orb_false_iff in Hns as [-> _]. }
  assert (Hdrop : forall (sep : ascii) (t : string),
             drop (String.length name + 1) (name ++ String sep t) = t).
  { intros sep t.
    change (name ++ String sep t) with (name ++ String sep "" ++ t).
    rewrite <- append_assoc.
    replace (String.length name + 1) with (String.length (name ++ String sep ""))
      by (rewrite length_append; reflexivity).
    apply drop_append_length. }
  split.
  - change ("/" ++ rest) with (String "/"%char rest). rewrite Hrel.
    replace (startswith (name ++ String "/"%char rest) (name ++ "/")) with true.
    + rewrite orb_true_r. cbv zeta. now rewrite (Hdrop "/"%char).
    + symmetry. unfold startswith.
      change (name ++ String "/"%char rest) with (name ++ "/" ++ rest).
      rewrite <- append_assoc. apply prefix_append.
  - rewrite Hrel.
    replace (startswith (name ++ String BACKSLASH rest)
                        (name ++ String BACKSLASH "")) with true.
    + cbn [orb]. cbv zeta. now rewrite Hdrop.
    + symmetry. unfold startswith.
      change (name ++ String BACKSLASH rest)
        with (name ++ String BACKSLASH "" ++ rest).
      rewrite <- append_assoc. apply prefix_append.
Qed.

Lemma X20_witness :
  resolve_original_file_path "django/django" "/src/django"
    (repo_name_of "django/django" ++ "/" ++ "forms/widgets.py")
  = path_join "/src/django" "forms/widgets.py".
Proof.
  apply (X20_repo_prefix_is_cut "django/django" "/src/django" "forms/widgets.py").
  discriminate.
Defined.

(** X21. The input text handed to the agent is never empty unless it was
    read from a file: an empty [--input] is passed over like a missing one,
    an empty problem statement stops the run with status 1, but the content
    of [--input_file] is taken as it is. *)
Theorem X21_empty_input_only_from_file
        (input input_file problem_statement : option string)
        (use_problem_statement : bool) (input_text : string) (w w' : world) :
  select_input input input_file use_problem_statement problem_statement w
  = (Ret input_text, w') ->
  input_text <> ""
  \/ (exists path raw,
         input_file = Some path /\ path <> "" /\ files w path = Some raw
         /\ universal_newlines raw = "").
Proof.
  unfold select_input. intros H.
  assert (Hfile : forall path,
             try_except (read_text path) is_Exception
               (fun e => print ("Error reading input file: " ++ str_of_exn e) ;;;
                         raise (SystemExit 1)) w
             = (Ret input_text, w') ->
             input_text <> "" \/ exists raw, files w path = Some raw
                                             /\ universal_newlines raw = "").
  { intros path. unfold try_except, read_text, bind, print, raise.
    destruct (next_fault w) as [[|e|n e] rest].
    - destruct (files w path) as [raw|] eqn:Hf; [|discriminate].
      intros [= <- _]. destruct (universal_newlines raw) eqn:Hu;
        [right; now exists raw | left; discriminate].
    - destruct (is_Exception e); discriminate.
    - destruct (is_Exception e); discriminate. }
  assert (Hrest :
            match input_file with
            | Some ((String _ _) as path) =>
                try_except (read_text path) is_Exception
                  (fun e => print ("Error reading input file: " ++ str_of_exn e) ;;;
                            raise (SystemExit 1))
            | _ =>
                if use_problem_statement then
                  if negb (truthy match problem_statement with
                                  | Some t => t | None => "" end)
                  then print "Error: No problem_statement found in data.json" ;;;
                       raise (SystemExit 1)
                  else print "Using problem_statement from data.json as input" ;;;
                       ret match problem_statement with
                           | Some t => t | None => "" end
                else print "Error: No input provided" ;;; raise (SystemExit 1)
            end w = (Ret input_text, w') ->
            input_text <> ""
            \/ (exists path raw,
                   input_file = Some path /\ path <> "" /\ files w path = Some raw
                   /\ universal_newlines raw = "")).
  { destruct input_file as [[|c path]|].
    - destruct use_problem_statement; [|discriminate].
      destruct problem_statement as [[|c t]|]; cbn; try discriminate.
      intros [= <- _]. left. discriminate.
    - intros Hr. destruct (Hfile _ Hr) as [Hne | (raw & Hf & Hu)]; [now left|].
      right. exists (String c path), raw. repeat split; [discriminate | assumption..].
    - destruct use_problem_statement; [|discriminate].
      destruct problem_statement as [[|c t]|]; cbn; try discriminate.
      intros [= <- _]. left. discriminate. }
  destruct input as [[|c t]|].
  - exact (Hrest H).
  - injection H as <- _. left. discriminate.
  - exact (Hrest H).
Qed.

Lemma X21_witness :
  "fix it" <> ""
  \/ (exists path raw,
         @None string = Some path /\ path <> ""
         /\ files (World (fun _ => None) [] []) path = Some raw
         /\ universal_newlines raw = "").
Proof.
  apply (X21_empty_input_only_from_file (Some "fix it") None None false "fix it"
           (World (fun _ => None) [] []) (World (fun _ => None) [] [])).
  reflexivity.
Defined.

End MainLaws.

(** ** Laws of [clone_repository] *)

Module GitLaws.
Import PyStr PyPath Git.
Local Open Scope list_scope.

Ltac run_cases :=
  repeat (cbn [present outcomes log printed fst snd];
          match goal with
          | |- context [match hd ?d ?l with _ => _ end] =>
              destruct (hd d l) as [?out|[|?msg]]
          | |- context [if ?b then _ else _] => destruct b eqn:?
          end).

(** X22. Whenever [clone_repository] returns, it returns the directory
    named after the last component of [repo] inside [current_dir], and the
    last command it ran left the repository at [base_commit]: a checkout
    of [base_commit] that completed, or [rev-parse HEAD] that answered
    [base_commit]. *)
Theorem X22_returns_at_commit (current_dir repo base_commit dir : string) (h : host) :
  fst (clone_repository current_dir repo base_commit h) = inl dir ->
  dir = path_join current_dir (Main.repo_name_of repo)
  /\ exists entries out,
       log (snd (clone_repository current_dir repo base_commit h))
       = log h ++ entries
       /\ ((exists pre, entries = pre ++ [(Checkout dir base_commit, Completed out)])
           \/ (entries = [(RevParseHead dir, Completed out)]
               /\ strip out = base_commit)).
Proof.
  unfold clone_repository, fresh_clone, try_called_process_error, gbind,
    exists_, run, gprint, gret.
  set (repo_dir := path_join current_dir (Main.repo_name_of repo)).
  run_cases; cbn [present outcomes log printed fst snd];
    intros H; try discriminate H; injection H as <-;
    (split; [reflexivity|]); rewrite <- ?app_assoc; cbn [app];
    eexists; eexists; (split; [reflexivity|]);
    first [ right; split; [reflexivity|]; now apply String.eqb_eq
          | left; now exists []
          | left; now eexists [_]
          | left; now eexists [_; _]
          | left; now eexists [_; _; _]
          | left; now eexists [_; _; _; _] ].
Qed.

Lemma X22_witness :
  "/src/django" = path_join "/src" (Main.repo_name_of "django/django")
  /\ exists entries out,
       log (snd (clone_repository "/src" "django/django" "abc"
                   (Host (fun _ => false) [] [] [])))
       = [] ++ entries
       /\ ((exists pre, entries = pre ++ [(Checkout "/src/django" "abc", Completed out)])
           \/ (entries = [(RevParseHead "/src/django", Completed out)]
               /\ strip out = "abc"%string)).
Proof.
  apply (X22_returns_at_commit "/src" "django/django" "abc" "/src/django"
           (Host (fun _ => false) [] [] [])).
  reflexivity.
Defined.

Ltac find_entry H :=
  lazymatch type of H with
  | [] = ?pre ++ _ :: _ => destruct pre; discriminate H
  | _ :: _ = ?pre ++ _ :: _ =>
      let e := fresh "e" in
      destruct pre as [|e pre]; cbn [app] in H;
      [ try discriminate H; injection H as ? ?; subst
      | injection H as ? H; subst; find_entry H ]
  end.

(** X23. [git clone] is only run on a directory that was absent at the
    start or that has just been removed, always from the GitHub address of
    [repo]; and only the directory of the clone is ever removed, and only
    if it was there at the start. *)
Theorem X23_clone_into_free_directory (current_dir repo base_commit : string)
        (h : host) :
  let repo_dir := path_join current_dir (Main.repo_name_of repo) in
  exists entries,
    log (snd (clone_repository current_dir repo base_commit h)) = log h ++ entries
    /\ (forall pre post url dir o,
           entries = pre ++ (Clone url dir, o) :: post ->
           url = ("https://github.com/" ++ repo ++ ".git")%string
           /\ dir = repo_dir
           /\ ((pre = [] /\ present h repo_dir = false)
               \/ exists pre' out,
                   pre = pre' ++ [(Rmtree repo_dir, Completed out)]))
    /\ (forall pre post dir o,
           entries = pre ++ (Rmtree dir, o) :: post ->
           dir = repo_dir /\ present h repo_dir = true).
Proof.
  intros repo_dir.
  unfold clone_repository, fresh_clone, try_called_process_error, gbind,
    exists_, run, gprint, gret.
  fold repo_dir.
  run_cases; cbn [present outcomes log printed fst snd];
    rewrite <- ?app_assoc; cbn [app];
    (eexists; split; [reflexivity|]);
    (split;
     [ intros pre post url dir o H; find_entry H;
       (split; [reflexivity|]); (split; [reflexivity|]);
       first [ left; split; reflexivity
             | right; now eexists [], _
             | right; now eexists [_], _
             | right; now eexists [_; _], _
             | right; now eexists [_; _; _], _ ]
     | intros pre post dir o H; find_entry H; (split; reflexivity) ]).
Qed.

Lemma X23_witness :
  exists entries,
    log (snd (clone_repository "/src" "django/django" "abc"
                (Host (fun _ => true) [Failed CalledProcessError] [] [])))
    = [] ++ entries.
Proof.
  destruct (X23_clone_into_free_directory "/src" "django/django" "abc"
              (Host (fun _ => true) [Failed CalledProcessError] [] []))
    as (entries & H & _).
  exists entries. exact H.
Defined.

End GitLaws.

(** ** Laws of [run_agent] *)

Module AgentLaws.
Import PyStr Shape PyStrFacts Py Py.Notations PyFacts Pipeline Agent.

(** The responses the loop adds for a list of events. *)
Lemma collect_app (events : list event) (responses : list string) (w : world) :
  exists added,
    collect events responses w
    = (Ret (responses ++ added)%list,
       World (files w) (stdout w ++ added)%list (faults w))
    /\ added = flat_map (fun e => match response_of e with
                                  | Some r => [r]
                                  | None => []
                                  end) events.
Proof.
  revert responses w. induction events as [|e events IH]; intros responses w.
  - exists []. cbn [collect flat_map ret]. rewrite !app_nil_r. now destruct w.
  - cbn [collect flat_map]. destruct (response_of e) as [r|].
    + unfold bind, print.
      destruct (IH (responses ++ [r])%list
                   (World (files w) (stdout w ++ [r])%list (faults w)))
        as (added & -> & ->).
      eexists. split; [|reflexivity]. cbn [files stdout faults].
      now rewrite <- !app_assoc.
    + destruct (IH responses w) as (added & -> & ->).
      eexists. split; reflexivity.
Qed.

Lemma extract_skip (pre rest : list string) (w : world) :
  Forall (fun r => contains "[code_generator_agent]:" r = false) pre ->
  extract_code_generator_output (pre ++ rest)%list w
  = extract_code_generator_output rest w.
Proof.
  induction 1 as [|r pre Hr _ IH]; [reflexivity|].
  cbn [app extract_code_generator_output]. now rewrite Hr.
Qed.

Lemma flat_map_unmarked (pre : list event) :
  Forall (fun e => forall r, response_of e = Some r ->
                             contains "[code_generator_agent]:" r = false) pre ->
  Forall (fun r => contains "[code_generator_agent]:" r = false)
         (flat_map (fun e => match response_of e with
                             | Some r => [r]
                             | None => []
                             end) pre).
Proof.
  induction 1 as [|e pre He _ IH]; [constructor|].
  cbn [flat_map]. destruct (response_of e) as [r|]; [|exact IH].
  constructor; [now apply He | exact IH].
Qed.

(** X24. From the events to the generator's answer: when the first kept
    response that mentions the marker comes from an event of
    [code_generator_agent], what [extract_code_generator_output] makes of
    the responses of [run_agent] is the text of that event, joined over its
    parts and stripped. *)
Theorem X24_generator_answer (runner : string -> list event)
        (input_text : string) (original_file_path : option string)
        (pre post : list event) (parts : list (option string)) (w : world) :
  runner (message_text input_text original_file_path)
  = (pre ++ Event "code_generator_agent" (Some (Some parts)) false :: post)%list ->
  Forall (fun e => forall r, response_of e = Some r ->
                             contains "[code_generator_agent]:" r = false) pre ->
  join (map text_or_empty parts) <> "" ->
  exists responses w1,
    run_agent runner input_text original_file_path w = (Ret responses, w1)
    /\ extract_code_generator_output responses w1
       = (Ret (strip (join (map text_or_empty parts))), w1).
Proof.
  intros Hrun Hpre Htext. unfold run_agent. rewrite Hrun.
  destruct (collect_app (pre ++ Event "code_generator_agent" (Some (Some parts)) false
                             :: post)%list [] w) as (added & -> & Hadded).
  eexists; eexists. split; [reflexivity|].
  cbn [app]. rewrite Hadded, flat_map_app.
  rewrite extract_skip by now apply flat_map_unmarked.
  cbn [flat_map]. unfold response_of at 1. cbn [content author partial].
  destruct parts as [|p parts]; [now cbn in Htext|].
  cbv zeta.
  destruct (join (map text_or_empty (p :: parts))) as [|c body] eqn:E;
    [congruence|].
  cbn [truthy andb negb app extract_code_generator_output].
  reflexivity.
Qed.

Lemma X24_witness :
  exists responses w1,
    run_agent (fun _ => [Event "code_analyser_agent" (Some (Some [Some "look"])) false]
                        ++ Event "code_generator_agent"
                             (Some (Some [Some "def f():"; None; Some " pass "]))
                             false :: [])%list
              "bug" None (World (fun _ => None) [] [])
    = (Ret responses, w1)
    /\ extract_code_generator_output responses w1
       = (Ret (strip (join (map text_or_empty [Some "def f():"; None; Some " pass "]))),
          w1).
Proof.
  apply (X24_generator_answer
           (fun _ => [Event "code_analyser_agent" (Some (Some [Some "look"])) false]
                     ++ Event "code_generator_agent"
                          (Some (Some [Some "def f():"; None; Some " pass "]))
                          false :: [])%list
           "bug" None
           [Event "code_analyser_agent" (Some (Some [Some "look"])) false] []
           [Some "def f():"; None; Some " pass "] (World (fun _ => None) [] [])).
  - reflexivity.
  - repeat constructor. intros r [= <-]. reflexivity.
  - discriminate.
Defined.

End AgentLaws.

(** ** A sequence compared with itself *)

Module SelfMatchFacts.
Import PyStr Difflib DiffShape MatcherFacts SelfMatch.
Local Open Scope nat_scope.
Local Open Scope list_scope.

(** *** The index lists of [b2j] *)

Lemma b2j_get_setdefault (m : b2j_t) (y x : string) (i : nat) :
  b2j_get (setdefault_append m y i) x
  = if String.eqb y x then b2j_get m x ++ [i] else b2j_get m x.
Proof.
  induction m as [|[z js] m IH]; cbn [setdefault_append b2j_get].
  - destruct (String.eqb y x); reflexivity.
  - destruct (String.eqb_spec z y) as [->|Hzy]; cbn [b2j_get].
    + destruct (String.eqb y x); reflexivity.
    + destruct (String.eqb_spec z x) as [->|Hzx]; [|exact IH].
      destruct (String.eqb_spec y x); [congruence | reflexivity].
Qed.

Lemma keys_setdefault (m : b2j_t) (y : string) (i : nat) (k : string) :
  In k (map fst (setdefault_append m y i)) <-> k = y \/ In k (map fst m).
Proof.
  induction m as [|[z js] m IH]; cbn [setdefault_append map fst In].
  - intuition.
  - destruct (String.eqb_spec z y) as [->|Hzy]; cbn [map fst In].
    + intuition.
    + rewrite IH. intuition.
Qed.

Lemma keys_unique_setdefault (m : b2j_t) (y : string) (i : nat) :
  NoDup (map fst m) -> NoDup (map fst (setdefault_append m y i)).
Proof.
  induction m as [|[z js] m IH]; cbn [setdefault_append map fst]; intros H.
  - repeat constructor. intros [].
  - inversion H as [|? ? Hz Hm]; subst.
    destruct (String.eqb_spec z y) as [->|Hzy]; cbn [map fst].
    + now constructor.
    + constructor; [|now apply IH].
      rewrite keys_setdefault. intros [->|Hin]; [congruence | contradiction].
Qed.

Lemma b2j_get_not_key (m : b2j_t) (x : string) :
  ~ In x (map fst m) -> b2j_get m x = [].
Proof.
  induction m as [|[z js] m IH]; [reflexivity|]. cbn [map fst In b2j_get].
  intros H. destruct (String.eqb_spec z x) as [->|_]; [tauto|].
  apply IH. tauto.
Qed.

(** Deleting keys leaves the other index lists as they were. *)
Lemma b2j_get_filter (P : string * list nat -> bool) (m : b2j_t) (x : string) :
  NoDup (map fst m) ->
  b2j_get (filter P m) x = [] \/ b2j_get (filter P m) x = b2j_get m x.
Proof.
  induction m as [|[z js] m IH]; [now left|]. cbn [map fst filter b2j_get].
  intros H. inversion H as [|? ? Hz Hm]; subst.
  destruct (String.eqb_spec z x) as [->|Hzx].
  - destruct (P (x, js)); cbn [b2j_get].
    + rewrite String.eqb_refl. now right.
    + left. apply b2j_get_not_key. intros Hin. apply Hz.
      apply in_map_iff in Hin as (kv & <- & Hkv). apply filter_In in Hkv as [Hkv _].
      now apply in_map.
  - destruct (P (z, js)); cbn [b2j_get]; [|now apply IH].
    destruct (String.eqb_spec z x); [congruence | now apply IH].
Qed.

Section Self.
Variable a : list string.

(** The indexes of [x] in [a] from [start] on, in ascending order. *)
Lemma b2j_get_fold (l : list string) (start : nat) (m : b2j_t) (x : string) :
  (forall idx, idx < List.length l ->
               nth (start + idx) a EmptyString = nth idx l EmptyString) ->
  b2j_get (fold_left (fun m ie => setdefault_append m (snd ie) (fst ie))
                     (combine (seq start (List.length l)) l) m) x
  = b2j_get m x
    ++ filter (fun j => String.eqb (nth j a EmptyString) x)
              (seq start (List.length l)).
Proof.
  revert start m. induction l as [|y l IH]; intros start m Hnth.
  - cbn. now rewrite app_nil_r.
  - cbn [List.length seq combine fold_left fst snd filter].
    rewrite IH.
    + rewrite b2j_get_setdefault.
      replace (nth start a EmptyString) with y
        by (rewrite <- (Nat.add_0_r start); symmetry; apply (Hnth 0); simpl; lia).
      destruct (String.eqb y x); [now rewrite <- app_assoc | reflexivity].
    + intros idx Hidx. replace (S start + idx) with (start + S idx) by lia.
      apply (Hnth (S idx)). simpl. lia.
Qed.

Lemma keys_unique_fold (l : list (nat * string)) (m : b2j_t) :
  NoDup (map fst m) ->
  NoDup (map fst (fold_left (fun m ie => setdefault_append m (snd ie) (fst ie)) l m)).
Proof.
  revert m. induction l as [|ie l IH]; intros m H; [exact H|].
  cbn [fold_left]. apply IH, keys_unique_setdefault, H.
Qed.

(** The index list of a key of [b2j] holds every index of the key, in
    ascending order. *)
Lemma anchored_indexes (x : string) :
  anchored a x = true ->
  b2j_get (chain_b a) x
  = filter (fun j => String.eqb (nth j a EmptyString) x) (seq 0 (List.length a)).
Proof.
  unfold anchored. intros H.
  assert (H0 : b2j_get (fold_left (fun m ie => setdefault_append m (snd ie) (fst ie))
                                  (enumerate a) []) x
               = filter (fun j => String.eqb (nth j a EmptyString) x)
                        (seq 0 (List.length a))).
  { unfold enumerate. now rewrite b2j_get_fold. }
  unfold chain_b in *. destruct (200 <=? List.length a); [|exact H0].
  match goal with
  | |- b2j_get (filter ?P ?m) x = _ =>
      destruct (b2j_get_filter P m x) as [E|E]
  end.
  - apply keys_unique_fold. constructor.
  - rewrite E in H. discriminate.
  - now rewrite E.
Qed.


Let n : nat := List.length a.

Lemma run_length_sym (i j : nat) : run_length a i j = run_length a j i.
Proof.
  revert j. induction i as [|i IH]; intros j.
  - destruct j; cbn [run_length]; [reflexivity|].
    destruct (String.eqb_spec (a_at a 0) (a_at a (S j))) as [E|E].
    + rewrite <- E, String.eqb_refl. reflexivity.
    + destruct (String.eqb_spec (a_at a (S j)) (a_at a 0)); [congruence|reflexivity].
  - destruct j; cbn [run_length].
    + destruct (String.eqb_spec (a_at a (S i)) (a_at a 0)) as [E|E].
      * rewrite E, String.eqb_refl. reflexivity.
      * destruct (String.eqb_spec (a_at a 0) (a_at a (S i))); [congruence|reflexivity].
    + destruct (String.eqb_spec (a_at a (S i)) (a_at a (S j))) as [E|E].
      * rewrite E, String.eqb_refl. now rewrite IH.
      * destruct (String.eqb_spec (a_at a (S j)) (a_at a (S i)));
          [congruence|reflexivity].
Qed.

Lemma run_length_diag (i j : nat) : run_length a i j <= run_length a i i.
Proof.
  revert j. induction i as [|i IH]; intros j.
  - cbn [run_length]. rewrite String.eqb_refl.
    destruct (String.eqb (a_at a 0) (a_at a j) && anchored a (a_at a 0)) eqn:E;
      [|lia].
    apply andb_true_iff in E as [_ ->]. cbn [andb]. now destruct j.
  - cbn [run_length]. rewrite String.eqb_refl.
    destruct (String.eqb (a_at a (S i)) (a_at a j) && anchored a (a_at a (S i))) eqn:E;
      [|lia].
    apply andb_true_iff in E as [_ ->]. cbn [andb].
    destruct j; [lia|]. specialize (IH j). lia.
Qed.

Lemma run_length_diag' (i j : nat) : run_length a i j <= run_length a j j.
Proof. rewrite run_length_sym. apply run_length_diag. Qed.

Lemma run_length_match (i j : nat) :
  a_at a j = a_at a i -> anchored a (a_at a i) = true ->
  run_length a i j
  = S (match i, j with S i', S j' => run_length a i' j' | _, _ => 0 end).
Proof.
  intros E H. destruct i; cbn [run_length]; now rewrite E, String.eqb_refl, H.
Qed.

Lemma run_length_unfold (i j : nat) :
  run_length a i j
  = if String.eqb (a_at a i) (a_at a j) && anchored a (a_at a i)
    then S (match i, j with S i', S j' => run_length a i' j' | _, _ => 0 end)
    else 0.
Proof. destruct i; reflexivity. Qed.

Lemma run_length_mismatch (i j : nat) :
  a_at a i <> a_at a j -> run_length a i j = 0.
Proof.
  intros H. rewrite run_length_unfold.
  destruct (String.eqb_spec (a_at a i) (a_at a j)); [contradiction | reflexivity].
Qed.

Lemma run_length_unanchored (i j : nat) :
  anchored a (a_at a i) = false -> run_length a i j = 0.
Proof. intros H. rewrite run_length_unfold. now rewrite H, andb_false_r. Qed.

Lemma dict_value_cons (d : list (nat * nat)) (j k j' : nat) :
  dict_value ((j, k) :: d) j' = if Nat.eqb j j' then k else dict_value d j'.
Proof. unfold dict_value. cbn [dict_get]. now destruct (Nat.eqb j j'). Qed.

(** The inner loop on the row [i]: the best match stays on the diagonal,
    and the new row holds the run lengths. *)
Lemma flm_inner_self (i : nat) (prev : list (nat * nat)) (js : list nat) :
  prev_ok a i prev -> anchored a (a_at a i) = true ->
  pairwise lt js ->
  (forall j, In j js -> j < n /\ a_at a j = a_at a i) ->
  forall (new : list (nat * nat)) (besti bests : nat),
    (forall i', i' < i -> run_length a i' i' <= bests) ->
    In i js \/ run_length a i i <= bests ->
    exists x s,
      snd (flm_inner 0 n i prev js new (besti, besti, bests)) = (x, x, s)
      /\ bests <= s /\ run_length a i i <= s
      /\ (forall j, In j js ->
                    dict_value (fst (flm_inner 0 n i prev js new (besti, besti, bests))) j
                    = run_length a i j)
      /\ (forall j, ~ In j js ->
                    dict_value (fst (flm_inner 0 n i prev js new (besti, besti, bests))) j
                    = dict_value new j).
Proof.
  intros Hprev Hanch Hsorted Hjs. induction js as [|j js IH];
    intros new besti bests Hs1 Hs2.
  - exists besti, bests. cbn [flm_inner fst snd].
    repeat split; try lia; [now destruct Hs2 | contradiction].
  - destruct (Hjs j (or_introl eq_refl)) as [Hjn Hja].
    assert (Hk : j2len_prev prev j + 1 = run_length a i j).
    { rewrite (run_length_match i j Hja Hanch), (Hprev j Hjn). lia. }
    destruct Hsorted as [Hlt Hsorted'].
    assert (Hjs' : forall j', In j' js -> j' < n /\ a_at a j' = a_at a i)
      by (intros j' Hj'; apply Hjs; now right).
    assert (Hnotin : ~ In j js).
    { intros Hin. rewrite Forall_forall in Hlt. specialize (Hlt j Hin). lia. }
    cbn [flm_inner].
    replace (j <? 0) with false by (symmetry; apply Nat.ltb_ge; lia).
    replace (n <=? j) with false by (symmetry; apply Nat.leb_gt; exact Hjn).
    rewrite Hk.
    assert (Hdict : forall (best : Match) j0 x s,
               snd (flm_inner 0 n i prev js ((j, run_length a i j) :: new) best)
               = (x, x, s) ->
               (forall j1, In j1 js ->
                  dict_value (fst (flm_inner 0 n i prev js
                                     ((j, run_length a i j) :: new) best)) j1
                  = run_length a i j1) ->
               (forall j1, ~ In j1 js ->
                  dict_value (fst (flm_inner 0 n i prev js
                                     ((j, run_length a i j) :: new) best)) j1
                  = dict_value ((j, run_length a i j) :: new) j1) ->
               (In j0 (j :: js) ->
                dict_value (fst (flm_inner 0 n i prev js
                                   ((j, run_length a i j) :: new) best)) j0
                = run_length a i j0)
               /\ (~ In j0 (j :: js) ->
                   dict_value (fst (flm_inner 0 n i prev js
                                      ((j, run_length a i j) :: new) best)) j0
                   = dict_value new j0)).
    { intros best j0 x s _ Hin Hout. split.
      - intros [<-|Hj0]; [|now apply Hin].
        rewrite (Hout j Hnotin), dict_value_cons. now rewrite Nat.eqb_refl.
      - intros Hn. rewrite Hout by (intros Hx; apply Hn; now right).
        rewrite dict_value_cons.
        destruct (Nat.eqb_spec j j0) as [->|_]; [|reflexivity].
        exfalso. apply Hn. now left. }
    destruct (Nat.lt_trichotomy j i) as [Hji|[->|Hji]].
    + (* below the diagonal *)
      pose proof (run_length_diag' i j) as Hd. specialize (Hs1 j Hji) as Hsj.
      replace (bests <? run_length a i j) with false
        by (symmetry; apply Nat.ltb_ge; lia).
      destruct (IH Hsorted' Hjs' ((j, run_length a i j) :: new) besti bests Hs1)
        as (x & s & Hb & Hle & Hii & Hin & Hout).
      { destruct Hs2 as [[E|Hin]|Hs2]; [lia | now left | now right]. }
      exists x, s. split; [exact Hb|]. split; [exact Hle|]. split; [exact Hii|].
      split; intros j0; apply (Hdict (besti, besti, bests) j0 x s Hb Hin Hout).
    + (* on the diagonal *)
      destruct (Nat.ltb_spec bests (run_length a i i)) as [Hlt'|Hge].
      * replace (i + 1 - run_length a i i, i + 1 - run_length a i i, run_length a i i)
          with (i + 1 - run_length a i i, i + 1 - run_length a i i, run_length a i i)
          by reflexivity.
        destruct (IH Hsorted' Hjs' ((i, run_length a i i) :: new)
                     (i + 1 - run_length a i i) (run_length a i i))
          as (x & s & Hb & Hle & Hii & Hin & Hout).
        { intros i' Hi'. specialize (Hs1 i' Hi'). lia. }
        { now right. }
        exists x, s. split; [exact Hb|]. split; [lia|]. split; [exact Hii|].
        split; intros j0; apply (Hdict _ j0 x s Hb Hin Hout).
      * destruct (IH Hsorted' Hjs' ((i, run_length a i i) :: new) besti bests Hs1)
          as (x & s & Hb & Hle & Hii & Hin & Hout); [now right|].
        exists x, s. split; [exact Hb|]. split; [exact Hle|]. split; [exact Hii|].
        split; intros j0; apply (Hdict _ j0 x s Hb Hin Hout).
    + (* above the diagonal: the diagonal has been passed *)
      assert (Hii0 : run_length a i i <= bests).
      { destruct Hs2 as [[E|Hin]|Hs2]; [lia | | exact Hs2].
        rewrite Forall_forall in Hlt. specialize (Hlt i Hin). lia. }
      pose proof (run_length_diag i j) as Hd.
      replace (bests <? run_length a i j) with false
        by (symmetry; apply Nat.ltb_ge; lia).
      destruct (IH Hsorted' Hjs' ((j, run_length a i j) :: new) besti bests Hs1)
        as (x & s & Hb & Hle & Hii & Hin & Hout); [now right|].
      exists x, s. split; [exact Hb|]. split; [exact Hle|]. split; [exact Hii|].
      split; intros j0; apply (Hdict (besti, besti, bests) j0 x s Hb Hin Hout).
Qed.

Lemma pairwise_filter_seq (P : nat -> bool) (start len : nat) :
  pairwise lt (filter P (seq start len)).
Proof.
  revert start. induction len as [|len IH]; intros start; [exact I|].
  cbn [seq filter]. destruct (P start); [|apply IH].
  split; [|apply IH]. apply Forall_forall. intros x Hx.
  apply filter_In in Hx as [Hx _]. apply in_seq in Hx. lia.
Qed.

(** The outer loop: the best match stays on the diagonal. *)
Lemma flm_outer_self (m i : nat) (j2len : list (nat * nat)) (besti bests : nat) :
  i + m <= n -> prev_ok a i j2len ->
  (forall i', i' < i -> run_length a i' i' <= bests) ->
  exists x s,
    snd (fold_left (flm_outer a a 0 n) (seq i m) (j2len, (besti, besti, bests)))
    = (x, x, s).
Proof.
  revert i j2len besti bests. induction m as [|m IH];
    intros i j2len besti bests Hi Hprev Hs1.
  - now exists besti, bests.
  - cbn [seq fold_left flm_outer]. unfold b2j.
    destruct (anchored a (a_at a i)) eqn:Hanch.
    + rewrite (anchored_indexes _ Hanch).
      set (js := filter _ _).
      assert (Hjs : forall j, In j js -> j < n /\ a_at a j = a_at a i).
      { intros j Hj. apply filter_In in Hj as [Hj1 Hj2].
        apply in_seq in Hj1. apply String.eqb_eq in Hj2. split; [lia | exact Hj2]. }
      assert (Hin : In i js).
      { apply filter_In. split; [apply in_seq; lia | apply String.eqb_refl]. }
      destruct (flm_inner_self i j2len js Hprev Hanch
                  (pairwise_filter_seq _ _ _) Hjs [] besti bests Hs1 (or_introl Hin))
        as (x & s & Hb & Hle & Hii & Hd1 & Hd2).
      destruct (flm_inner 0 n i j2len js [] (besti, besti, bests)) as [new best].
      cbn [fst snd] in *. subst best.
      apply IH; [lia | |].
      * intros j Hj. destruct j as [|j]; [reflexivity|].
        change (j2len_prev new (S j)) with (dict_value new j).
        destruct (in_dec Nat.eq_dec j js) as [Hjin|Hjout]; [now apply Hd1|].
        rewrite (Hd2 j Hjout). unfold dict_value. cbn [dict_get].
        symmetry. apply run_length_mismatch. intros E.
        apply Hjout, filter_In.
        split; [apply in_seq; lia | apply String.eqb_eq; now symmetry].
      * intros i' Hi'. destruct (Nat.eq_dec i' i) as [->|Hne]; [exact Hii|].
        specialize (Hs1 i' ltac:(lia)). lia.
    + assert (E : b2j_get (chain_b a) (a_at a i) = []).
      { unfold anchored in Hanch. now destruct (b2j_get (chain_b a) (a_at a i)). }
      rewrite E. cbn [flm_inner].
      apply IH; [lia | |].
      * intros j Hj. destruct j as [|j]; [reflexivity|].
        cbn [j2len_prev dict_get]. symmetry. now apply run_length_unanchored.
      * intros i' Hi'. destruct (Nat.eq_dec i' i) as [->|Hne].
        -- rewrite run_length_unanchored by exact Hanch. lia.
        -- apply Hs1. lia.
Qed.

(** The first loop that extends the match downwards reaches the start. *)
Lemma extend_down_self (x s : nat) :
  extend_down a a false 0 0 x x s = (0, 0, s + x).
Proof.
  revert s. induction x as [|x IH]; intros s.
  - cbn [extend_down]. now rewrite Nat.add_0_r.
  - cbn [extend_down]. unfold isbjunk.
    replace (S x - 1) with x by lia.
    rewrite String.eqb_refl. cbn [Nat.ltb Nat.leb andb Bool.eqb].
    rewrite IH. f_equal. lia.
Qed.

(** The first loop that extends the match upwards reaches the end. *)
Lemma extend_up_self (fuel s : nat) :
  s <= n -> n - s <= fuel ->
  extend_up a a fuel false n n 0 0 s = (0, 0, n).
Proof.
  revert s. induction fuel as [|fuel IH]; intros s Hs Hf.
  - cbn [extend_up]. do 2 f_equal. lia.
  - cbn [extend_up]. unfold isbjunk. cbn [Nat.add Bool.eqb].
    rewrite String.eqb_refl.
    destruct (Nat.ltb_spec s n) as [Hlt|Hge]; cbn [andb].
    + apply IH; lia.
    + do 2 f_equal. lia.
Qed.

Lemma extend_up_junk (fuel i j k : nat) :
  extend_up a a fuel true n n i j k = (i, j, k).
Proof.
  destruct fuel; [reflexivity|]. cbn [extend_up]. unfold isbjunk.
  cbn [Bool.eqb]. now rewrite andb_false_r.
Qed.

(** The longest match of a sequence with itself is the whole of it. *)
Lemma find_longest_match_self : find_longest_match a a 0 n 0 n = (0, 0, n).
Proof.
  unfold find_longest_match.
  destruct (flm_outer_self (n - 0) 0 [] 0 0) as (x & s & Hb).
  - lia.
  - intros j _. now destruct j.
  - intros i' Hi'. lia.
  - pose proof (flm_outer_ok a a 0 n 0 n (n - 0) 0 ([], (0, 0, 0))) as Hv.
    destruct (fold_left _ _ _) as [d best]. cbn [snd fst] in *. subst best.
    assert (Hxs : x + s <= n).
    { destruct Hv as (_ & H & _); try lia.
      - intros j k. discriminate.
      - cbn. repeat split; lia. }
    rewrite extend_down_self.
    rewrite extend_up_self by lia.
    cbn [extend_down]. apply extend_up_junk.
Qed.

Lemma get_matching_blocks_self :
  1 <= n -> get_matching_blocks a a = [(0, 0, n); (n, n, 0)].
Proof.
  intros Hn. unfold get_matching_blocks. fold n.
  replace (2 * n + 2) with (S (S (2 * n))) by lia.
  cbn [mb_loop]. rewrite find_longest_match_self.
  replace (n =? 0) with false by (symmetry; apply Nat.eqb_neq; lia).
  replace (0 + n <? n) with false by (symmetry; apply Nat.ltb_ge; lia).
  cbn [Nat.ltb Nat.leb andb app sorted fold_right sort_insert].
  unfold collapse. cbn [fold_left collapse_step Nat.add Nat.eqb andb].
  replace (n =? 0) with false by (symmetry; apply Nat.eqb_neq; lia).
  reflexivity.
Qed.

Lemma get_opcodes_self : 1 <= n -> get_opcodes a a = [(Equal, 0, n, 0, n)].
Proof.
  intros Hn. unfold get_opcodes. rewrite (get_matching_blocks_self Hn).
  cbn [fold_left opcodes_step].
  repeat match goal with
         | |- context [(?x <? ?y)] => destruct (Nat.ltb_spec x y); try lia
         | |- context [(?x =? ?y)] => destruct (Nat.eqb_spec x y); try lia
         end.
  reflexivity.
Qed.

Lemma get_grouped_opcodes_self : get_grouped_opcodes a a 3 = [].
Proof.
  destruct (Nat.eq_dec n 0) as [E|E].
  - unfold n in E. apply length_zero_iff_nil in E. rewrite E. reflexivity.
  - unfold get_grouped_opcodes. rewrite get_opcodes_self by lia.
    cbn [update_first update_last fix_leading fix_trailing tag_eqb
           fold_left group_step andb app].
    replace (3 + 3 <? Nat.min n (Nat.max 0 (n - 3) + 3) - Nat.max 0 (n - 3))
      with false by (symmetry; apply Nat.ltb_ge; lia).
    reflexivity.
Qed.

End Self.

(** The diff of a sequence with itself is empty. *)
Lemma unified_diff_self (a : list string) (fromfile tofile : string) :
  unified_diff a a fromfile tofile 3 = [].
Proof. unfold unified_diff. now rewrite get_grouped_opcodes_self. Qed.

End SelfMatchFacts.

(** ** A fix that changes nothing *)

Module NoChangeLaws.
Import PyStr Shape PyStrFacts Py Py.Notations PyFacts Stripper Header.
Import Difflib Json Pipeline Patch PatchFacts DiffFacts SelfMatchFacts.

Lemma unified_diff_nil_iff (a b : list string) (fromfile tofile : string) :
  unified_diff a b fromfile tofile 3 = [] <-> a = b.
Proof.
  split.
  - intros H. pose proof (unified_diff_lines_apply a b fromfile tofile) as Happ.
    rewrite H in Happ. cbn [apply_patch] in Happ. congruence.
  - intros <-. apply unified_diff_self.
Qed.

(** X25. The diff written by [generate_diff_patch] is empty exactly when
    the two files have the same lines; in particular equal files give an
    empty patch, however long they are and however often a line repeats in
    them. *)
Theorem X25_empty_diff_iff_equal (original fixed patch rawa rawb : string)
        (w : world) :
  files w original = Some rawa -> files w fixed = Some rawb -> calm 3 w ->
  fst (generate_diff_patch original fixed patch w) = Ret tt
  /\ (files (snd (generate_diff_patch original fixed patch w)) patch = Some ""
      <-> readlines rawa = readlines rawb).
Proof.
  intros Ha Hb Hc.
  rewrite (generate_diff_patch_calm original fixed patch rawa rawb w Ha Hb Hc).
  cbn [fst snd files]. split; [reflexivity|]. rewrite update_same.
  rewrite <- (unified_diff_nil_iff _ _ original fixed). split.
  - intros [= H]. unfold unified_diff in *.
    destruct (get_grouped_opcodes _ _ 3); [reflexivity | discriminate].
  - intros ->. reflexivity.
Qed.

Lemma X25_witness :
  fst (generate_diff_patch "widgets.py" "results/output.py" "results/patch.diff"
         (World two_line_files [] []))
  = Ret tt
  /\ (files (snd (generate_diff_patch "widgets.py" "results/output.py"
                    "results/patch.diff" (World two_line_files [] [])))
            "results/patch.diff" = Some ""
      <-> readlines ("def f():" ++ nl ++ "    return 1" ++ nl)
          = readlines ("def f():" ++ nl ++ "    return 2" ++ nl)).
Proof.
  apply (X25_empty_diff_iff_equal "widgets.py" "results/output.py"
           "results/patch.diff"
           ("def f():" ++ nl ++ "    return 1" ++ nl)
           ("def f():" ++ nl ++ "    return 2" ++ nl)
           (World two_line_files [] [])).
  - reflexivity.
  - reflexivity.
  - intros i _. now destruct i.
Defined.

(** X26. When the generated code has the same lines as the original file,
    the run still goes through every stage: the patch file ends up holding
    the three header lines and no hunk, and a JSONL record with that
    header-only patch is written. *)
Theorem X26_unchanged_code_gives_bare_header (instance_id : option string)
        (original rawa rawb : string) (w : world) :
  files w original = Some rawa -> files w output_py_path = Some rawb ->
  calm 9 w -> readlines rawa = readlines rawb ->
  let w' := snd (make_patch instance_id original w) in
  fst (make_patch instance_id original w) = Ret tt
  /\ files w' patch_diff_path = Some (join new_header)
  /\ files w' output_jsonl_path
     = Some (dumps_patch_data
               (match instance_id with Some i => i | None => "unknown_instance" end)
               "gemini-2.5-pro" (join new_header) ++ nl).
Proof.
  intros Ha Hb Hc Heq.
  pose proof (DriverLaws.make_patch_calm instance_id original rawa rawb w Ha Hb Hc)
    as H.
  cbv zeta in H. rewrite Heq, unified_diff_self in H. exact H.
Qed.

Lemma X26_witness :
  fst (make_patch None "widgets.py"
         (World (fun p => if String.eqb p "widgets.py" then Some ("x" ++ nl)
                          else if String.eqb p "results/output.py"
                               then Some ("x" ++ String CR nl) else None)
                [] []))
  = Ret tt.
Proof.
  apply (X26_unchanged_code_gives_bare_header None "widgets.py"
           ("x" ++ nl) ("x" ++ String CR nl)
           (World (fun p => if String.eqb p "widgets.py" then Some ("x" ++ nl)
                            else if String.eqb p "results/output.py"
                                 then Some ("x" ++ String CR nl) else None)
                  [] [])).
  - reflexivity.
  - reflexivity.
  - intros i _. now destruct i.
  - reflexivity.
Defined.

End NoChangeLaws.

(** ** Further laws of the extractor and of the packager *)

Module BlockLaws.
Import PyStr Shape PyStrFacts Py Py.Notations PyFacts.
Import Extractor ExtractorFacts CleanFacts Json Pipeline ExtractorLaws.

Lemma contains_prefix (p q s : string) :
  String.prefix p q = true -> String.prefix q s = true -> contains p s = true.
Proof.
  intros Hpq Hqs. pose proof (prefix_trans _ _ _ Hpq Hqs) as H.
  destruct s; cbn [contains]; now rewrite H.
Qed.

Lemma contains_drop (p s : string) (k : nat) :
  String.prefix p (drop k s) = true -> contains p s = true.
Proof.
  revert s. induction k as [|k IH]; intros s H.
  - cbn [drop] in H. destruct s; cbn [contains]; now rewrite H.
  - destruct s as [|c s]; cbn [drop] in H.
    + cbn [contains]. now rewrite H.
    + cbn [contains]. rewrite (IH s H). apply orb_true_r.
Qed.

Lemma fence_free_clean (g : string) :
  contains fence g = false -> clean_code_output g = g.
Proof.
  intros H. apply clean_code_output_id.
  - unfold startswith. destruct (String.prefix "```" g) eqn:E; [|reflexivity].
    destruct g; cbn [contains] in H; unfold fence in H; now rewrite E in H.
  - unfold endswith. destruct (_ && _) eqn:E; [|reflexivity].
    apply andb_true_iff in E as [_ E]. apply String.eqb_eq in E.
    rewrite (contains_drop fence g (String.length g - String.length "```")) in H;
      [discriminate|].
    rewrite E. reflexivity.
Qed.

(** X27. A block taken from between fences goes to [output.py] as it is:
    it holds no fence, so the cleanup finds nothing to cut and returns it
    unchanged, with its indentation and its last line feed.  The cleanup
    only ever acts on an answer in which no fenced block was found. *)
Theorem X27_fenced_block_not_cleaned (output v : string) (w w' : world) :
  extract_code_from_output output w = (Ret v, w') ->
  re_search python_fence_open output <> None
  \/ re_search plain_fence_open output <> None ->
  clean_code_output v = v.
Proof.
  unfold extract_code_from_output. intros H Hfound.
  destruct (re_search python_fence_open output) as [g|] eqn:H1.
  - injection H as <- _. apply fence_free_clean, (re_search_fence_free _ _ _ H1).
  - destruct (re_search plain_fence_open output) as [g|] eqn:H2.
    + injection H as <- _. apply fence_free_clean, (re_search_fence_free _ _ _ H2).
    + destruct Hfound; congruence.
Qed.

Lemma X27_witness :
  clean_code_output ("  x = 1" ++ nl) = "  x = 1" ++ nl.
Proof.
  apply (X27_fenced_block_not_cleaned
           ("Here:" ++ nl ++ "```python" ++ nl ++ "  x = 1" ++ nl ++ "```")
           ("  x = 1" ++ nl)
           (World (fun _ => None) [] []) (World (fun _ => None) [] [])).
  - reflexivity.
  - left. discriminate.
Defined.

(** X28. A failure while the JSONL file is written does not reach the
    caller: [save_patch_to_jsonl] prints the error and returns.  The file
    is opened for writing before anything is written, so it is left with
    the part of the record written so far, or untouched if it could not be
    opened. *)
Theorem X28_jsonl_write_failure_is_swallowed
        (patch instance_id model_name jsonl raw : string) (w : world)
        (f : fault) (rest : list fault) :
  files w patch = Some raw -> faults w = NoFault :: f :: rest -> write_fails f ->
  fst (save_patch_to_jsonl patch instance_id model_name jsonl w) = Ret tt
  /\ files (snd (save_patch_to_jsonl patch instance_id model_name jsonl w)) jsonl
     = match f with
       | OpenFault _ => files w jsonl
       | _ => Some (left_by f ""
                      (dumps_patch_data instance_id model_name
                         (universal_newlines raw) ++ nl))
       end.
Proof.
  intros Hf Hw Hfail. destruct w as [fs out fl]. cbn [files faults] in Hf, Hw. subst fl.
  unfold save_patch_to_jsonl, try_except, bind, read_text, write_text,
    next_fault, ret, print.
  cbn [faults files stdout]. rewrite Hf.
  destruct f as [|e|k e]; cbn [write_fails] in Hfail; [contradiction|..];
    cbv beta iota zeta delta [faults files stdout is_FileNotFoundError];
    rewrite Hfail;
    cbv beta iota zeta delta [faults files stdout fst snd left_by];
    (split; [reflexivity|]).
  - reflexivity.
  - now rewrite update_same.
Qed.

Lemma X28_witness :
  fst (save_patch_to_jsonl "widgets.py" "i" "m" "out.jsonl"
         (World two_line_files []
                [NoFault; MidFault 3 (OtherException "[Errno 28] No space left on device")]))
  = Ret tt.
Proof.
  apply (X28_jsonl_write_failure_is_swallowed "widgets.py" "i" "m" "out.jsonl"
           ("def f():" ++ nl ++ "    return 1" ++ nl)
           (World two_line_files []
                  [NoFault; MidFault 3 (OtherException "[Errno 28] No space left on device")])
           (MidFault 3 (OtherException "[Errno 28] No space left on device")) []);
    reflexivity.
Defined.

End BlockLaws.
